(** * SMQTK: batch orchestrator, hash indexer, IQR session controller and
    PostgreSQL classification element

    A shallow embedding of
    - [python/smqtk/compute_functions.py]
      ([compute_many_descriptors], [compute_hash_codes]),
    - [python/smqtk/iqr/iqr_controller.py] ([IqrController]) and
    - [python/smqtk/representation/classification_element/postgres.py]
      ([PostgresClassificationElement]),
    followed by the properties stated about them.

    Python dictionaries are [gmap]s, Python sets are [gset]s, exceptions are
    the left summand of a [sum].  Code that calls external capabilities (the
    descriptor generator, the descriptor index, the wall clock) threads an
    explicit world through the calls and records what it did in a trace. *)

From Stdlib Require Import ssreflect ZArith QArith Lqa Ascii.
From stdpp Require Import base option list sets gmap strings numbers sorting
  pretty.

Set Warnings "-rewrite-rw,-clear-no-such-hyp".

Local Open Scope general_if_scope.
Local Open Scope Z_scope.

(** ** Python values shared by the three components *)

(** The exceptions that the modelled code raises itself, and the ones an
    external capability may raise. *)
Inductive PyExn :=
| KeyError
| RuntimeError (msg : string)
| AssertionError (msg : string)
| ExternalError (name : string).

Global Instance PyExn_eq_dec : EqDecision PyExn.
Proof. solve_decision. Defined.

(** Hashable values used as session identifiers: [None], integers,
    strings and the [UUID] objects made by [uuid.uuid1()] (a 128-bit
    number). *)
Inductive PyKey :=
| KNone
| KInt (z : Z)
| KStr (s : string)
| KUuid (u : N).

Global Instance PyKey_eq_dec : EqDecision PyKey.
Proof. solve_decision. Defined.

Definition PyKey_encode (k : PyKey) : unit + (Z + (string + N)) :=
  match k with
  | KNone => inl tt
  | KInt z => inr (inl z)
  | KStr s => inr (inr (inl s))
  | KUuid u => inr (inr (inr u))
  end.

Definition PyKey_decode (x : unit + (Z + (string + N))) : PyKey :=
  match x with
  | inl _ => KNone
  | inr (inl z) => KInt z
  | inr (inr (inl s)) => KStr s
  | inr (inr (inr u)) => KUuid u
  end.

Global Instance PyKey_countable : Countable PyKey.
Proof. by apply (inj_countable' PyKey_encode PyKey_decode); intros []. Defined.

(** Python truthiness, as tested by [if not session_uuid]: [None], [0] and
    the empty string are falsy; a [UUID] object defines neither [__len__]
    nor [__nonzero__] and is always truthy. *)
Definition truthy (k : PyKey) : bool :=
  match k with
  | KNone => false
  | KInt z => negb (z =? 0)
  | KStr s => negb (String.eqb s "")
  | KUuid _ => true
  end.

(** [str(k)], as the [%s] of a message formats a key: a string is itself,
    an integer is written in decimal, and a [UUID] as the 32 hexadecimal
    digits of its 128 bits in groups of 8, 4, 4, 4 and 12. *)
Definition hex_digit (n : N) : ascii :=
  match n with
  | 0 => "0" | 1 => "1" | 2 => "2" | 3 => "3" | 4 => "4" | 5 => "5"
  | 6 => "6" | 7 => "7" | 8 => "8" | 9 => "9" | 10 => "a" | 11 => "b"
  | 12 => "c" | 13 => "d" | 14 => "e" | _ => "f"
  end%N%char.

Fixpoint hex_digits (len : nat) (n : N) (acc : list ascii) : list ascii :=
  match len with
  | O => acc
  | S len => hex_digits len (n `div` 16)%N (hex_digit (n `mod` 16)%N :: acc)
  end.

Definition uuid_str (u : N) : string :=
  let h := hex_digits 32 u [] in
  String.string_of_list_ascii
    (take 8 h ++ "-"%char :: take 4 (drop 8 h) ++ "-"%char
       :: take 4 (drop 12 h) ++ "-"%char :: take 4 (drop 16 h) ++ "-"%char
       :: drop 20 h).

Definition str_of_key (k : PyKey) : string :=
  match k with
  | KNone => "None"
  | KInt z => pretty z
  | KStr s => s
  | KUuid u => uuid_str u
  end.

(** ** iqr/iqr_controller.py *)

Module IqrCtl.
Section controller.
(** [IqrSession] objects are built by the callers; the controller only
    stores and returns references to them. *)
Context {IqrSession : Type}.

(** [self._iqr_sessions] and the depth at which the reentrant
    [self._map_rlock] is held by the running thread. *)
Record IqrController := mkIqrController {
  _iqr_sessions : gmap PyKey IqrSession;
  _map_rlock : nat;
}.

(** [__init__] *)
Definition init : IqrController :=
  {| _iqr_sessions := ∅; _map_rlock := 0 |}.

(** [__enter__] and [__exit__]: acquire and release of the RLock.  A
    release follows an acquire in every use below; the release of a lock
    that is not held, which raises in Python, does not occur. *)
Definition enter (c : IqrController) : IqrController :=
  {| _iqr_sessions := _iqr_sessions c; _map_rlock := S (_map_rlock c) |}.

Definition exit (c : IqrController) : IqrController :=
  {| _iqr_sessions := _iqr_sessions c; _map_rlock := pred (_map_rlock c) |}.

Definition set_sessions (m : gmap PyKey IqrSession) (c : IqrController)
  : IqrController :=
  {| _iqr_sessions := m; _map_rlock := _map_rlock c |}.

(** [with self._map_rlock: body]: the lock is released on every exit
    path, whether [body] returns or raises. *)
Definition with_map_rlock {A : Type}
    (body : IqrController → IqrController * (PyExn + A))
    (c : IqrController) : IqrController * (PyExn + A) :=
  let '(c', r) := body (enter c) in (exit c', r).

(** [session_uuids]: the keys of the map (in no particular order). *)
Definition session_uuids (c : IqrController)
  : IqrController * (PyExn + list PyKey) :=
  with_map_rlock (λ c, (c, inr (elements (dom (_iqr_sessions c))))) c.

(** [has_session_uuid] *)
Definition has_session_uuid (c : IqrController) (session_uuid : PyKey)
  : IqrController * (PyExn + bool) :=
  with_map_rlock
    (λ c, (c, inr (bool_decide (is_Some (_iqr_sessions c !! session_uuid)))))
    c.

(** [add_session(iqr_session, session_uuid=None)].  [uuid1] is the value
    that [uuid.uuid1()] returns if it is called. *)
Definition add_session (c : IqrController) (iqr_session : IqrSession)
    (session_uuid : PyKey) (uuid1 : N)
  : IqrController * (PyExn + PyKey) :=
  with_map_rlock (λ c,
    if negb (truthy session_uuid) then
      let session_uuid := KUuid uuid1 in
      if bool_decide (is_Some (_iqr_sessions c !! session_uuid)) then
        (c, inl (AssertionError
                   "Generated a new random UUID that already exists in session map."))
      else
        (set_sessions (<[session_uuid := iqr_session]> (_iqr_sessions c)) c,
         inr session_uuid)
    else
      if bool_decide (is_Some (_iqr_sessions c !! session_uuid)) then
        (c, inl (RuntimeError
                   ("Cannot use given ID as it already exists in the controller session map: "
                    +:+ str_of_key session_uuid)))
      else
        (set_sessions (<[session_uuid := iqr_session]> (_iqr_sessions c)) c,
         inr session_uuid)) c.

(** [get_session]: [self._iqr_sessions[session_uuid]]. *)
Definition get_session (c : IqrController) (session_uuid : PyKey)
  : IqrController * (PyExn + IqrSession) :=
  with_map_rlock (λ c,
    match _iqr_sessions c !! session_uuid with
    | Some s => (c, inr s)
    | None => (c, inl KeyError)
    end) c.

(** [remove_session]: the subscript raises [KeyError] for an unknown id;
    otherwise the session is entered (its own lock is taken and, after
    the [del], released again, which leaves the session as it was) and the
    binding is deleted. *)
Definition remove_session (c : IqrController) (session_uuid : PyKey)
  : IqrController * (PyExn + unit) :=
  with_map_rlock (λ c,
    match _iqr_sessions c !! session_uuid with
    | Some _ =>
        (set_sessions (delete session_uuid (_iqr_sessions c)) c, inr tt)
    | None => (c, inl KeyError)
    end) c.
End controller.
Global Arguments IqrController : clear implicits.
End IqrCtl.

(** ** Programs that call out: state, trace and exceptions

    [Run S E A] is a computation over a state [S] that appends events of
    type [E] to a trace and either returns an [A] or raises.  What was
    emitted before an exception stays in the trace, as the pairs yielded
    by a Python generator stay with the consumer when a later step raises. *)

Definition Run (S E A : Type) : Type := S → list E * S * (PyExn + A).

Global Instance run_ret {S E} : MRet (Run S E) :=
  λ A a s, ([], s, inr a).

Global Instance run_bind {S E} : MBind (Run S E) :=
  λ A B f m s,
    match m s with
    | (t1, s1, inl e) => (t1, s1, inl e)
    | (t1, s1, inr a) =>
        match f a s1 with
        | (t2, s2, r) => (t1 ++ t2, s2, r)
        end
    end.

Definition raise {S E A} (e : PyExn) : Run S E A := λ s, ([], s, inl e).
Definition emit {S E} (ev : E) : Run S E unit := λ s, ([ev], s, inr tt).
Definition emit_all {S E} (evs : list E) : Run S E unit := λ s, (evs, s, inr tt).
Definition get_state {S E} : Run S E S := λ s, ([], s, inr s).
Definition put_state {S E} (s : S) : Run S E unit := λ _, ([], s, inr tt).

(** An external call: it moves the world and returns or raises. *)
Definition call {S E A} (f : S → S * (PyExn + A)) : Run S E A :=
  λ s, let '(s', r) := f s in ([], s', r).

Definition trace_of {S E A} (r : list E * S * (PyExn + A)) : list E := r.1.1.
Definition state_of {S E A} (r : list E * S * (PyExn + A)) : S := r.1.2.
Definition result_of {S E A} (r : list E * S * (PyExn + A)) : PyExn + A := r.2.

(** ** compute_functions.py: [compute_many_descriptors] *)

Module Descr.

(** Modelled from the spec: the class [DataFileElement] is not among the
    sources.  An Item carries "a stable identifier (e.g., a source path) and
    raw content"; as a dictionary key it stands for its content, so that
    content-identical Items are one key of the mapping the generator
    returns. *)
Record DataFileElement := mkDFE {
  _filepath : string;
  get_bytes : string;
}.

Section orchestrator.
(** [World] is the state of the external collaborators (generator caches,
    the descriptor index); [DescriptorElement] is what the generator
    produces. *)
Context {World DescriptorElement : Type}.

(** [descr_generator.compute_descriptor_async(data_iter, descr_factory,
    overwrite, procs, **kwds)]: the factory and the extra keywords are
    part of the instance.  The call iterates [data_iter]:
    [reads_on read ...] tells whether, having taken the elements [read],
    it asks for one more, and [compute_descriptor_async read ...] is what
    it does and returns when [read] is all it has taken: a mapping keyed
    by element, or an exception. *)
Class DescriptorGenerator := {
  reads_on : list DataFileElement → bool → option Z → World → bool;
  compute_descriptor_async :
    list DataFileElement → bool → option Z →
    World → World * (PyExn + gmap string DescriptorElement);
}.

(** [descr_index.add_many_descriptors(descriptors)] *)
Class DescriptorIndex := {
  add_many_descriptors :
    list DescriptorElement → World → World * (PyExn + unit);
}.

Context `{!DescriptorGenerator, !DescriptorIndex}.

(** What a run does, in order: each batch it submits to the generator
    and the mapping that comes back, each list of descriptors it hands to
    the index, and the pairs it yields. *)
Inductive Event :=
| Submitted (batch : list DataFileElement)
| Returned (m : gmap string DescriptorElement)
| AddMany (descriptors : list DescriptorElement)
| Yielded (filepath : string) (d : DescriptorElement).

(** [m.itervalues()] *)
Definition itervalues (m : gmap string DescriptorElement)
  : list DescriptorElement := (map_to_list m).*2.

(** [for e in dfe_deque: yield e._filepath, m[e]] *)
Fixpoint yield_all (dfe_deque : list DataFileElement)
    (m : gmap string DescriptorElement) : Run World Event unit :=
  match dfe_deque with
  | [] => mret tt
  | e :: rest =>
      match m !! get_bytes e with
      | Some d => emit (Yielded (_filepath e) d) ;; yield_all rest m
      | None => raise KeyError
      end
  end.

(** The elements the generator takes from an iterable that still holds
    [rest], having taken [read]: it stops when it asks for no more or
    when the iterable is exhausted. *)
Fixpoint taken (overwrite : bool) (procs : option Z) (w : World)
    (read rest : list DataFileElement) : list DataFileElement :=
  if reads_on read overwrite procs w then
    match rest with
    | [] => read
    | x :: rest => taken overwrite procs w (read ++ [x]) rest
    end
  else read.

(** The call of the generator on an iterable that holds [data]. *)
Definition generate (data : list DataFileElement) (overwrite : bool)
    (procs : option Z) (w : World)
  : World * (PyExn + gmap string DescriptorElement) :=
  compute_descriptor_async (taken overwrite procs w [] data) overwrite procs w.

(** The body shared by the three places that compute a batch: call the
    generator on [data], add the values of the returned mapping to the
    index, yield the elements of the deque in deque order.  In the two
    places with a batch size [data] is the deque itself.  In the place
    without, [data] is [iter_capture_elements()], which appends to the
    deque each element the generator takes from it, so the deque then
    holds what the generator has read ([captured]). *)
Definition compute_batch (overwrite : bool) (procs : option Z)
    (data : list DataFileElement) (captured : bool) : Run World Event unit :=
  emit (Submitted data) ;;
  w ← get_state;
  let dfe_deque :=
    if captured then taken overwrite procs w [] data else data in
  m ← call (generate data overwrite procs);
  emit (Returned m) ;;
  emit (AddMany (itervalues m)) ;;
  call (add_many_descriptors (itervalues m)) ;;
  yield_all dfe_deque m.

(** [for dfe in iter_capture_elements(): ...] with the deque as loop
    state; returns the deque left when the input is exhausted. *)
Fixpoint batched_loop (overwrite : bool) (procs : option Z)
    (batch_size : Z) (file_elements dfe_deque : list DataFileElement)
  : Run World Event (list DataFileElement) :=
  match file_elements with
  | [] => mret dfe_deque
  | dfe :: rest =>
      let dfe_deque := dfe_deque ++ [dfe] in
      if Z.of_nat (length dfe_deque) =? batch_size then
        compute_batch overwrite procs dfe_deque false ;;
        batched_loop overwrite procs batch_size rest []
      else
        batched_loop overwrite procs batch_size rest dfe_deque
  end.

(** [if batch_size:] is false for [None] and for [0]. *)
Definition batch_size_set (batch_size : option Z) : option Z :=
  match batch_size with
  | Some b => if b =? 0 then None else Some b
  | None => None
  end.

(** [compute_many_descriptors(file_elements, descr_generator,
    descr_factory, descr_index, batch_size=None, overwrite=False,
    procs=None, **kwds)].  The [log.debug] calls and the counters
    [total], [unique] and [batch_i] that only feed them are left out. *)
Definition compute_many_descriptors
    (file_elements : list DataFileElement) (batch_size : option Z)
    (overwrite : bool) (procs : option Z) : Run World Event unit :=
  match batch_size_set batch_size with
  | Some b =>
      dfe_deque ← batched_loop overwrite procs b file_elements [];
      if negb (length dfe_deque =? 0)%nat then
        compute_batch overwrite procs dfe_deque false
      else mret tt
  | None => compute_batch overwrite procs file_elements true
  end.

(** Projections of a trace. *)
Definition yielded (t : list Event) : list (string * DescriptorElement) :=
  omap (λ ev, match ev with Yielded p d => Some (p, d) | _ => None end) t.

Definition batches (t : list Event) : list (list DataFileElement) :=
  omap (λ ev, match ev with Submitted b => Some b | _ => None end) t.

(** The contract of the two capabilities: the generator returns a mapping
    that has an entry for every element it was handed, and the index
    accepts what it is given. *)
Definition generator_covers : Prop :=
  ∀ batch overwrite procs w, ∃ w' m,
    generate batch overwrite procs w = (w', inr m) ∧
    ∀ e, e ∈ batch → is_Some (m !! get_bytes e).

Definition index_accepts : Prop :=
  ∀ descriptors w, ∃ w', add_many_descriptors descriptors w = (w', inr tt).

(** [pair_of m e ev]: [ev] is the pair yielded for [e] out of the
    mapping [m], found under the key [e]. *)
Definition pair_of (m : gmap string DescriptorElement)
    (e : DataFileElement) (ev : Event) : Prop :=
  ∃ d, m !! get_bytes e = Some d ∧ ev = Yielded (_filepath e) d.

(** [served xs t]: the trace [t] serves the elements [xs] batch after
    batch; each batch is submitted, its mapping comes back and goes to
    the index, and one pair per element of the batch is yielded, in the
    order of the batch. *)
Inductive served : list DataFileElement → list Event → Prop :=
| served_nil : served [] []
| served_batch batch m ys rest t :
    Forall2 (pair_of m) batch ys →
    served rest t →
    served (batch ++ rest)
      (Submitted batch :: Returned m :: AddMany (itervalues m) :: ys ++ t).

(** [invoked overwrite procs bs w t w']: the trace [t] is that of the
    two capabilities invoked on the batches [bs] one after the other,
    which takes the world from [w] to [w']: for each batch the generator
    is called on it and returns a mapping, the values of the mapping are
    added to the index, and one pair per element of the batch is
    yielded. *)
Inductive invoked (overwrite : bool) (procs : option Z)
  : list (list DataFileElement) → World → list Event → World → Prop :=
| invoked_nil w : invoked overwrite procs [] w [] w
| invoked_batch batch bs w w1 m w2 ys t w3 :
    generate batch overwrite procs w = (w1, inr m) →
    add_many_descriptors (itervalues m) w1 = (w2, inr tt) →
    Forall2 (pair_of m) batch ys →
    invoked overwrite procs bs w2 t w3 →
    invoked overwrite procs (batch :: bs) w
      (Submitted batch :: Returned m :: AddMany (itervalues m) :: ys ++ t) w3.
End orchestrator.
Global Arguments DescriptorGenerator : clear implicits.
Global Arguments DescriptorIndex : clear implicits.
Global Arguments Event : clear implicits.
End Descr.

(** ** compute_functions.py: [compute_hash_codes] *)

Module HashIdx.

(** Modelled from the spec: [bit_utils.bit_vector_to_int_large] is not among
    the sources.  The bit vector becomes "a single large non-negative
    integer", "most-significant bit first". *)
Definition bit_vector_to_int_large (v : list bool) : Z :=
  fold_left (λ c (b : bool), c * 2 + (if b then 1 else 0)) v 0.

(** Modelled from the spec: [parallel.parallel_map] is not among the
    sources.  With [ordered=False] "results are consumed as they complete":
    every submitted element gives one result, in an order fixed by the
    scheduling of the workers.  A schedule says, for each element, how many
    of the elements submitted after it complete before it. *)
Fixpoint completion_order {A} (sched : list nat) (xs : list A) : list A :=
  match xs with
  | [] => []
  | x :: rest =>
      let later := completion_order (tail sched) rest in
      let i := default 0%nat (head sched) in
      take i later ++ x :: drop i later
  end.

(** The scheduling depends on [use_multiprocessing] (threads or worker
    processes) and on the number and speed of the workers. *)
Definition parallel_map {A B} (sched : bool → list nat) (f : A → B)
    (xs : list A) (use_multiprocessing : bool) : list B :=
  f <$> completion_order (sched use_multiprocessing) xs.

(** [logging.DEBUG] *)
Definition DEBUG : Z := 10.

Section indexer.
(** Descriptor UUIDs are hashable values. *)
Context {U : Type} `{Countable U}.
Context {DescriptorVector Clock Report : Type}.

(** [index.get_descriptor(u).vector()] *)
Class DescriptorIndex := {
  get_descriptor_vector : U → PyExn + DescriptorVector;
}.

(** [functor.get_hash(v)]: a bit vector, or an exception. *)
Class LshFunctor := {
  get_hash_bits : DescriptorVector → PyExn + list bool;
}.

(** [bin_utils.report_progress(log, state, interval)], which is not among
    the sources, taken as a parameter: it reads the wall clock, updates
    the seven-slot state and hands zero or more reports to [log]. *)
Class ProgressReporter := {
  bin_utils_report_progress :
    list Q → Q → Clock → Clock * (list Q * list Report);
}.

Context {index : DescriptorIndex} {functor : LshFunctor}.
Context {reporter : ProgressReporter}.

(** The store of objects, by address: the dictionaries
    [dict[int|long, set[Hashable]]], whose values are the addresses of set
    objects, and the set objects themselves.  Two keys (of one dictionary
    or of two) may hold the same set object. *)
Record IxState := mkIxState {
  dicts : gmap positive (gmap Z positive);
  sets : gmap positive (gset U);
  clock : Clock;
}.

Inductive LogRecord :=
| NotLoggingProgress
| LoggingProgressAt (report_interval : Q)
| StartingComputation
| Progress (r : Report).

Definition IxRun := Run IxState LogRecord.

(** [log.debug(...)]: the record is emitted when the effective level of
    the logger admits debug output. *)
Definition log_debug (level : Z) (rec : LogRecord) : IxRun unit :=
  if level <=? DEBUG then emit rec else mret tt.

(** [def get_hash(u)]: the lookup in the index with [vector()] can raise,
    and so can the functor; the conversion of a vector of bits is
    arithmetic. *)
Definition get_hash (u : U) : PyExn + (U * Z) :=
  match get_descriptor_vector u with
  | inl e => inl e
  | inr v =>
      match get_hash_bits v with
      | inl e => inl e
      | inr bits => inr (u, bit_vector_to_int_large bits)
      end
  end.

(** [hash2uuids = {}]: a new dictionary object. *)
Definition new_dict : IxRun positive :=
  λ s, let l := fresh (dom (dicts s)) in
       ([], {| dicts := <[l := ∅]> (dicts s); sets := sets s;
               clock := clock s |}, inr l).

(** [hash_int not in hash2uuids] *)
Definition not_in_dict (l : positive) (hash_int : Z) : IxRun bool :=
  λ s, ([], s, inr (bool_decide ((dicts s !!! l) !! hash_int = None))).

(** [hash2uuids[hash_int] = set()]: a new set object, stored under the
    key. *)
Definition setitem_new_set (l : positive) (hash_int : Z) : IxRun unit :=
  λ s, let a := fresh (dom (sets s)) in
       ([], {| dicts := <[l := <[hash_int := a]> (dicts s !!! l)]> (dicts s);
               sets := <[a := ∅]> (sets s);
               clock := clock s |}, inr tt).

(** [if hash_int not in hash2uuids: hash2uuids[hash_int] = set()] *)
Definition ensure_key (l : positive) (hash_int : Z) : IxRun unit :=
  absent ← not_in_dict l hash_int;
  if (absent : bool) then setitem_new_set l hash_int else mret tt.

(** [hash2uuids[hash_int].add(uuid)]: the subscript raises [KeyError] on a
    missing key; [add] changes the set object in place. *)
Definition add_uuid (l : positive) (hash_int : Z) (uuid : U) : IxRun unit :=
  λ s, match (dicts s !!! l) !! hash_int with
       | Some a =>
           ([], {| dicts := dicts s;
                   sets := <[a := (sets s !!! a) ∪ {[uuid]}]> (sets s);
                   clock := clock s |}, inr tt)
       | None => ([], s, inl KeyError)
       end.

(** The two functions [report_progress] can be bound to.  Each returns
    the new contents of the state list. *)
Definition noop_report_progress (state : list Q) (interval : Q)
  : IxRun (list Q) := mret state.

Fixpoint log_debug_all (level : Z) (reports : list Report) : IxRun unit :=
  match reports with
  | [] => mret tt
  | r :: reports =>
      log_debug level (Progress r) ;; log_debug_all level reports
  end.

(** [bin_utils.report_progress] called with [log.debug] as its [log]. *)
Definition debug_report_progress (level : Z) (state : list Q) (interval : Q)
  : IxRun (list Q) :=
  '(state', reports) ← call (λ s,
     let '(c, r) := bin_utils_report_progress state interval (clock s) in
     ({| dicts := dicts s; sets := sets s; clock := c |}, inr r));
  log_debug_all level reports ;;
  mret state'.

(** [log.getEffectiveLevel() > logging.DEBUG or report_interval <= 0] *)
Definition reporting_disabled (level : Z) (report_interval : Q) : bool :=
  (DEBUG <? level) || Qle_bool report_interval 0.

Definition report_progress (level : Z) (report_interval : Q)
  : list Q → Q → IxRun (list Q) :=
  if reporting_disabled level report_interval then noop_report_progress
  else debug_report_progress level.

(** The accumulation loop over the results of [parallel_map]; a result
    that is an exception is raised when the loop reaches it. *)
Fixpoint accumulate (level : Z) (report_interval : Q) (hash2uuids : positive)
    (results : list (PyExn + (U * Z))) (report_state : list Q)
  : IxRun (list Q) :=
  match results with
  | [] => mret report_state
  | inl e :: _ => raise e
  | inr (uuid, hash_int) :: rest =>
      ensure_key hash2uuids hash_int ;;
      add_uuid hash2uuids hash_int uuid ;;
      report_state ← report_progress level report_interval
                        report_state report_interval;
      accumulate level report_interval hash2uuids rest report_state
  end.

(** [compute_hash_codes(uuids, index, functor, hash2uuids=None,
    report_interval=1.0, use_mp=False)].  [hash2uuids] is the address of
    the caller's dictionary, if one is given; [level] is the effective
    level of the module's logger and [sched] the scheduling of the
    workers. *)
Definition compute_hash_codes (uuids : list U) (hash2uuids : option positive)
    (report_interval : Q) (use_mp : bool)
    (level : Z) (sched : bool → list nat) : IxRun positive :=
  hash2uuids ← match hash2uuids with
               | None => new_dict
               | Some l => mret l
               end;
  let report_state := replicate 7 0%Q in
  (if reporting_disabled level report_interval
   then log_debug level NotLoggingProgress
   else log_debug level (LoggingProgressAt report_interval)) ;;
  log_debug level StartingComputation ;;
  report_state ← accumulate level report_interval hash2uuids
                    (parallel_map sched get_hash uuids use_mp) report_state;
  (* Final report *)
  let report_state := alter (λ c, c - 1)%Q 1%nat report_state in
  report_progress level report_interval report_state 0%Q ;;
  mret hash2uuids.

(** *** Notions used to state the properties *)

Definition is_progress (r : LogRecord) : bool :=
  match r with Progress _ => true | _ => false end.

(** The results the loop consumes: those before the first exception. *)
Fixpoint consumed {A} (results : list (PyExn + A)) : list A :=
  match results with
  | inr a :: rest => a :: consumed rest
  | _ => []
  end.

(** The state one round of the loop leaves (the two statements on the
    dictionary, for one result): the identifier goes into the set object
    the key holds, or into a new set object stored under the key. *)
Definition round (l : positive) (s : IxState) (r : U * Z) : IxState :=
  match (dicts s !!! l) !! r.2 with
  | Some a =>
      {| dicts := dicts s;
         sets := <[a := (sets s !!! a) ∪ {[r.1]}]> (sets s);
         clock := clock s |}
  | None =>
      let a := fresh (dom (sets s)) in
      {| dicts := <[l := <[r.2 := a]> (dicts s !!! l)]> (dicts s);
         sets := <[a := {[r.1]}]> (sets s);
         clock := clock s |}
  end.

Definition set_clock (c : Clock) (s : IxState) : IxState :=
  {| dicts := dicts s; sets := sets s; clock := c |}.

(** What the dictionary at [l] reads as: hash code to set of
    identifiers. *)
Definition contents (s : IxState) (l : positive) : gmap Z (gset U) :=
  (λ a, sets s !!! a) <$> (dicts s !!! l).

(** [d1] only grew into [d2]: every key of [d1] is a key of [d2] and
    holds at least the identifiers it held. *)
Definition dict_le (d1 d2 : gmap Z (gset U)) : Prop :=
  ∀ k ids, d1 !! k = Some ids → ∃ ids', d2 !! k = Some ids' ∧ ids ⊆ ids'.

(** The address of the dictionary a run works on and the state once that
    dictionary exists: the caller's, or a new empty one. *)
Definition dict_address (hash2uuids : option positive) (s : IxState)
  : positive :=
  match hash2uuids with
  | Some l => l
  | None => fresh (dom (dicts s))
  end.

Definition initial_state (hash2uuids : option positive) (s : IxState)
  : IxState :=
  match hash2uuids with
  | Some _ => s
  | None => {| dicts := <[fresh (dom (dicts s)) := ∅]> (dicts s);
               sets := sets s; clock := clock s |}
  end.

(** The records logged before the loop starts. *)
Definition start_log (level : Z) (report_interval : Q) : list LogRecord :=
  if level <=? DEBUG then
    [ if reporting_disabled level report_interval then NotLoggingProgress
      else LoggingProgressAt report_interval;
      StartingComputation ]
  else [].

(** The hash code of an identifier, when its descriptor is found and
    hashed. *)
Definition hash_code (u : U) : option Z :=
  match get_hash u with
  | inr (_, h) => Some h
  | inl _ => None
  end.

(** The [(uuid, hash_int)] results of the identifiers whose descriptor is
    found and hashed. *)
Definition pairs_of (uuids : list U) : list (U * Z) :=
  omap (λ u, (λ h, (u, h)) <$> hash_code u) uuids.

(** [starts_from hash2uuids s d0]: the dictionary the run starts from is
    [d0]: the caller's dictionary, or nothing when the run makes its
    own. *)
Definition starts_from (hash2uuids : option positive) (s : IxState)
    (d0 : gmap Z positive) : Prop :=
  match hash2uuids with
  | Some l => dicts s !! l = Some d0
  | None => d0 = ∅
  end.

(** Every set a dictionary refers to exists (as it does in a Python
    heap). *)
Definition no_dangling (s : IxState) (d : gmap Z positive) : Prop :=
  ∀ k a, d !! k = Some a → is_Some (sets s !! a).

(** [reached l s0 d0 rs s]: what is known of the state [s] that the rounds
    for the results [rs] lead to, from a state [s0] whose dictionary at [l]
    is [d0]. *)
Record reached (l : positive) (s0 : IxState) (d0 : gmap Z positive)
    (rs : list (U * Z)) (s : IxState) : Prop := {
  (* the keys the dictionary had keep their set objects *)
  reached_old_keys : ∀ k a, d0 !! k = Some a → (dicts s !!! l) !! k = Some a;
  (* the keys it gained are the hash codes of the results *)
  reached_new_keys :
    ∀ k, d0 !! k = None → is_Some ((dicts s !!! l) !! k) ↔ k ∈ rs.*2;
  (* a gained key holds a set object made by the rounds, held by no other
     key, with the identifiers of that hash code *)
  reached_new_sets :
    ∀ k a, d0 !! k = None → (dicts s !!! l) !! k = Some a →
      sets s0 !! a = None ∧
      (∀ k', (dicts s !!! l) !! k' = Some a → k' = k) ∧
      ∃ ids, sets s !! a = Some ids ∧ ∀ u, u ∈ ids ↔ (u, k) ∈ rs;
  (* a set object that existed holds what it held and the identifiers
     whose hash code is one of its keys *)
  reached_old_sets :
    ∀ a ids0, sets s0 !! a = Some ids0 →
      ∃ ids, sets s !! a = Some ids ∧
             ∀ u, u ∈ ids ↔ u ∈ ids0 ∨ ∃ h, (u, h) ∈ rs ∧ d0 !! h = Some a;
  reached_no_dangling : no_dangling s (dicts s !!! l);
  reached_dict : is_Some (dicts s !! l);
  reached_other : ∀ l', l' ≠ l → dicts s !! l' = dicts s0 !! l';
}.

(** [grown l s s']: from [s] to [s'] the dictionary at [l] kept its keys
    and their set objects, every set object kept its identifiers, and the
    other dictionaries were not touched. *)
Record grown (l : positive) (s s' : IxState) : Prop := {
  grown_keys : ∀ k a, (dicts s !!! l) !! k = Some a →
                      (dicts s' !!! l) !! k = Some a;
  grown_sets : ∀ a ids, sets s !! a = Some ids →
                        ∃ ids', sets s' !! a = Some ids' ∧ ids ⊆ ids';
  grown_dict : is_Some (dicts s !! l) → is_Some (dicts s' !! l);
  grown_other : ∀ l', l' ≠ l → dicts s' !! l' = dicts s !! l';
}.
End indexer.
Global Arguments DescriptorIndex : clear implicits.
Global Arguments LshFunctor : clear implicits.
Global Arguments ProgressReporter : clear implicits.
Global Arguments IxState : clear implicits.
Global Arguments LogRecord : clear implicits.

(** *** The reporting function of the spec *)

(** A progress notification: the count of loops processed and the time
    elapsed since the first call; the rate is their quotient. *)
Record Notification := mkNotification {
  processed : Q;
  elapsed : Q;
}.

Definition rate (n : Notification) : Q := processed n / elapsed n.

Section reporter.
Context {Clock : Type}.

(** [time.time()]: the wall clock is read and moves on. *)
Class WallClock := {
  time_time : Clock → Clock * Q;
}.
Context {wall_clock : WallClock}.

Definition slot (state : list Q) (i : nat) : Q := default 0%Q (state !! i).

(** Modelled from the spec: [bin_utils.report_progress(log, state,
    interval)] is not among the sources.  "the stage emits periodic
    progress notifications (count processed, elapsed time, rate) at
    `reportIntervalSeconds` cadence": a call counts one more loop, reads
    the clock, and hands a notification to [log] when at least [interval]
    seconds have passed since the last notification (since the first call,
    when there has been none).  Of the seven slots of the state that
    [compute_hash_codes] creates, slot 1 is the count of loops, the slot
    that [compute_hash_codes] decrements before its final call, which
    follows no loop; slot 6 holds the time of the first call and slot 3
    the time of the last notification. *)
Definition periodic_report_progress (state : list Q) (interval : Q)
    (c : Clock) : Clock * (list Q * list Notification) :=
  let '(c', now) := time_time c in
  let first := Qeq_bool (slot state 6) 0 in
  let start := if first then now else slot state 6 in
  let last := if first then now else slot state 3 in
  let count := (slot state 1 + 1)%Q in
  let state := <[6%nat := start]> (<[3%nat := last]> (<[1%nat := count]> state)) in
  if Qle_bool interval (now - last) then
    (c', (<[3%nat := now]> state, [mkNotification count (now - start)]))
  else (c', (state, [])).

Definition periodic_reporter : ProgressReporter Clock Notification :=
  {| bin_utils_report_progress := periodic_report_progress |}.

(** A clock that does not run backwards: no reading is earlier than the
    reading before it. *)
Definition never_backwards : Prop :=
  ∀ c, ((time_time c).2 <= (time_time (time_time c).1).2)%Q.

(** What the calls of the reporting function keep true of the state [st]
    and the clock [c], after [k] calls: the state has its seven slots,
    slot 1 counts the calls, and the clock has not fallen behind the time
    of the last notification. *)
Definition in_step (k : nat) (st : list Q) (c : Clock) : Prop :=
  length st = 7%nat ∧
  (slot st 1 == inject_Z (Z.of_nat k))%Q ∧
  (Qeq_bool (slot st 6) 0 = true ∨ (slot st 3 <= (time_time c).2)%Q).
End reporter.
Global Arguments WallClock : clear implicits.
End HashIdx.


(** ** Runs of [compute_many_descriptors] that raise *)

Module DescrShape.
Import Descr.

Section shape.
Context {DescriptorElement : Type}.

(** [broken batch t]: the trace of an attempt on [batch] that raised: in
    the generator, in the index, or at the lookup [m[e]] of an element the
    mapping does not have, the elements before it having been yielded. *)
Inductive broken (batch : list DataFileElement)
  : list (Event DescriptorElement) → Prop :=
| broken_generator : broken batch [Submitted batch]
| broken_index m :
    broken batch [Submitted batch; Returned m; AddMany (itervalues m)]
| broken_lookup m before e after ys :
    batch = before ++ e :: after →
    Forall2 (pair_of m) before ys →
    m !! get_bytes e = None →
    broken batch
      (Submitted batch :: Returned m :: AddMany (itervalues m) :: ys).

(** [offered data read t]: the trace of one call on [data] that went
    through when the deque holds [read]: the mapping comes back, goes to
    the index, and one pair per element of [read] is yielded. *)
Inductive offered (data read : list DataFileElement)
  : list (Event DescriptorElement) → Prop :=
| offered_read m ys :
    Forall2 (pair_of m) read ys →
    offered data read
      (Submitted data :: Returned m :: AddMany (itervalues m) :: ys).


End shape.
End DescrShape.


(** ** Counting what a dictionary of the hash indexer holds *)

Module HashIdxCount.
Section count.
Context {U : Type} `{Countable U}.

(** The number of (hash code, identifier) memberships of a mapping. *)
Definition memberships (m : gmap Z (gset U)) : nat :=
  map_fold (λ _ ids n, (size ids + n)%nat) 0%nat m.

(** All the identifiers of a mapping. *)
Definition identifiers (m : gmap Z (gset U)) : gset U :=
  map_fold (λ _ ids acc, ids ∪ acc) ∅ m.
End count.
End HashIdxCount.


(** ** Python's [try] statements over runs *)

(** [try: body except: handler(exn)]: the handler runs on any exception of
    the body, in the state the body left. *)
Definition try_except {S E A} (body : Run S E A) (handler : PyExn → Run S E A)
  : Run S E A :=
  λ s, match body s with
       | (t1, s1, inl e) =>
           match handler e s1 with (t2, s2, r) => (t1 ++ t2, s2, r) end
       | (t1, s1, inr a) => (t1, s1, inr a)
       end.

(** [try: body finally: final]: [final] runs whether the body returned or
    raised; an exception of [final] replaces the outcome of the body. *)
Definition try_finally {S E A} (body : Run S E A) (final : Run S E unit)
  : Run S E A :=
  λ s, match body s with
       | (t1, s1, r) =>
           match final s1 with
           | (t2, s2, inl e) => (t1 ++ t2, s2, inl e)
           | (t2, s2, inr _) => (t1 ++ t2, s2, r)
           end
       end.

(** ** representation/classification_element/postgres.py *)

Module PgElement.

(** [str.split()] without arguments: the maximal runs of characters that
    are not whitespace. *)
Definition is_space (a : ascii) : bool :=
  (Ascii.eqb a " " || Ascii.eqb a "009" || Ascii.eqb a "010"
   || Ascii.eqb a "011" || Ascii.eqb a "012" || Ascii.eqb a "013")%char.

Fixpoint split_go (tok : list ascii) (s : list ascii) : list (list ascii) :=
  match s with
  | [] => match tok with [] => [] | _ => [rev tok] end
  | a :: s =>
      if is_space a then
        match tok with
        | [] => split_go [] s
        | _ => rev tok :: split_go [] s
        end
      else split_go (a :: tok) s
  end.

Definition py_split (s : string) : list string :=
  String.string_of_list_ascii <$> split_go [] (String.list_ascii_of_string s).

(** [" ".join(s.split())] *)
Definition strip_duplicate_whitespace (s : string) : string :=
  String.concat " " (py_split s).

(** A text in which whitespace occurs only as one space between two
    words: no tab or newline, no space at either end, no two spaces in a
    row.  [after_space] tells that a word has to start here. *)
Fixpoint single_spaced_from (after_space : bool) (l : list ascii) : bool :=
  match l with
  | [] => negb after_space
  | a :: l =>
      if is_space a then
        negb after_space && Ascii.eqb a " " && single_spaced_from true l
      else single_spaced_from false l
  end.

Definition single_spaced (s : string) : bool :=
  match String.list_ascii_of_string s with
  | [] => true
  | l => single_spaced_from true l
  end.

(** A name that is one word: not empty and without whitespace. *)
Definition one_word (name : string) : bool :=
  negb (String.eqb name "")
  && forallb (λ a, negb (is_space a)) (String.list_ascii_of_string name).

(** A word of a text, and the characters of words joined by single
    spaces. *)
Definition word (t : list ascii) : Prop :=
  t ≠ [] ∧ Forall (λ a, is_space a = false) t.

Definition chars_of (toks : list (list ascii)) : list ascii :=
  String.list_ascii_of_string
    (String.concat " " (String.string_of_list_ascii <$> toks)).

(** A value bound to a placeholder of a query: a text, or a
    [psycopg2.Binary] wrapping bytes. *)
Inductive SqlParam :=
| Text (s : string)
| Binary (bytes : string).

Global Instance SqlParam_eq_dec : EqDecision SqlParam.
Proof. solve_decision. Defined.

(** The calls the element makes on the database module. *)
Inductive DbEvent :=
| Connect (database : string) (user password host : option string)
          (port : option Z)
| Cursor
| Execute (query : string) (values : gmap string SqlParam)
| Fetchone
| Commit
| Rollback
| CursorClose
| ConnectionClose.

Global Instance DbEvent_eq_dec : EqDecision DbEvent.
Proof. solve_decision. Defined.

(** The exception class [NoClassificationError] of the package. *)
Definition NoClassificationError : PyExn :=
  ExternalError "NoClassificationError".

(** The fields set by [__init__]; [type_name] and [uuid] are handed to the
    [__init__] of the base class and read back in this file as
    [self.type_name] and [self.uuid]. *)
Record PostgresClassificationElement := mkElement {
  type_name : string;
  uuid : PyKey;
  table_name : string;
  type_col : string;
  uuid_col : string;
  classification_col : string;
  db_name : string;
  db_host : option string;
  db_port : option Z;
  db_user : option string;
  db_pass : option string;
}.

(** [__init__], with its defaults given by [None]. *)
Definition init (type_name : string) (uuid : PyKey)
    (table_name type_col uuid_col classification_col db_name : option string)
    (db_host : option string) (db_port : option Z)
    (db_user db_pass : option string) : PostgresClassificationElement :=
  {| type_name := type_name; uuid := uuid;
     table_name := default "classifications" table_name;
     type_col := default "type_name" type_col;
     uuid_col := default "uid" uuid_col;
     classification_col := default "classification" classification_col;
     db_name := default "postgres" db_name;
     db_host := db_host; db_port := db_port;
     db_user := db_user; db_pass := db_pass |}.

(** A value of the configuration dictionary. *)
Inductive ConfigValue :=
| CStr (s : string)
| CInt (z : Z)
| CNone.

Definition opt_str (o : option string) : ConfigValue :=
  match o with Some s => CStr s | None => CNone end.

(** [get_config] *)
Definition get_config (e : PostgresClassificationElement)
  : gmap string ConfigValue :=
  {[ "table_name" := CStr (table_name e);
     "type_col" := CStr (type_col e);
     "uuid_col" := CStr (uuid_col e);
     "classification_col" := CStr (classification_col e);
     "db_name" := CStr (db_name e);
     "db_host" := opt_str (db_host e);
     "db_port" := match db_port e with Some p => CInt p | None => CNone end;
     "db_user" := opt_str (db_user e);
     "db_pass" := opt_str (db_pass e) ]}.

(** [SELECT_TMPL], whose whitespace was normalised when the class was
    made, with the names filled in by [format]. *)
Definition select_query (e : PostgresClassificationElement) : string :=
  "SELECT " +:+ classification_col e +:+ " FROM " +:+ table_name e
  +:+ " WHERE " +:+ type_col e +:+ " = %(type_val)s AND " +:+ uuid_col e
  +:+ " = %(uuid_val)s ;".

(** [UPSERT_TMPL.strip().format(...)], then
    [" ".join(upsert_q.split())]. *)
Definition upsert_formatted (e : PostgresClassificationElement) : string :=
  "WITH upsert AS ( UPDATE " +:+ table_name e +:+ " SET "
  +:+ classification_col e +:+ " = %(classification_val)s WHERE "
  +:+ type_col e +:+ " = %(type_val)s AND " +:+ uuid_col e
  +:+ " = %(uuid_val)s RETURNING * ) INSERT INTO " +:+ table_name e +:+ " ("
  +:+ type_col e +:+ ", " +:+ uuid_col e +:+ ", " +:+ classification_col e
  +:+ ") SELECT %(type_val)s, %(uuid_val)s, %(classification_val)s"
  +:+ " WHERE NOT EXISTS (SELECT * FROM upsert);".

Definition upsert_query (e : PostgresClassificationElement) : string :=
  strip_duplicate_whitespace (upsert_formatted e).

Section element.
(** [World] is the state of the database and of its connections;
    [Classification] is a label-to-confidence dictionary and [Kwds] the
    keyword arguments of [set_classification]. *)
Context {World Connection CursorT Classification Kwds : Type}.

(** The module [psycopg2] and the objects it hands out.  A fetched row is
    the tuple of its columns, each read as a byte string. *)
Class Psycopg2 := {
  connect : string → option string → option string → option string →
            option Z → World → World * (PyExn + Connection);
  cursor : Connection → World → World * (PyExn + CursorT);
  execute : CursorT → string → gmap string SqlParam →
            World → World * (PyExn + unit);
  fetchone : CursorT → World → World * (PyExn + option (list string));
  commit : Connection → World → World * (PyExn + unit);
  rollback : Connection → World → World * (PyExn + unit);
  cursor_close : CursorT → World → World * (PyExn + unit);
  connection_close : Connection → World → World * (PyExn + unit);
}.

(** What the element takes from outside the file: [str(self.uuid)],
    [cPickle.dumps] and [cPickle.loads], the truth value of a loaded
    classification, and [ClassificationElement.set_classification], which
    checks its arguments and returns the dictionary to store. *)
Class Surroundings := {
  py_str : PyKey → string;
  pickle_dumps : Classification → PyExn + string;
  pickle_loads : string → PyExn + Classification;
  py_bool : Classification → bool;
  super_set_classification :
    option Classification → Kwds → PyExn + Classification;
}.

Context {driver : Psycopg2} {surroundings : Surroundings}.

Definition Db := Run World DbEvent.

(** The call [psycopg2.connect(database=..., user=..., password=...,
    host=..., port=...)] as an event. *)
Definition opening (e : PostgresClassificationElement) : DbEvent :=
  Connect (db_name e) (db_user e) (db_pass e) (db_host e) (db_port e).

(** [get_psql_connection] *)
Definition get_psql_connection (e : PostgresClassificationElement)
  : Db Connection :=
  emit (opening e) ;;
  call (connect (db_name e) (db_user e) (db_pass e) (db_host e) (db_port e)).

(** [except: conn.rollback(); raise] and
    [finally: cur.close(); conn.close()] *)
Definition rollback_and_raise {A} (conn : Connection) (exn : PyExn) : Db A :=
  emit Rollback ;; call (rollback conn) ;; raise exn.

Definition close_both (cur : CursorT) (conn : Connection) : Db unit :=
  emit CursorClose ;; call (cursor_close cur) ;;
  emit ConnectionClose ;; call (connection_close conn).

(** [try: body except: conn.rollback(); raise
    finally: cur.close(); conn.close()] *)
Definition guarded {A} (body : Db A) (conn : Connection) (cur : CursorT)
  : Db A :=
  try_finally (try_except body (rollback_and_raise conn))
    (close_both cur conn).

(** [not r] for what [fetchone] returns: [None] or an empty tuple. *)
Definition no_row (r : option (list string)) : bool :=
  match r with
  | None | Some [] => true
  | Some (_ :: _) => false
  end.

(** The values handed to [execute] with each query. *)
Definition select_values (e : PostgresClassificationElement)
  : gmap string SqlParam :=
  {[ "type_val" := Text (type_name e);
     "uuid_val" := Text (py_str (uuid e)) ]}.

Definition upsert_values (e : PostgresClassificationElement)
    (pickled : string) : gmap string SqlParam :=
  {[ "classification_val" := Binary pickled;
     "type_val" := Text (type_name e);
     "uuid_val" := Text (py_str (uuid e)) ]}.

(** The body of the [try] of [get_classification] *)
Definition select_row (e : PostgresClassificationElement)
    (conn : Connection) (cur : CursorT) : Db Classification :=
  let q := select_query e in
  emit (Execute q (select_values e)) ;;
  call (execute cur q (select_values e)) ;;
  r ← (emit Fetchone ;; call (fetchone cur));
  emit Commit ;; call (commit conn) ;;
  match r with
  | Some (b :: _) =>
      match pickle_loads b with
      | inr c => mret c
      | inl exn => raise exn
      end
  | _ => raise NoClassificationError
  end.

(** [get_classification] *)
Definition get_classification (e : PostgresClassificationElement)
  : Db Classification :=
  conn ← get_psql_connection e;
  cur ← (emit Cursor ;; call (cursor conn));
  guarded (select_row e conn cur) conn cur.

(** [has_classifications] *)
Definition has_classifications (e : PostgresClassificationElement)
  : Db bool :=
  try_except
    (c ← get_classification e; mret (py_bool c))
    (λ exn, if decide (exn = NoClassificationError) then mret false
            else raise exn).

(** The body of the [try] of [set_classification] *)
Definition upsert_row (e : PostgresClassificationElement)
    (m : Classification) (conn : Connection) (cur : CursorT) : Db unit :=
  let upsert_q := upsert_query e in
  pickled ← call (λ w, (w, pickle_dumps m));
  let q_values := upsert_values e pickled in
  emit (Execute upsert_q q_values) ;;
  call (execute cur upsert_q q_values) ;;
  emit CursorClose ;; call (cursor_close cur) ;;
  emit Commit ;; call (commit conn).


(** [set_classification(m=None, **kwds)] *)
Definition set_classification (e : PostgresClassificationElement)
    (m : option Classification) (kwds : Kwds) : Db unit :=
  m ← call (λ w, (w, super_set_classification m kwds));
  conn ← get_psql_connection e;
  cur ← (emit Cursor ;; call (cursor conn));
  guarded (upsert_row e m conn cur) conn cur.



(** A table in which no query finds a row. *)
Definition finds_no_row : Prop :=
  ∀ cur w w' r, fetchone cur w = (w', inr r) → no_row r = true.
End element.
Global Arguments Psycopg2 : clear implicits.
Global Arguments Surroundings : clear implicits.

(** [is_usable]: whether the import of [psycopg2] succeeded; a warning is
    logged when it did not. *)
Definition is_usable (psycopg2_imported : bool) : list string * bool :=
  if psycopg2_imported then ([], true)
  else (["Not usable. Requires psycopg2 module"], false).
End PgElement.

(** ** Concrete instances used by the examples *)

Module Samples.

(** A controller holding one session (a string stands for the session
    object) under the id [0], put there by writing the map directly. *)
Definition zero_registered : IqrCtl.IqrController string :=
  {| IqrCtl._iqr_sessions := {[ KInt 0 := "first" ]};
     IqrCtl._map_rlock := 0 |}.

(** A generator that reads its input to the end and describes an element
    by the length of its content, so that content-identical elements
    share one entry of the mapping, and
    an index that keeps the descriptors it is given in a list (the
    world). *)
Definition length_generator : Descr.DescriptorGenerator (list nat) nat :=
  {| Descr.reads_on _ _ _ _ := true;
     Descr.compute_descriptor_async batch _ _ w :=
       (w, inr (list_to_map
                  ((λ e, (Descr.get_bytes e, String.length (Descr.get_bytes e)))
                     <$> batch))) |}.

Definition list_index : Descr.DescriptorIndex (list nat) nat :=
  {| Descr.add_many_descriptors descriptors w := (w ++ descriptors, inr tt) |}.

(** Five files; [a.png] and [c.png] have the same content, and so do
    [b.png] and [e.png]. *)
Definition five_files : list Descr.DataFileElement :=
  [ Descr.mkDFE "a.png" "xx"; Descr.mkDFE "b.png" "yyy";
    Descr.mkDFE "c.png" "xx"; Descr.mkDFE "d.png" "z";
    Descr.mkDFE "e.png" "yyy" ].

Definition run_five (batch_size : option Z) :=
  @Descr.compute_many_descriptors (list nat) nat length_generator list_index
    five_files batch_size false None [].

(** Identifiers are strings; a descriptor vector is the list of its bits,
    which the functor returns as they are.  The index holds three
    descriptors: ["u"] and ["w"] hash to 5, ["v"] hashes to 7. *)
Definition table_index : HashIdx.DescriptorIndex string (list bool) :=
  {| HashIdx.get_descriptor_vector u :=
       match ({[ "u" := [true; false; true];
                 "v" := [true; true; true];
                 "w" := [true; false; true] ]} : gmap string (list bool)) !! u
       with
       | Some v => inr v
       | None => inl KeyError
       end |}.

Definition bits_functor : HashIdx.LshFunctor (list bool) :=
  {| HashIdx.get_hash_bits v := inr v |}.

(** A functor that has no hash for a vector without bits, and an index
    that holds such a vector under ["e"]. *)
Definition strict_functor : HashIdx.LshFunctor (list bool) :=
  {| HashIdx.get_hash_bits v :=
       match v with
       | [] => inl (ExternalError "ValueError")
       | _ => inr v
       end |}.

Definition gappy_index : HashIdx.DescriptorIndex string (list bool) :=
  {| HashIdx.get_descriptor_vector u :=
       match ({[ "u" := [true; false; true];
                 "e" := [];
                 "v" := [true; true; true] ]} : gmap string (list bool)) !! u
       with
       | Some v => inr v
       | None => inl KeyError
       end |}.

(** A reporter in the manner of the spec's "periodic progress notifications
    (count processed, elapsed time, rate)": the clock counts seconds and
    every call takes one; slot 1 of the state counts the calls, slot 3 holds
    the time of the last report and slot 4 the time of this call; the count
    is reported when at least [interval] seconds have passed since the last
    report. *)
Definition ticking_reporter : HashIdx.ProgressReporter nat Q :=
  {| HashIdx.bin_utils_report_progress state interval now :=
       let c := (default 0 (state !! 1%nat) + 1)%Q in
       let t := inject_Z (Z.of_nat now) in
       let dt := (t - default 0 (state !! 3%nat))%Q in
       let state := <[5%nat := dt]> (<[4%nat := t]> (<[1%nat := c]> state)) in
       if Qle_bool interval dt
       then (S now, (<[3%nat := t]> (<[0%nat := c]> state), [c]))
       else (S now, (state, [])) |}.

(** A clock that counts seconds and takes one second to read, with the
    reporting function of the spec on it. *)
Definition second_clock : HashIdx.WallClock nat :=
  {| HashIdx.time_time now := (S now, inject_Z (Z.of_nat now)) |}.

Definition run_index_periodic (uuids : list string)
    (hash2uuids : option positive) (report_interval : Q) (use_mp : bool)
    (level : Z) (sched : bool → list nat)
    (s : HashIdx.IxState string _ _ nat) :=
  @HashIdx.compute_hash_codes string _ _ (list bool) nat HashIdx.Notification
    table_index bits_functor (@HashIdx.periodic_reporter nat second_clock)
    uuids hash2uuids report_interval use_mp level sched s.

(** Runs over the index with the vector without bits. *)
Definition run_gappy (uuids : list string) (hash2uuids : option positive)
    (report_interval : Q) (use_mp : bool) (level : Z) (sched : bool → list nat)
    (s : HashIdx.IxState string _ _ nat) :=
  @HashIdx.compute_hash_codes string _ _ (list bool) nat Q
    gappy_index strict_functor ticking_reporter
    uuids hash2uuids report_interval use_mp level sched s.

Definition run_index (uuids : list string) (hash2uuids : option positive)
    (report_interval : Q) (use_mp : bool) (level : Z) (sched : bool → list nat)
    (s : HashIdx.IxState string _ _ nat) :=
  @HashIdx.compute_hash_codes string _ _ (list bool) nat Q
    table_index bits_functor ticking_reporter
    uuids hash2uuids report_interval use_mp level sched s.

Definition empty_store : HashIdx.IxState string _ _ nat :=
  {| HashIdx.dicts := ∅; HashIdx.sets := ∅; HashIdx.clock := 0%nat |}.

(** A store whose dictionary at address 1 was filled by earlier runs, with
    other functors: it has ["w"] under 5 and ["u"] under 7. *)
Definition old_dict : gmap Z positive :=
  {[ 5 := 1%positive; 7 := 2%positive ]}.

Definition old_store : HashIdx.IxState string _ _ nat :=
  {| HashIdx.dicts := {[ 1%positive := old_dict ]};
     HashIdx.sets := {[ 1%positive := {[ "w" ]}; 2%positive := {[ "u" ]} ]};
     HashIdx.clock := 0%nat |}.

(** A store whose dictionary holds one set object under two keys. *)
Definition shared_store : HashIdx.IxState string _ _ nat :=
  {| HashIdx.dicts := {[ 1%positive := {[ 5 := 1%positive; 7 := 1%positive ]} ]};
     HashIdx.sets := {[ 1%positive := {[ "w" ]} ]};
     HashIdx.clock := 0%nat |}.

(** Two schedules: results in submission order, and the first submitted
    completing last. *)
Definition in_order : bool → list nat := λ _, [].
Definition first_last : bool → list nat := λ _, [2; 1]%nat.

(** An in-memory table for the PostgreSQL-backed element: the stored
    bytes by type name and uuid, and the row the last query selected.
    Connections and cursors carry no state of their own; [cursor_works]
    and [commit_works] tell whether a cursor can be obtained and whether
    a commit goes through. *)
Record Table := mkTable {
  rows : gmap (string * string) string;
  selected : option (list string);
}.

Definition key_of (values : gmap string PgElement.SqlParam)
  : option (string * string) :=
  match values !! "type_val", values !! "uuid_val" with
  | Some (PgElement.Text t), Some (PgElement.Text u) => Some (t, u)
  | _, _ => None
  end.

Definition table_execute (values : gmap string PgElement.SqlParam)
    (w : Table) : Table * (PyExn + unit) :=
  match key_of values with
  | None => (w, inl (ExternalError "ProgrammingError"))
  | Some k =>
      match values !! "classification_val" with
      | Some (PgElement.Binary b) =>
          (mkTable (<[k := b]> (rows w)) None, inr tt)
      | _ => (mkTable (rows w) ((λ b, [b]) <$> rows w !! k), inr tt)
      end
  end.

Definition table_driver_with (cursor_works commit_works : bool)
  : PgElement.Psycopg2 Table unit unit :=
  {| PgElement.connect _ _ _ _ _ w := (w, inr tt);
     PgElement.cursor _ w :=
       (w, if cursor_works then inr tt
           else inl (ExternalError "OperationalError"));
     PgElement.execute _ _ values w := table_execute values w;
     PgElement.fetchone _ w := (w, inr (selected w));
     PgElement.commit _ w :=
       (w, if commit_works then inr tt
           else inl (ExternalError "InternalError"));
     PgElement.rollback _ w := (w, inr tt);
     PgElement.cursor_close _ w := (w, inr tt);
     PgElement.connection_close _ w := (w, inr tt) |}.

Definition table_driver (cursor_works : bool)
  : PgElement.Psycopg2 Table unit unit :=
  table_driver_with cursor_works true.

(** Classifications as lists of labels with a confidence in percent, the
    two of them the pickler knows, and a base class that merges the
    keyword arguments into the dictionary and wants the confidences to
    sum to one hundred. *)
Definition sample_dumps (c : list (string * nat)) : string :=
  String.concat ";" (fst <$> c).

Definition cat_or_dog : list (string * nat) := [("cat", 70%nat); ("dog", 30%nat)].
Definition surely_cat : list (string * nat) := [("cat", 100%nat)].

Definition sample_loads (b : string) : PyExn + list (string * nat) :=
  match find (λ c, bool_decide (sample_dumps c = b)) [cat_or_dog; surely_cat] with
  | Some c => inr c
  | None => inl (ExternalError "UnpicklingError")
  end.

Definition sample_super (m : option (list (string * nat)))
    (kwds : list (string * nat)) : PyExn + list (string * nat) :=
  let m := default [] m ++ kwds in
  if bool_decide (sum_list (snd <$> m) = 100%nat) then inr m
  else inl (ExternalError "ValueError").

Definition sample_str (k : PyKey) : string :=
  match k with
  | KStr s => s
  | _ => "None"
  end.

Definition sample_surroundings
  : PgElement.Surroundings (list (string * nat)) (list (string * nat)) :=
  {| PgElement.py_str := sample_str;
     PgElement.pickle_dumps c := inr (sample_dumps c);
     PgElement.pickle_loads := sample_loads;
     PgElement.py_bool c := bool_decide (c ≠ []);
     PgElement.super_set_classification := sample_super |}.

(** An element with the default table and column names, an empty table
    and a table holding a classification for it. *)
Definition svm_x : PgElement.PostgresClassificationElement :=
  PgElement.init "svm" (KStr "x") None None None None None None None None None.

Definition empty_table : Table := mkTable ∅ None.

Definition cat_table : Table :=
  mkTable {[ ("svm", "x") := sample_dumps surely_cat ]} None.

Definition read_svm_x (cursor_works : bool) (w : Table) :=
  @PgElement.get_classification Table unit unit _ (list (string * nat))
    (table_driver cursor_works) sample_surroundings svm_x w.

Definition write_svm_x (cursor_works : bool)
    (m : option (list (string * nat))) (w : Table) :=
  @PgElement.set_classification Table unit unit _ (list (string * nat))
    (table_driver cursor_works) sample_surroundings svm_x m [] w.

(** A database without rows, which counts the calls made on it. *)
Definition rowless_driver : PgElement.Psycopg2 nat unit unit :=
  {| PgElement.connect _ _ _ _ _ n := (S n, inr tt);
     PgElement.cursor _ n := (S n, inr tt);
     PgElement.execute _ _ _ n := (S n, inr tt);
     PgElement.fetchone _ n := (S n, inr None);
     PgElement.commit _ n := (S n, inr tt);
     PgElement.rollback _ n := (S n, inr tt);
     PgElement.cursor_close _ n := (S n, inr tt);
     PgElement.connection_close _ n := (S n, inr tt) |}.

(** The controller [zero_registered] after registering a second session
    under the id ["alice"]. *)
Definition alice_added : IqrCtl.IqrController string :=
  IqrCtl.set_sessions
    (<[KStr "alice" := "second"]> (IqrCtl._iqr_sessions zero_registered))
    zero_registered.

(** A generator that leaves elements without content out of the mapping
    it returns, and three files of which the second has no content. *)
Definition picky_generator : Descr.DescriptorGenerator (list nat) nat :=
  {| Descr.reads_on _ _ _ _ := true;
     Descr.compute_descriptor_async batch _ _ w :=
       (w, inr (list_to_map
                  ((λ e, (Descr.get_bytes e, String.length (Descr.get_bytes e)))
                     <$> filter (λ e, Descr.get_bytes e ≠ "") batch))) |}.

Definition three_files : list Descr.DataFileElement :=
  [ Descr.mkDFE "a.png" "xx"; Descr.mkDFE "bad.png" "";
    Descr.mkDFE "c.png" "z" ].

Definition picky_mapping : gmap string nat := {[ "xx" := 2%nat; "z" := 1%nat ]}.

Definition run_three (batch_size : option Z) :=
  @Descr.compute_many_descriptors (list nat) nat picky_generator list_index
    three_files batch_size false None [].

(** A generator that takes one element from its input and no more, and
    describes what it took. *)
Definition hasty_generator : Descr.DescriptorGenerator (list nat) nat :=
  {| Descr.reads_on read _ _ _ := bool_decide (read = []);
     Descr.compute_descriptor_async batch _ _ w :=
       (w, inr (list_to_map
                  ((λ e, (Descr.get_bytes e, String.length (Descr.get_bytes e)))
                     <$> batch))) |}.

Definition two_files : list Descr.DataFileElement :=
  [ Descr.mkDFE "a.png" "xx"; Descr.mkDFE "b.png" "yyy" ].

Definition run_hasty (batch_size : option Z) :=
  @Descr.compute_many_descriptors (list nat) nat hasty_generator list_index
    two_files batch_size false None [].
End Samples.

(** * Properties *)

(** ** The session controller *)

Module IqrCtlProps.
Import IqrCtl.

Section registry.
Context {IqrSession : Type}.
Implicit Types (c : IqrController IqrSession) (s : IqrSession).
Implicit Types (k session_uuid : PyKey).

Lemma exit_enter c : exit (enter c) = c.
Proof. by destruct c. Qed.

Lemma exit_set_sessions_enter c (m : gmap PyKey IqrSession) :
  exit (set_sessions m (enter c)) = set_sessions m c.
Proof. by destruct c. Qed.

Lemma with_map_rlock_pure {A} c (r : PyExn + A) :
  with_map_rlock (λ c', (c', r)) c = (c, r).
Proof. by rewrite /with_map_rlock exit_enter. Qed.

Lemma add_session_truthy_eq c s k uuid1 :
  truthy k = true →
  add_session c s k uuid1 =
    match _iqr_sessions c !! k with
    | Some _ =>
        (c, inl (RuntimeError
                   ("Cannot use given ID as it already exists in the controller session map: "
                    +:+ str_of_key k)))
    | None => (set_sessions (<[k := s]> (_iqr_sessions c)) c, inr k)
    end.
Proof.
  intros Ht. rewrite /add_session /with_map_rlock Ht /=.
  case_bool_decide as Hreg; simpl in Hreg.
  - destruct Hreg as [s0 ->]. by rewrite exit_enter.
  - apply eq_None_not_Some in Hreg as ->.
    by rewrite exit_set_sessions_enter.
Qed.

Lemma add_session_falsy_eq c s k uuid1 :
  truthy k = false →
  add_session c s k uuid1 =
    match _iqr_sessions c !! KUuid uuid1 with
    | Some _ =>
        (c, inl (AssertionError
                   "Generated a new random UUID that already exists in session map."))
    | None =>
        (set_sessions (<[KUuid uuid1 := s]> (_iqr_sessions c)) c,
         inr (KUuid uuid1))
    end.
Proof.
  intros Ht. rewrite /add_session /with_map_rlock Ht /=.
  case_bool_decide as Hreg; simpl in Hreg.
  - destruct Hreg as [s0 ->]. by rewrite exit_enter.
  - apply eq_None_not_Some in Hreg as ->.
    by rewrite exit_set_sessions_enter.
Qed.


(** C9: [get_session] and [remove_session] raise [KeyError] on an id that
    is not registered and leave the controller as it was; on a registered
    id [get_session] returns the bound session and changes nothing, and
    [remove_session] deletes the binding of that id and keeps every other
    binding. *)
Theorem get_remove_session c session_uuid :
  match _iqr_sessions c !! session_uuid with
  | None =>
      get_session c session_uuid = (c, inl KeyError) ∧
      remove_session c session_uuid = (c, inl KeyError)
  | Some s =>
      get_session c session_uuid = (c, inr s) ∧
      ∃ c', remove_session c session_uuid = (c', inr tt) ∧
            _map_rlock c' = _map_rlock c ∧
            _iqr_sessions c' !! session_uuid = None ∧
            ∀ k, k ≠ session_uuid →
                 _iqr_sessions c' !! k = _iqr_sessions c !! k
  end.
Proof.
  rewrite /get_session /remove_session /with_map_rlock /=.
  destruct (_iqr_sessions c !! session_uuid) as [s|] eqn:Hk.
  - rewrite exit_enter exit_set_sessions_enter. split; [done|].
    eexists; split; [done|]. simpl. split; [done|].
    split; [apply lookup_delete_eq|].
    intros k Hne. by apply lookup_delete_ne.
  - by rewrite exit_enter.
Qed.

End registry.


End IqrCtlProps.

(** ** The monad of runs *)

Section run_facts.
Context {S E : Type}.

Lemma run_bind_unfold {A B} (m : Run S E A) (f : A → Run S E B) s :
  (m ≫= f) s =
    match m s with
    | (t1, s1, inl e) => (t1, s1, inl e)
    | (t1, s1, inr a) =>
        match f a s1 with (t2, s2, r) => (t1 ++ t2, s2, r) end
    end.
Proof. reflexivity. Qed.

Lemma run_bind_ok {A B} (m : Run S E A) (f : A → Run S E B) s t1 s1 a :
  m s = (t1, s1, inr a) →
  (m ≫= f) s = ((t1 ++ (f a s1).1.1), (f a s1).1.2, (f a s1).2).
Proof.
  intros Hm. rewrite run_bind_unfold Hm. by destruct (f a s1) as [[??]?].
Qed.

Lemma run_bind_raise {A B} (m : Run S E A) (f : A → Run S E B) s t1 s1 e :
  m s = (t1, s1, inl e) → (m ≫= f) s = (t1, s1, inl e).
Proof. intros Hm. by rewrite run_bind_unfold Hm. Qed.

Lemma run_bind_assoc {A B C} (m : Run S E A) (f : A → Run S E B)
    (g : B → Run S E C) s :
  ((m ≫= f) ≫= g) s = (m ≫= (λ a, f a ≫= g)) s.
Proof.
  rewrite !run_bind_unfold. destruct (m s) as [[t1 s1] [e|a]]; [done|].
  rewrite run_bind_unfold. destruct (f a s1) as [[t2 s2] [e|b]]; [done|].
  destruct (g b s2) as [[t3 s3] r]. by rewrite app_assoc.
Qed.
End run_facts.

(** ** The batch orchestrator *)

Module DescrProps.
Import Descr.

Section orchestrator.
Context {World DescriptorElement : Type}.
Context `{!DescriptorGenerator World DescriptorElement,
          !DescriptorIndex World DescriptorElement}.
Implicit Types (e dfe : DataFileElement) (w : World).
Implicit Types (m : gmap string DescriptorElement).
Implicit Types (t : list (Event DescriptorElement)).
Implicit Types (xs batch deque : list DataFileElement).

Lemma yielded_app t1 t2 : yielded (t1 ++ t2) = yielded t1 ++ yielded t2.
Proof. apply omap_app. Qed.

Lemma batches_app t1 t2 : batches (t1 ++ t2) = batches t1 ++ batches t2.
Proof. apply omap_app. Qed.

Lemma yield_all_ok batch m w :
  (∀ e, e ∈ batch → is_Some (m !! get_bytes e)) →
  ∃ ys, yield_all batch m w = (ys, w, inr tt) ∧ Forall2 (pair_of m) batch ys.
Proof.
  induction batch as [|e batch IH]; intros Hm; simpl.
  - exists []. by split; [|constructor].
  - destruct (Hm e) as [d Hd]; [by left|]. rewrite Hd.
    destruct IH as (ys & Hys & Hall); [intros; apply Hm; by right|].
    exists (Yielded (_filepath e) d :: ys). split.
    + erewrite run_bind_ok; [|reflexivity]. by rewrite Hys.
    + constructor; [by exists d|done].
Qed.

Lemma pairs_yielded m batch ys :
  Forall2 (pair_of m) batch ys →
  batches ys = [] ∧
  Forall2 (λ e p, p.1 = _filepath e ∧ m !! get_bytes e = Some p.2)
          batch (yielded ys).
Proof.
  induction 1 as [|e ev batch ys (d & Hd & ->) _ [IHb IHy]]; simpl.
  - by split; [|constructor].
  - split; [done|]. by constructor.
Qed.

Lemma batches_of_batch batch m ys t :
  Forall2 (pair_of m) batch ys →
  batches (Submitted batch :: Returned m :: AddMany (itervalues m) :: ys ++ t)
    = batch :: batches t.
Proof.
  intros [Hnil _]%pairs_yielded.
  change (batch :: batches (ys ++ t) = batch :: batches t).
  by rewrite batches_app Hnil.
Qed.

Lemma served_one batch m ys :
  Forall2 (pair_of m) batch ys →
  served batch
    (Submitted batch :: Returned m :: AddMany (itervalues m) :: ys).
Proof.
  intros Hp. pose proof (served_batch batch m ys [] [] Hp served_nil) as Hs.
  by rewrite !app_nil_r in Hs.
Qed.

Lemma served_app xs1 t1 xs2 t2 :
  served xs1 t1 → served xs2 t2 → served (xs1 ++ xs2) (t1 ++ t2).
Proof.
  induction 1 as [|batch m ys rest t Hp Hs IH]; intros H2; [done|].
  specialize (IH H2). simpl. rewrite -!assoc. by constructor.
Qed.

(** *** What the generator takes from its input *)

Lemma taken_cases overwrite procs w read rest :
  taken overwrite procs w read rest = read ++ rest
  ∨ ∃ pre post, rest = pre ++ post ∧ post ≠ [] ∧
      ∀ rest', taken overwrite procs w read (pre ++ rest') = read ++ pre.
Proof.
  revert read. induction rest as [|x rest IH]; intros read.
  - left. rewrite app_nil_r /=. by destruct (reads_on _ _ _ _).
  - simpl. destruct (reads_on read overwrite procs w) eqn:Hon.
    + destruct (IH (read ++ [x])) as [->|(pre & post & -> & Hne & Hstop)].
      * left. by rewrite -app_assoc.
      * right. exists (x :: pre), post. split; [done|]. split; [done|].
        intros rest'. by rewrite /= Hon Hstop -app_assoc.
    + right. exists [], (x :: rest). split; [done|]. split; [done|].
      intros rest'. rewrite app_nil_r /=.
      destruct rest'; by rewrite /= Hon.
Qed.

Lemma taken_prefix overwrite procs w xs :
  ∃ unread, xs = taken overwrite procs w [] xs ++ unread.
Proof.
  destruct (taken_cases overwrite procs w [] xs)
    as [->|(pre & post & -> & _ & Hstop)].
  - exists []. by rewrite app_nil_r.
  - exists post. by rewrite Hstop.
Qed.

(** One batch, by the outcome of the two capabilities. *)
Lemma compute_batch_unfold overwrite procs data captured w :
  compute_batch overwrite procs data captured w =
    match generate data overwrite procs w with
    | (w1, inl exn) => ([Submitted data], w1, inl exn)
    | (w1, inr m) =>
        match add_many_descriptors (itervalues m) w1 with
        | (w2, inl exn) =>
            ([Submitted data; Returned m; AddMany (itervalues m)], w2,
             inl exn)
        | (w2, inr _) =>
            match yield_all (if captured then taken overwrite procs w [] data
                             else data) m w2 with
            | (ys, w3, r) =>
                (Submitted data :: Returned m :: AddMany (itervalues m) :: ys,
                 w3, r)
            end
        end
    end.
Proof.
  rewrite /compute_batch.
  erewrite run_bind_ok; [|reflexivity]. simpl.
  erewrite run_bind_ok; [|reflexivity]. simpl.
  rewrite run_bind_unfold /call.
  destruct (generate data overwrite procs w) as [w1 [exn|m]]; [done|].
  erewrite run_bind_ok; [|reflexivity]. simpl.
  erewrite run_bind_ok; [|reflexivity]. simpl.
  rewrite run_bind_unfold.
  destruct (add_many_descriptors (itervalues m) w1) as [w2 [exn|[]]]; [done|].
  by destruct (yield_all _ m w2) as [[ys w3] r].
Qed.

(** *** Traces of invoked capabilities *)

Lemma invoked_served overwrite procs bs w t w' :
  invoked overwrite procs bs w t w' → served (concat bs) t.
Proof.
  induction 1 as [|batch bs w w1 m w2 ys t w3 _ _ Hp _ IH]; [constructor|].
  simpl. by constructor.
Qed.

Lemma invoked_batches overwrite procs bs w t w' :
  invoked overwrite procs bs w t w' → batches t = bs.
Proof.
  induction 1 as [|batch bs w w1 m w2 ys t w3 _ _ Hp _ IH]; [done|].
  by rewrite (batches_of_batch _ _ _ _ Hp) IH.
Qed.

Lemma invoked_app overwrite procs bs1 bs2 w t1 w1 t2 w2 :
  invoked overwrite procs bs1 w t1 w1 →
  invoked overwrite procs bs2 w1 t2 w2 →
  invoked overwrite procs (bs1 ++ bs2) w (t1 ++ t2) w2.
Proof.
  induction 1 as [|batch bs w w1' m w2' ys t w3 Hg Ha Hp _ IH]; [done|].
  intros H2. specialize (IH H2). simpl. rewrite -!assoc.
  by econstructor.
Qed.

Section contract.
Hypothesis Hgen : generator_covers.
Hypothesis Hidx : index_accepts.

(** A generator that returns an entry for every element of every input
    reads its input to the end: had it stopped earlier, it would return
    the same mapping for an input that goes on with an element the
    mapping does not have. *)
Lemma covers_reads_all overwrite procs w xs :
  taken overwrite procs w [] xs = xs.
Proof.
  destruct (taken_cases overwrite procs w [] xs)
    as [->|(pre & post & -> & Hne & Hstop)]; [done|].
  destruct (Hgen (pre ++ []) overwrite procs w) as (w1 & m & Hm & _).
  set (x := mkDFE "" (fresh (dom m))).
  destruct (Hgen (pre ++ [x]) overwrite procs w) as (w1' & m' & Hm' & Hx).
  rewrite /generate Hstop in Hm. rewrite /generate Hstop Hm in Hm'.
  injection Hm' as _ <-.
  destruct (Hx x) as [d Hd]; [set_solver|].
  pose proof (is_fresh (dom m)) as Hfresh.
  apply not_elem_of_dom in Hfresh. simpl in Hd. congruence.
Qed.

Lemma compute_batch_ok overwrite procs batch captured w :
  ∃ t w',
    compute_batch overwrite procs batch captured w = (t, w', inr tt) ∧
    invoked overwrite procs [batch] w t w'.
Proof.
  destruct (Hgen batch overwrite procs w) as (w1 & m & Hc & Hm).
  destruct (Hidx (itervalues m) w1) as (w2 & Ha).
  destruct (yield_all_ok batch m w2 Hm) as (ys & Hys & Hall).
  eexists _, w2. rewrite compute_batch_unfold Hc Ha covers_reads_all.
  assert ((if captured then batch else batch) = batch) as ->
    by by destruct captured.
  rewrite Hys. split; [done|].
  rewrite -(app_nil_r ys). econstructor; [done..|constructor].
Qed.

Lemma batched_loop_ok overwrite procs b xs deque w :
  ∃ t w' rest bs,
    batched_loop overwrite procs b xs deque w = (t, w', inr rest) ∧
    deque ++ xs = concat bs ++ rest ∧ invoked overwrite procs bs w t w'.
Proof.
  revert deque w. induction xs as [|x xs IH]; intros deque w; simpl.
  - exists [], w, deque, []. split; [done|]. split; [|constructor].
    by rewrite app_nil_r.
  - destruct (Z.of_nat (length (deque ++ [x])) =? b).
    + destruct (compute_batch_ok overwrite procs (deque ++ [x]) false w)
        as (t1 & w1 & Hb & Hinv).
      destruct (IH [] w1) as (t & w2 & rest & bs & Hl & Heq & Hs).
      eexists _, w2, rest, ([deque ++ [x]] ++ bs).
      split; [|split].
      * erewrite run_bind_ok; [|exact Hb]. rewrite Hl. simpl. reflexivity.
      * simpl in Heq. rewrite /= -!assoc Heq. done.
      * by eapply invoked_app.
    + destruct (IH (deque ++ [x]) w) as (t & w2 & rest & bs & Hl & Heq & Hs).
      exists t, w2, rest, bs. split; [done|]. split; [|done].
      by rewrite -Heq -assoc.
Qed.

Lemma compute_many_descriptors_invoked xs batch_size overwrite procs w :
  ∃ t w' bs,
    compute_many_descriptors xs batch_size overwrite procs w =
      (t, w', inr tt) ∧
    concat bs = xs ∧ invoked overwrite procs bs w t w'.
Proof.
  rewrite /compute_many_descriptors.
  destruct (batch_size_set batch_size) as [b|].
  - destruct (batched_loop_ok overwrite procs b xs [] w)
      as (t & w1 & rest & bs & Hl & Heq & Hs).
    simpl in Heq. subst xs.
    destruct rest as [|r rest].
    + exists t, w1, bs. erewrite run_bind_ok; [|exact Hl]. simpl.
      by rewrite !app_nil_r.
    + destruct (compute_batch_ok overwrite procs (r :: rest) false w1)
        as (t2 & w2 & Hb & Hinv).
      eexists _, w2, (bs ++ [r :: rest]).
      erewrite run_bind_ok; [|exact Hl]. simpl.
      rewrite Hb. simpl. split; [reflexivity|].
      split; [by rewrite concat_app /= app_nil_r|]. by eapply invoked_app.
  - destruct (compute_batch_ok overwrite procs xs true w)
      as (t2 & w2 & Hb & Hinv).
    eexists _, w2, [xs]. split; [exact Hb|]. split; [|done].
    by rewrite /= app_nil_r.
Qed.

Lemma compute_many_descriptors_ok xs batch_size overwrite procs w :
  ∃ t w',
    compute_many_descriptors xs batch_size overwrite procs w =
      (t, w', inr tt) ∧ served xs t.
Proof.
  destruct (compute_many_descriptors_invoked xs batch_size overwrite procs w)
    as (t & w' & bs & Hr & <- & Hinv).
  exists t, w'. split; [done|]. by eapply invoked_served.
Qed.

(** The batches of the loop, by size: a buffer shorter than the batch
    size is cut every time it reaches the batch size. *)
Lemma batched_loop_sizes overwrite procs (n : nat) xs deque w :
  (0 < n)%nat → (length deque < n)%nat →
  ∃ t w' rest bs,
    batched_loop overwrite procs (Z.of_nat n) xs deque w
      = (t, w', inr rest) ∧
    invoked overwrite procs bs w t w' ∧
    concat bs ++ rest = deque ++ xs ∧
    length <$> bs = replicate ((length deque + length xs) / n) n ∧
    length rest = ((length deque + length xs) mod n)%nat.
Proof.
  intros Hn. revert deque w.
  induction xs as [|x xs IH]; intros deque w Hd; simpl.
  - exists [], w, deque, []. rewrite Nat.add_0_r.
    rewrite Nat.div_small // Nat.mod_small //=.
    split; [done|]. split; [constructor|]. by rewrite app_nil_r.
  - rewrite length_app /=.
    destruct (Z.eqb_spec (Z.of_nat (length deque + 1)) (Z.of_nat n))
      as [Heq|Hne].
    + apply Nat2Z.inj in Heq.
      destruct (compute_batch_ok overwrite procs (deque ++ [x]) false w)
        as (t1 & w1 & Hb & Hinv).
      destruct (IH [] w1) as (t & w2 & rest & bs & Hl & Hinv2 & Hcat & Hlen & Hrest);
        [simpl; lia|].
      simpl in Hcat, Hlen, Hrest.
      eexists _, w2, rest, ([deque ++ [x]] ++ bs). split; [|split; [|split; [|split]]].
      * erewrite run_bind_ok; [|exact Hb]. rewrite Hl. simpl. reflexivity.
      * by eapply invoked_app.
      * by rewrite /= -!app_assoc Hcat.
      * change (length <$> [deque ++ [x]] ++ bs)
          with (length (deque ++ [x]) :: (length <$> bs)).
        rewrite Hlen length_app /=.
        replace (length deque + S (length xs))%nat
          with (1 * n + length xs)%nat by lia.
        rewrite Nat.div_add_l; [lia|]. by rewrite Heq.
      * rewrite Hrest /=.
        replace (length deque + S (length xs))%nat
          with (length xs + 1 * n)%nat by lia.
        by rewrite Nat.Div0.mod_add.
    + destruct (IH (deque ++ [x]) w)
        as (t & w2 & rest & bs & Hl & Hinv & Hcat & Hlen & Hrest).
      { rewrite length_app /=. lia. }
      exists t, w2, rest, bs. rewrite length_app /= in Hlen Hrest.
      replace (length deque + S (length xs))%nat
        with (length deque + 1 + length xs)%nat by lia.
      split; [done|]. split; [done|]. split; [|done]. by rewrite Hcat -assoc.
Qed.
End contract.

(** What the elements of a served trace look like from outside: one pair
    per element, in order, carrying the path of the element and the
    entry found under the element in a mapping the generator returned. *)
Lemma served_pairs xs t :
  served xs t →
  Forall2 (λ e p, p.1 = _filepath e ∧
                  ∃ m, Returned m ∈ t ∧ m !! get_bytes e = Some p.2)
          xs (yielded t).
Proof.
  induction 1 as [|batch m ys rest t Hp Hs IH]; [constructor|].
  rewrite /= yielded_app. apply Forall2_app.
  - apply pairs_yielded in Hp as [_ Hp].
    eapply Forall2_impl; [exact Hp|]. intros e p [? ?]. split; [done|].
    exists m. split; [|done]. set_solver.
  - eapply Forall2_impl; [exact IH|]. intros e p (? & m' & ? & ?).
    split; [done|]. exists m'. split; [|done]. set_solver.
Qed.

Lemma served_paths xs t :
  served xs t → (yielded t).*1 = _filepath <$> xs.
Proof.
  intros Hs%served_pairs. revert Hs. generalize (yielded t).
  induction 1 as [|e p xs' ps [Hp _] _ IH]; [done|].
  by rewrite !fmap_cons Hp IH.
Qed.

(** C1: whatever the batch size (unset, zero, negative, 1, the input
    length or anything else) and whatever mapping the generator returns
    for a batch, as long as it covers the batch, the run completes and the
    identifiers it yields are the identifiers of the input, in input
    order. *)
Theorem yields_in_input_order xs batch_size overwrite procs w :
  generator_covers → index_accepts →
  let r := compute_many_descriptors xs batch_size overwrite procs w in
  result_of r = inr tt ∧
  (yielded (trace_of r)).*1 = _filepath <$> xs.
Proof.
  intros Hgen Hidx r.
  destruct (compute_many_descriptors_ok Hgen Hidx xs batch_size
              overwrite procs w) as (t & w' & Hr & Hs).
  subst r. rewrite Hr /=. split; [done|]. by apply served_paths.
Qed.

(** C2: an empty input yields nothing; and when the generator covers its
    batches, the run yields one pair per input element, position by
    position: the pair carries the path of the element and the entry
    found under the element in the mapping returned for its batch, so
    that elements sharing one entry each get their own pair. *)
Theorem one_pair_per_item xs batch_size overwrite procs w :
  let r := compute_many_descriptors xs batch_size overwrite procs w in
  (xs = [] → yielded (trace_of r) = []) ∧
  (generator_covers → index_accepts →
   result_of r = inr tt ∧
   served xs (trace_of r) ∧
   length (yielded (trace_of r)) = length xs ∧
   Forall2 (λ e p, p.1 = _filepath e ∧
                   ∃ m, Returned m ∈ trace_of r ∧
                        m !! get_bytes e = Some p.2)
           xs (yielded (trace_of r))).
Proof.
  intros r. split.
  - intros ->. subst r. rewrite /compute_many_descriptors.
    destruct (batch_size_set batch_size) as [b|]; [done|].
    rewrite compute_batch_unfold /trace_of.
    destruct (generate [] overwrite procs w) as [w1 [e|m]]; [done|].
    destruct (add_many_descriptors (itervalues m) w1) as [w2 [e|[]]]; [done|].
    assert (taken overwrite procs w [] [] = []) as ->.
    { simpl. by destruct (reads_on _ _ _ _). }
    done.
  - intros Hgen Hidx.
    destruct (compute_many_descriptors_ok Hgen Hidx xs batch_size
                overwrite procs w) as (t & w' & Hr & Hs).
    subst r. rewrite Hr /=. split; [done|]. split; [done|].
    pose proof (served_pairs _ _ Hs) as Hp. split; [|done].
    symmetry. by eapply Forall2_length.
Qed.

(** C3: with a positive batch size [b] the generator is invoked on
    consecutive groups of the input, [length xs / b] groups of [b]
    elements followed, when the division leaves a remainder, by one group
    holding the remainder, and on nothing else: the run returns, its trace
    is that of the generator and the index invoked on these groups one
    after the other, and the world it leaves is the one these invocations
    lead to.  Five elements with batch size 2 are submitted as batches of
    2, 2 and 1. *)
Theorem batches_of_batch_size xs (b : Z) overwrite procs w :
  generator_covers → index_accepts → 0 < b →
  let r := compute_many_descriptors xs (Some b) overwrite procs w in
  let n := Z.to_nat b in
  ∃ bs,
    result_of r = inr tt ∧
    invoked overwrite procs bs w (trace_of r) (state_of r) ∧
    batches (trace_of r) = bs ∧
    concat bs = xs ∧
    length <$> bs
    = replicate (length xs / n) n
      ++ (if (length xs mod n =? 0)%nat then [] else [(length xs mod n)%nat]) ∧
    (length xs = 5%nat → b = 2 → length <$> bs = [2; 2; 1]%nat).
Proof.
  intros Hgen Hidx Hb r n.
  assert (∃ bs,
    result_of r = inr tt ∧
    invoked overwrite procs bs w (trace_of r) (state_of r) ∧
    concat bs = xs ∧
    length <$> bs
    = replicate (length xs / n) n
      ++ (if (length xs mod n =? 0)%nat then []
          else [(length xs mod n)%nat])) as (bs & Hres & Hinv & Hcat & Hlen).
  { subst r. rewrite /compute_many_descriptors /batch_size_set.
    destruct (Z.eqb_spec b 0) as [->|_]; [lia|].
    destruct (batched_loop_sizes Hgen Hidx overwrite procs n xs [] w)
      as (t & w1 & rest & bs & Hl & Hinv & Hcat & Hlen & Hrest);
      [lia|simpl; lia|].
    rewrite Z2Nat.id in Hl; [lia|]. simpl in Hcat, Hlen, Hrest.
    rewrite /trace_of /state_of /result_of.
    erewrite run_bind_ok; [|exact Hl]. simpl.
    rewrite -Hrest. destruct rest as [|x rest]; simpl.
    - exists bs. rewrite !app_nil_r in Hcat |- *. done.
    - destruct (compute_batch_ok Hgen Hidx overwrite procs (x :: rest) false w1)
        as (t2 & w2 & Hbt & Hinv2).
      exists (bs ++ [x :: rest]). rewrite Hbt /=.
      split; [done|]. split; [by eapply invoked_app|].
      split; [by rewrite concat_app /= app_nil_r|].
      by rewrite fmap_app /= Hlen. }
  exists bs. split; [done|]. split; [done|].
  split; [by eapply invoked_batches|]. split; [done|]. split; [done|].
  intros H5 ->. rewrite Hlen H5. by subst n.
Qed.
End orchestrator.

Lemma reads_to_the_end {World D} (G : DescriptorGenerator World D)
    overwrite procs w read rest :
  (∀ read, reads_on read overwrite procs w = true) →
  taken overwrite procs w read rest = read ++ rest.
Proof.
  intros Hon. revert read. induction rest as [|x rest IH]; intros read.
  - by rewrite /= Hon app_nil_r.
  - by rewrite /= Hon IH -app_assoc.
Qed.

Lemma length_generator_reads overwrite procs w xs :
  @taken _ _ Samples.length_generator overwrite procs w [] xs = xs.
Proof. by apply reads_to_the_end. Qed.

Lemma length_generator_covers :
  @generator_covers (list nat) nat Samples.length_generator.
Proof.
  intros batch overwrite procs w. eexists _, _. split; [reflexivity|].
  rewrite length_generator_reads.
  intros e He. apply elem_of_dom. rewrite dom_list_to_map_L.
  apply elem_of_list_to_set. rewrite -list_fmap_compose.
  apply list_elem_of_fmap. by exists e.
Qed.

Lemma list_index_accepts :
  @index_accepts (list nat) nat Samples.list_index.
Proof. intros descriptors w. by eexists. Qed.

Lemma yields_in_input_order_witness :
  @generator_covers (list nat) nat Samples.length_generator ∧
  @index_accepts (list nat) nat Samples.list_index ∧
  result_of (Samples.run_five (Some 2)) = inr tt ∧
  (yielded (trace_of (Samples.run_five (Some 2)))).*1
    = ["a.png"; "b.png"; "c.png"; "d.png"; "e.png"].
Proof.
  split; [exact length_generator_covers|].
  split; [exact list_index_accepts|].
  exact (yields_in_input_order Samples.five_files (Some 2) false None []
           length_generator_covers list_index_accepts).
Defined.

(** In one unbounded batch the mapping has three entries for the five
    files; each file still gets its pair. *)
Lemma one_pair_per_item_witness :
  @generator_covers (list nat) nat Samples.length_generator ∧
  @index_accepts (list nat) nat Samples.list_index ∧
  result_of (Samples.run_five None) = inr tt ∧
  served Samples.five_files (trace_of (Samples.run_five None)) ∧
  length (yielded (trace_of (Samples.run_five None))) = 5%nat ∧
  Forall2 (λ e p, p.1 = _filepath e ∧
                  ∃ m, Returned m ∈ trace_of (Samples.run_five None) ∧
                       m !! get_bytes e = Some p.2)
          Samples.five_files (yielded (trace_of (Samples.run_five None))).
Proof.
  split; [exact length_generator_covers|].
  split; [exact list_index_accepts|].
  exact (proj2 (one_pair_per_item Samples.five_files None false None [])
           length_generator_covers list_index_accepts).
Defined.

Example run_five_unbounded_yields :
  yielded (trace_of (Samples.run_five None))
    = [("a.png", 2); ("b.png", 3); ("c.png", 2); ("d.png", 1); ("e.png", 3)]%nat
  ∧ size <$> omap (λ ev, match ev with Returned m => Some m | _ => None end)
               (trace_of (Samples.run_five None)) = [3%nat].
Proof. by vm_compute. Qed.

Lemma batches_of_batch_size_witness :
  @generator_covers (list nat) nat Samples.length_generator ∧
  @index_accepts (list nat) nat Samples.list_index ∧
  0 < 2 ∧
  ∃ bs,
    result_of (Samples.run_five (Some 2)) = inr tt ∧
    @invoked _ _ Samples.length_generator Samples.list_index false None bs []
      (trace_of (Samples.run_five (Some 2)))
      (state_of (Samples.run_five (Some 2))) ∧
    batches (trace_of (Samples.run_five (Some 2))) = bs ∧
    concat bs = Samples.five_files ∧
    length <$> bs = [2; 2; 1]%nat.
Proof.
  split; [exact length_generator_covers|].
  split; [exact list_index_accepts|].
  split; [reflexivity|].
  destruct (batches_of_batch_size Samples.five_files 2 false None []
              length_generator_covers list_index_accepts eq_refl)
    as (bs & Hres & Hinv & Hbs & Hcat & _ & H5).
  exists bs. split; [exact Hres|]. split; [exact Hinv|].
  split; [exact Hbs|]. split; [exact Hcat|]. exact (H5 eq_refl eq_refl).
Defined.

(** The run on five files with batch size 2: the batches it submits and
    the world it leaves, the index holding the descriptors of the three
    batches in the order they were added. *)
Example run_five_in_twos :
  batches (trace_of (Samples.run_five (Some 2)))
  = [ [mkDFE "a.png" "xx"; mkDFE "b.png" "yyy"];
      [mkDFE "c.png" "xx"; mkDFE "d.png" "z"];
      [mkDFE "e.png" "yyy"] ]
  ∧ length (state_of (Samples.run_five (Some 2))) = 5%nat.
Proof. by vm_compute. Qed.
End DescrProps.

(** ** The hash indexer *)

Module HashIdxProps.
Import HashIdx.

Section indexer.
Context {U : Type} `{Countable U}.
Context {DescriptorVector Clock Report : Type}.
Context `{!DescriptorIndex U DescriptorVector, !LshFunctor DescriptorVector,
          !ProgressReporter Clock Report}.
Abbreviation State := (IxState U _ _ Clock).
Abbreviation Log := (LogRecord Report).
Implicit Types (s : State) (d : gmap Z positive) (l a : positive).
Implicit Types (u : U) (h k : Z) (r : U * Z) (rs : list (U * Z)).
Implicit Types (st : list Q) (t : list Log) (c : Clock).

(** *** One round of the loop *)

Lemma round_old l s u h a :
  (dicts s !!! l) !! h = Some a →
  round l s (u, h)
  = {| dicts := dicts s;
       sets := <[a := (sets s !!! a) ∪ {[u]}]> (sets s);
       clock := clock s |}.
Proof. intros Hh. by rewrite /round /= Hh. Qed.

Lemma round_new l s u h :
  (dicts s !!! l) !! h = None →
  round l s (u, h)
  = {| dicts := <[l := <[h := fresh (dom (sets s))]> (dicts s !!! l)]> (dicts s);
       sets := <[fresh (dom (sets s)) := {[u]}]> (sets s);
       clock := clock s |}.
Proof. intros Hh. by rewrite /round /= Hh. Qed.

Lemma round_eq l h u s :
  (ensure_key (Report:=Report) l h ;; add_uuid l h u) s
  = ([], round l s (u, h), inr tt).
Proof.
  rewrite run_bind_unfold /ensure_key run_bind_unfold /not_in_dict /=.
  destruct ((dicts s !!! l) !! h) as [a|] eqn:Hh.
  - rewrite bool_decide_eq_false_2 //= /add_uuid Hh /=.
    by rewrite (round_old _ _ _ _ a).
  - rewrite bool_decide_eq_true_2 //= /add_uuid /=.
    rewrite lookup_total_insert_eq lookup_insert_eq /=.
    rewrite round_new // lookup_total_insert_eq insert_insert_eq.
    by rewrite (left_id_L ∅ (∪)).
Qed.

Lemma round_set_clock l c s r :
  round l (set_clock c s) r = set_clock c (round l s r).
Proof. rewrite /round /set_clock /=. by destruct (_ !! r.2). Qed.

Lemma foldl_round_set_clock l c rs s :
  foldl (round l) (set_clock c s) rs = set_clock c (foldl (round l) s rs).
Proof.
  revert s. induction rs as [|r rs IH]; intros s; [done|].
  by rewrite /= round_set_clock IH.
Qed.

(** *** Rounds only add *)

Lemma grown_refl l s : grown l s s.
Proof. split; eauto. Qed.

Lemma grown_trans l s1 s2 s3 : grown l s1 s2 → grown l s2 s3 → grown l s1 s3.
Proof.
  intros [Hk1 Hs1 Hd1 Ho1] [Hk2 Hs2 Hd2 Ho2]. split.
  - eauto.
  - intros a ids Ha. destruct (Hs1 _ _ Ha) as (ids1 & Ha1 & Hsub1).
    destruct (Hs2 _ _ Ha1) as (ids2 & Ha2 & Hsub2).
    exists ids2. split; [done|]. set_solver.
  - eauto.
  - intros l' Hne. by rewrite Ho2 // Ho1.
Qed.

Lemma round_grown l s r : grown l s (round l s r).
Proof.
  destruct r as [u h]. destruct ((dicts s !!! l) !! h) as [a|] eqn:Hh.
  - rewrite (round_old _ _ _ _ a) //. split; simpl; try done.
    intros a' ids Ha'. destruct (decide (a = a')) as [->|Hne].
    + rewrite lookup_insert_eq (lookup_total_correct _ _ _ Ha').
      eexists. split; [done|]. set_solver.
    + rewrite lookup_insert_ne //. by exists ids.
  - rewrite round_new //. split; simpl.
    + intros k a Hk. rewrite lookup_total_insert_eq lookup_insert_ne //.
      intros <-. congruence.
    + intros a ids Ha. rewrite lookup_insert_ne.
      { intros Heq. apply (is_fresh (dom (sets s))). rewrite Heq.
        apply elem_of_dom. by exists ids. }
      by exists ids.
    + intros _. rewrite lookup_insert_eq. by eexists.
    + intros l' Hne. by rewrite lookup_insert_ne.
Qed.

Lemma foldl_round_grown l rs s : grown l s (foldl (round l) s rs).
Proof.
  revert s. induction rs as [|r rs IH]; intros s; [apply grown_refl|].
  eapply grown_trans; [apply round_grown|apply IH].
Qed.

Lemma grown_set_clock l c s s' : grown l s s' → grown l s (set_clock c s').
Proof. by intros [? ? ? ?]. Qed.

(** *** What the rounds lead to *)

Lemma reached_start l s0 d0 :
  dicts s0 !! l = Some d0 → no_dangling s0 d0 → reached l s0 d0 [] s0.
Proof.
  intros Hd Hwf. pose proof (lookup_total_correct _ _ _ Hd) as Hd'.
  split; rewrite ?Hd'.
  - done.
  - intros k Hk. rewrite Hk. split; [by intros [? ?]|].
    by intros ?%elem_of_nil.
  - intros k a Hk Hk'. congruence.
  - intros a ids0 Ha. exists ids0. split; [done|]. intros u.
    split; [by left|]. intros [?|(h & ?%elem_of_nil & _)]; done.
  - done.
  - by eexists.
  - done.
Qed.

Lemma reached_set_clock l s0 d0 rs c s :
  reached l s0 d0 rs s → reached l s0 d0 rs (set_clock c s).
Proof. by intros []. Qed.

Lemma elem_of_snoc_pair rs (u u' : U) (h k : Z) :
  (u', k) ∈ rs ++ [(u, h)] ↔ (u', k) ∈ rs ∨ (u' = u ∧ k = h).
Proof. rewrite elem_of_app list_elem_of_singleton. naive_solver. Qed.

Lemma elem_of_snoc_hash rs (u : U) (h k : Z) :
  k ∈ (rs ++ [(u, h)]).*2 ↔ k ∈ rs.*2 ∨ k = h.
Proof. rewrite fmap_app elem_of_app /= list_elem_of_singleton. done. Qed.

Lemma reached_round l s0 d0 rs s r :
  reached l s0 d0 rs s → reached l s0 d0 (rs ++ [r]) (round l s r).
Proof.
  destruct r as [u h].
  intros [Hold Hnew Hnewsets Holdsets Hwf Hdict Hother].
  assert (∀ a, is_Some (sets s0 !! a) → is_Some (sets s !! a)) as Hdom.
  { intros a [ids0 Ha]. destruct (Holdsets _ _ Ha) as (ids & ? & _). eauto. }
  destruct ((dicts s !!! l) !! h) as [b|] eqn:Hh.
  - (* the key is there: its set object gets the identifier *)
    rewrite (round_old _ _ _ _ b) //.
    destruct (Hwf _ _ Hh) as [idsb Hb].
    pose proof (lookup_total_correct _ _ _ Hb) as Hb'.
    split; simpl.
    + done.
    + intros k Hk. rewrite elem_of_snoc_hash Hnew //.
      split; [by left|]. intros [?| ->]; [done|].
      apply Hnew; [done|]. by exists b.
    + intros k a Hk Hka.
      destruct (Hnewsets _ _ Hk Hka) as (Hfresh & Huniq & ids & Ha & Hids).
      split; [done|]. split; [done|].
      destruct (decide (b = a)) as [->|Hne].
      * assert (h = k) as -> by (by apply Huniq).
        rewrite lookup_insert_eq. eexists. split; [done|]. intros u'.
        rewrite elem_of_snoc_pair elem_of_union elem_of_singleton Hb'.
        assert (idsb = ids) as -> by congruence. rewrite Hids. naive_solver.
      * rewrite lookup_insert_ne //. exists ids. split; [done|]. intros u'.
        rewrite elem_of_snoc_pair Hids. split; [by left|].
        intros [?|[_ ->]]; [done|]. congruence.
    + intros a ids0 Ha.
      destruct (Holdsets _ _ Ha) as (ids & Ha' & Hids).
      destruct (decide (b = a)) as [->|Hne].
      * assert (d0 !! h = Some a) as Hd0.
        { destruct (d0 !! h) as [a'|] eqn:Hd0.
          - apply Hold in Hd0. congruence.
          - destruct (Hnewsets _ _ Hd0 Hh) as [Hfresh _]. congruence. }
        rewrite lookup_insert_eq. eexists. split; [done|]. intros u'.
        rewrite elem_of_union elem_of_singleton Hb'.
        assert (idsb = ids) as -> by congruence. rewrite Hids.
        setoid_rewrite elem_of_snoc_pair. naive_solver.
      * rewrite lookup_insert_ne //. exists ids. split; [done|]. intros u'.
        rewrite Hids. setoid_rewrite elem_of_snoc_pair.
        split; [naive_solver|].
        intros [?|(h' & [?|[-> ->]] & Hd0)]; [naive_solver..|].
        apply Hold in Hd0. congruence.
    + intros k a Hka. destruct (decide (b = a)) as [->|Hne].
      * rewrite lookup_insert_eq. by eexists.
      * rewrite lookup_insert_ne //. by eapply Hwf.
    + done.
    + done.
  - (* the key is new: a new set object holds the identifier *)
    rewrite round_new //.
    set (a' := fresh (dom (sets s))).
    assert (sets s !! a' = None) as Ha'.
    { apply not_elem_of_dom, is_fresh. }
    assert (d0 !! h = None) as Hd0.
    { destruct (d0 !! h) as [a|] eqn:Hd0; [|done].
      apply Hold in Hd0. congruence. }
    assert (h ∉ rs.*2) as Hhrs.
    { intros Hin. apply Hnew in Hin; [|done]. destruct Hin as [? ?].
      congruence. }
    split; simpl; rewrite ?lookup_total_insert_eq.
    + intros k a Hk. rewrite lookup_insert_ne; [congruence|]. by apply Hold.
    + intros k Hk. rewrite elem_of_snoc_hash -Hnew //.
      destruct (decide (h = k)) as [->|Hne].
      * rewrite lookup_insert_eq. naive_solver.
      * rewrite lookup_insert_ne //. naive_solver.
    + intros k a Hk. destruct (decide (h = k)) as [->|Hne].
      * rewrite lookup_insert_eq. intros [= <-]. split; [|split].
        -- destruct (sets s0 !! a') eqn:Hs0; [|done].
           destruct (Hdom a') as [? ?]; [by eexists|congruence].
        -- intros k'. destruct (decide (k = k')) as [->|Hne]; [done|].
           rewrite lookup_insert_ne //. intros Hk'.
           destruct (Hwf _ _ Hk') as [? ?]. congruence.
        -- rewrite lookup_insert_eq. eexists. split; [done|]. intros u'.
           rewrite elem_of_singleton elem_of_snoc_pair. split; [by right|].
           intros [Hin|[? _]]; [|done]. destruct Hhrs.
           apply list_elem_of_fmap. by exists (u', k).
      * rewrite lookup_insert_ne //. intros Hka.
        destruct (Hnewsets _ _ Hk Hka) as (Hfresh & Huniq & ids & Ha & Hids).
        assert (a ≠ a') as Hneq by congruence.
        split; [done|]. split.
        -- intros k'. destruct (decide (h = k')) as [->|Hne'].
           ++ rewrite lookup_insert_eq. congruence.
           ++ rewrite lookup_insert_ne //. apply Huniq.
        -- rewrite lookup_insert_ne //. exists ids. split; [done|].
           intros u'. rewrite elem_of_snoc_pair Hids. naive_solver.
    + intros a ids0 Ha.
      destruct (Holdsets _ _ Ha) as (ids & Ha1 & Hids).
      rewrite lookup_insert_ne; [congruence|].
      exists ids. split; [done|]. intros u'. rewrite Hids.
      setoid_rewrite elem_of_snoc_pair. split; [naive_solver|].
      intros [?|(h' & [?|[-> ->]] & Hd0')]; [naive_solver..|]. congruence.
    + intros k a. destruct (decide (h = k)) as [->|Hne].
      * rewrite lookup_insert_eq. intros [= <-]. rewrite lookup_insert_eq.
        by eexists.
      * rewrite lookup_insert_ne //. intros Hka.
        destruct (Hwf _ _ Hka) as [ids Ha].
        rewrite lookup_insert_ne; [congruence|]. by eexists.
    + rewrite lookup_insert_eq. by eexists.
    + intros l' Hne. rewrite lookup_insert_ne //. by apply Hother.
Qed.

Lemma reached_foldl l s0 d0 rs :
  dicts s0 !! l = Some d0 → no_dangling s0 d0 →
  reached l s0 d0 rs (foldl (round l) s0 rs).
Proof.
  intros Hd Hwf. induction rs as [|r rs IH] using rev_ind.
  - by apply reached_start.
  - rewrite foldl_app /=. by apply reached_round.
Qed.

(** *** Progress reporting *)

Lemma round_clock l s r : clock (round l s r) = clock s.
Proof. rewrite /round. by destruct (_ !! r.2). Qed.

Lemma foldl_round_clock l s rs : clock (foldl (round l) s rs) = clock s.
Proof.
  revert s. induction rs as [|r rs IH]; intros s; [done|].
  by rewrite /= IH round_clock.
Qed.

Lemma log_debug_all_eq level (reports : list Report) s :
  log_debug_all level reports s
    = (if level <=? DEBUG then Progress <$> reports else [], s, inr tt).
Proof.
  induction reports as [|r reports IH]; simpl.
  - by destruct (level <=? DEBUG).
  - rewrite run_bind_unfold /log_debug.
    destruct (level <=? DEBUG); simpl; by rewrite IH.
Qed.

Lemma report_progress_off level ri st i s :
  reporting_disabled level ri = true →
  report_progress level ri st i s = ([], s, inr st).
Proof. intros Hoff. by rewrite /report_progress Hoff. Qed.

Lemma report_progress_on level ri st i s :
  reporting_disabled level ri = false →
  report_progress level ri st i s
    = (Progress <$> (bin_utils_report_progress st i (clock s)).2.2,
       set_clock (bin_utils_report_progress st i (clock s)).1 s,
       inr (bin_utils_report_progress st i (clock s)).2.1).
Proof.
  intros Hon. rewrite /report_progress Hon /debug_report_progress.
  rewrite run_bind_unfold /call.
  destruct (bin_utils_report_progress st i (clock s)) as [c [st' reports]].
  rewrite /= run_bind_unfold log_debug_all_eq /=.
  apply orb_false_iff in Hon as [Hlevel _].
  apply Z.ltb_ge, Z.leb_le in Hlevel. rewrite Hlevel.
  by rewrite !app_nil_r.
Qed.

Lemma set_clock_id s : set_clock (clock s) s = s.
Proof. by destruct s. Qed.

Lemma set_clock_set_clock c c' s : set_clock c (set_clock c' s) = set_clock c s.
Proof. done. Qed.

Lemma report_progress_returns level ri st i s :
  ∃ t c st',
    report_progress level ri st i s = (t, set_clock c s, inr st') ∧
    Forall (λ rec, is_progress rec = true) t ∧
    (reporting_disabled level ri = true → t = []).
Proof.
  destruct (reporting_disabled level ri) eqn:Hd.
  - exists [], (clock s), st. by rewrite report_progress_off // set_clock_id.
  - eexists _, _, _. rewrite report_progress_on //. split; [done|].
    split; [|done]. apply Forall_fmap, Forall_true. done.
Qed.

(** *** The accumulation loop *)

Lemma consumed_inr {A} (xs : list A) : consumed (inr <$> xs) = xs.
Proof. induction xs as [|x xs IH]; [done|]. by rewrite /= IH. Qed.

Lemma accumulate_run level ri l (results : list (PyExn + U * Z)) st s :
  ∃ t c res,
    accumulate level ri l results st s
      = (t, set_clock c (foldl (round l) s (consumed results)), res) ∧
    Forall (λ rec, is_progress rec = true) t ∧
    (reporting_disabled level ri = true → t = []) ∧
    ((∃ st', res = inr st') ↔ results = inr <$> consumed results).
Proof.
  revert st s. induction results as [|[e|[u h]] results IH]; intros st s.
  - exists [], (clock s), (inr st). rewrite set_clock_id. repeat split; eauto.
  - exists [], (clock s), (inl e). rewrite set_clock_id.
    repeat split; eauto; [by intros [? ?]|done].
  - cbn [accumulate consumed foldl].
    destruct (report_progress_returns level ri st ri (round l s (u, h)))
      as (t1 & c1 & st1 & Hrep & Hprog & Hoff).
    destruct (IH st1 (set_clock c1 (round l s (u, h))))
      as (t2 & c2 & res & Hacc & Hprog2 & Hoff2 & Hres).
    exists (t1 ++ t2), c2, res. split; [|split; [|split]].
    + rewrite -run_bind_assoc.
      rewrite (run_bind_ok _ _ _ _ _ _ (round_eq l h u s)) /=.
      rewrite run_bind_unfold Hrep Hacc.
      by rewrite foldl_round_set_clock set_clock_set_clock.
    + by apply Forall_app.
    + intros Hd. by rewrite (Hoff Hd) (Hoff2 Hd).
    + rewrite Hres fmap_cons. split; [by intros <-|by intros [= ?]].
Qed.

(** *** The whole run *)

Lemma compute_hash_codes_unfold uuids hash2uuids ri use_mp level sched s :
  compute_hash_codes uuids hash2uuids ri use_mp level sched s =
    match accumulate level ri (dict_address hash2uuids s)
            (parallel_map sched get_hash uuids use_mp) (replicate 7 0%Q)
            (initial_state hash2uuids s) with
    | (t, s1, inl e) => (start_log level ri ++ t, s1, inl e)
    | (t, s1, inr st) =>
        match report_progress level ri (alter (λ n, n - 1)%Q 1%nat st) 0%Q s1
        with
        | (t2, s2, _) =>
            (start_log level ri ++ t ++ t2, s2,
             inr (dict_address hash2uuids s))
        end
    end.
Proof.
  rewrite /compute_hash_codes run_bind_unfold.
  assert ((match hash2uuids with
           | Some l => mret l
           | None => new_dict
           end : IxRun positive) s
          = ([], initial_state hash2uuids s,
             inr (dict_address hash2uuids s))) as ->.
  { by destruct hash2uuids. }
  set (l := dict_address hash2uuids s).
  set (s0 := initial_state hash2uuids s).
  assert (∀ rec : Log, log_debug level rec s0
                 = (if level <=? DEBUG then [rec] else [], s0, inr tt)) as Hlog.
  { intros rec. rewrite /log_debug. by destruct (level <=? DEBUG). }
  rewrite run_bind_unfold.
  assert ((if reporting_disabled level ri
           then log_debug level NotLoggingProgress
           else log_debug level (LoggingProgressAt ri)) s0
          = (if level <=? DEBUG
             then [if reporting_disabled level ri then NotLoggingProgress
                   else LoggingProgressAt ri]
             else [], s0, inr tt)) as ->.
  { destruct (reporting_disabled level ri); apply Hlog. }
  rewrite run_bind_unfold Hlog run_bind_unfold.
  destruct (accumulate _ _ _ _ _ _) as [[t s1] [e|st]].
  { rewrite /start_log. by destruct (level <=? DEBUG). }
  rewrite run_bind_unfold.
  destruct (report_progress_returns level ri
              (alter (λ n, n - 1)%Q 1%nat st) 0%Q s1)
    as (t2 & c2 & st2 & -> & _).
  rewrite /= app_nil_r /start_log. by destruct (level <=? DEBUG).
Qed.

(** *** Completion order and results *)

Lemma completion_order_perm {A} (sched : list nat) (xs : list A) :
  completion_order sched xs ≡ₚ xs.
Proof.
  revert sched. induction xs as [|x xs IH]; intros sched; [done|].
  cbn [completion_order]. rewrite -Permutation_middle take_drop.
  by constructor.
Qed.

Lemma get_hash_found u h : hash_code u = Some h → get_hash u = inr (u, h).
Proof.
  rewrite /hash_code /get_hash.
  destruct (get_descriptor_vector u) as [e|v]; [done|].
  destruct (get_hash_bits v); naive_solver.
Qed.

Lemma results_found uuids :
  Forall (λ u, is_Some (hash_code u)) uuids →
  get_hash <$> uuids = inr <$> pairs_of uuids.
Proof.
  induction 1 as [|u uuids [h Hh] _ IH]; [done|].
  rewrite fmap_cons IH (get_hash_found _ _ Hh).
  by rewrite /pairs_of /= Hh.
Qed.

Lemma elem_of_pairs_of uuids u h :
  (u, h) ∈ pairs_of uuids ↔ u ∈ uuids ∧ hash_code u = Some h.
Proof.
  rewrite /pairs_of list_elem_of_omap. split.
  - intros (u' & Hu' & Heq). destruct (hash_code u') eqn:?; naive_solver.
  - intros [Hu Hh]. exists u. by rewrite Hh.
Qed.

Lemma parallel_map_found uuids sched use_mp :
  Forall (λ u, is_Some (hash_code u)) uuids →
  parallel_map sched get_hash uuids use_mp
  = inr <$> pairs_of (completion_order (sched use_mp) uuids) ∧
  pairs_of (completion_order (sched use_mp) uuids) ≡ₚ pairs_of uuids.
Proof.
  intros Hfound. split.
  - rewrite /parallel_map. apply results_found.
    by rewrite completion_order_perm.
  - by rewrite /pairs_of completion_order_perm.
Qed.

Lemma initial_state_dict hash2uuids s d0 :
  starts_from hash2uuids s d0 →
  dicts (initial_state hash2uuids s) !! dict_address hash2uuids s = Some d0.
Proof.
  destruct hash2uuids as [l|]; simpl; [done|]. intros ->.
  apply lookup_insert_eq.
Qed.

Lemma initial_state_other hash2uuids s l :
  l ≠ dict_address hash2uuids s →
  dicts (initial_state hash2uuids s) !! l = dicts s !! l.
Proof.
  destruct hash2uuids as [l0|]; simpl; [done|]. intros Hne.
  by apply lookup_insert_ne.
Qed.

Lemma initial_state_sets hash2uuids s :
  sets (initial_state hash2uuids s) = sets s.
Proof. by destruct hash2uuids. Qed.

(** The state a run leaves: the rounds of the consumed results applied to
    the initial state, the clock apart; the run returns the address of its
    dictionary exactly when no result is an exception. *)
Lemma compute_hash_codes_run uuids hash2uuids ri use_mp level sched s :
  let r := compute_hash_codes uuids hash2uuids ri use_mp level sched s in
  let l := dict_address hash2uuids s in
  let results := parallel_map sched get_hash uuids use_mp in
  (∃ c, state_of r
        = set_clock c (foldl (round l) (initial_state hash2uuids s)
                         (consumed results))) ∧
  (∀ l', result_of r = inr l' → l' = l) ∧
  (result_of r = inr l ↔ results = inr <$> consumed results).
Proof.
  intros r l results. subst r. rewrite compute_hash_codes_unfold.
  fold l. fold results.
  destruct (accumulate_run level ri l results (replicate 7 0%Q)
              (initial_state hash2uuids s))
    as (t & c & res & -> & _ & _ & Hres).
  destruct res as [e|st].
  - rewrite /state_of /result_of /=. split; [by exists c|]. split; [done|].
    rewrite -Hres. split; [done|]. by intros [? ?].
  - destruct (report_progress_returns level ri
                (alter (λ n, n - 1)%Q 1%nat st) 0%Q
                (set_clock c (foldl (round l) (initial_state hash2uuids s)
                                (consumed results))))
      as (t2 & c2 & st2 & -> & _).
    rewrite /state_of /result_of /=. split; [by exists c2|].
    split; [by intros ? [= <-]|]. rewrite -Hres. split; [eauto|done].
Qed.

(** A completed run from a dictionary without dangling references. *)
Lemma compute_hash_codes_found uuids hash2uuids ri use_mp level sched s d0 :
  Forall (λ u, is_Some (hash_code u)) uuids →
  starts_from hash2uuids s d0 → no_dangling s d0 →
  let r := compute_hash_codes uuids hash2uuids ri use_mp level sched s in
  let l := dict_address hash2uuids s in
  result_of r = inr l ∧
  ∃ rs, rs ≡ₚ pairs_of uuids ∧
        reached l (initial_state hash2uuids s) d0 rs (state_of r).
Proof.
  intros Hfound Hstart Hwf r l.
  destruct (compute_hash_codes_run uuids hash2uuids ri use_mp level sched s)
    as ([c Hstate] & _ & Hres).
  fold r l in Hstate, Hres.
  destruct (parallel_map_found uuids sched use_mp Hfound) as [Hpm Hperm].
  rewrite Hpm consumed_inr in Hstate, Hres. split; [by apply Hres|].
  eexists. split; [exact Hperm|]. rewrite Hstate.
  apply reached_set_clock, reached_foldl.
  - by apply initial_state_dict.
  - intros k a Hk. rewrite initial_state_sets. by eapply Hwf.
Qed.

(** *** What the dictionary reads as *)

Lemma contents_lookup s l k :
  contents s l !! k = (λ a, sets s !!! a) <$> (dicts s !!! l) !! k.
Proof. apply lookup_fmap. Qed.

Lemma contents_lookup_Some s l k a ids :
  (dicts s !!! l) !! k = Some a → sets s !! a = Some ids →
  contents s l !! k = Some ids.
Proof.
  intros Hk Ha. by rewrite contents_lookup Hk /= (lookup_total_correct _ _ _ Ha).
Qed.

Lemma reached_member l s0 d0 rs s u h :
  reached l s0 d0 rs s → no_dangling s0 d0 → (u, h) ∈ rs →
  ∃ ids, contents s l !! h = Some ids ∧ u ∈ ids.
Proof.
  intros Hr Hwf Hin. destruct (d0 !! h) as [a|] eqn:Hd0.
  - destruct (Hwf _ _ Hd0) as [ids0 Ha].
    destruct (reached_old_sets _ _ _ _ _ Hr _ _ Ha) as (ids & Ha' & Hids).
    exists ids. split.
    + eapply contents_lookup_Some; [|done].
      by apply (reached_old_keys _ _ _ _ _ Hr).
    + apply Hids. right. by exists h.
  - assert (is_Some ((dicts s !!! l) !! h)) as [a Hk].
    { apply (reached_new_keys _ _ _ _ _ Hr); [done|].
      apply list_elem_of_fmap. by exists (u, h). }
    destruct (reached_new_sets _ _ _ _ _ Hr _ _ Hd0 Hk)
      as (_ & _ & ids & Ha & Hids).
    exists ids. split; [by eapply contents_lookup_Some|]. by apply Hids.
Qed.

Lemma reached_new_contents l s0 d0 rs s k u :
  reached l s0 d0 rs s → d0 !! k = None →
  (∃ ids, contents s l !! k = Some ids ∧ u ∈ ids) ↔ (u, k) ∈ rs.
Proof.
  intros Hr Hd0. split.
  - intros (ids & Hc & Hu). rewrite contents_lookup in Hc.
    destruct ((dicts s !!! l) !! k) as [a|] eqn:Hk; [|done].
    destruct (reached_new_sets _ _ _ _ _ Hr _ _ Hd0 Hk)
      as (_ & _ & ids' & Ha & Hids).
    simpl in Hc. rewrite (lookup_total_correct _ _ _ Ha) in Hc.
    apply Hids. congruence.
  - intros Hin.
    assert (is_Some ((dicts s !!! l) !! k)) as [a Hk].
    { apply (reached_new_keys _ _ _ _ _ Hr); [done|].
      apply list_elem_of_fmap. by exists (u, k). }
    destruct (reached_new_sets _ _ _ _ _ Hr _ _ Hd0 Hk)
      as (_ & _ & ids & Ha & Hids).
    exists ids. split; [by eapply contents_lookup_Some|]. by apply Hids.
Qed.

Lemma reached_contents_perm l s0 d0 rs1 rs2 s1 s2 :
  reached l s0 d0 rs1 s1 → reached l s0 d0 rs2 s2 →
  no_dangling s0 d0 → rs1 ≡ₚ rs2 →
  contents s1 l = contents s2 l.
Proof.
  intros Hr1 Hr2 Hwf Hperm. apply map_eq. intros k.
  destruct (d0 !! k) as [a|] eqn:Hd0.
  - destruct (Hwf _ _ Hd0) as [ids0 Ha].
    destruct (reached_old_sets _ _ _ _ _ Hr1 _ _ Ha) as (ids1 & Ha1 & Hids1).
    destruct (reached_old_sets _ _ _ _ _ Hr2 _ _ Ha) as (ids2 & Ha2 & Hids2).
    rewrite (contents_lookup_Some s1 l k a ids1) //;
      [by apply (reached_old_keys _ _ _ _ _ Hr1)|].
    rewrite (contents_lookup_Some s2 l k a ids2) //;
      [by apply (reached_old_keys _ _ _ _ _ Hr2)|].
    f_equal. apply set_eq. intros u. rewrite Hids1 Hids2.
    by setoid_rewrite Hperm.
  - destruct (contents s1 l !! k) as [ids1|] eqn:Hc1;
      destruct (contents s2 l !! k) as [ids2|] eqn:Hc2; [| | |done].
    + f_equal. apply set_eq. intros u.
      pose proof (reached_new_contents _ _ _ _ _ k u Hr1 Hd0) as H1.
      pose proof (reached_new_contents _ _ _ _ _ k u Hr2 Hd0) as H2.
      rewrite Hc1 in H1. rewrite Hc2 in H2. rewrite Hperm in H1.
      split; intros Hu.
      * destruct (proj2 H2 (proj1 H1 (ex_intro _ ids1 (conj eq_refl Hu))))
          as (? & [= <-] & ?). done.
      * destruct (proj2 H1 (proj1 H2 (ex_intro _ ids2 (conj eq_refl Hu))))
          as (? & [= <-] & ?). done.
    + exfalso. rewrite !contents_lookup in Hc1 Hc2.
      destruct ((dicts s1 !!! l) !! k) as [a|] eqn:Hk1; [|done].
      assert (is_Some ((dicts s2 !!! l) !! k)) as [a2 Hk2].
      { apply (reached_new_keys _ _ _ _ _ Hr2); [done|]. rewrite -Hperm.
        apply (reached_new_keys _ _ _ _ _ Hr1); [done|]. by eexists. }
      by rewrite Hk2 in Hc2.
    + exfalso. rewrite !contents_lookup in Hc1 Hc2.
      destruct ((dicts s2 !!! l) !! k) as [a|] eqn:Hk2; [|done].
      assert (is_Some ((dicts s1 !!! l) !! k)) as [a1 Hk1].
      { apply (reached_new_keys _ _ _ _ _ Hr1); [done|]. rewrite Hperm.
        apply (reached_new_keys _ _ _ _ _ Hr2); [done|]. by eexists. }
      by rewrite Hk1 in Hc1.
Qed.

(** *** The claims *)

(** C4 (amended): after a completed run every processed identifier is in
    the set stored under its hash code.  A key that the dictionary did
    not have at the start holds a set object made by this run, with
    exactly the processed identifiers of that hash code; a key it had
    keeps the caller's set object.  So among the keys introduced by the
    run an identifier is found under its own hash code only, and it is
    found under exactly one of them whenever its hash code is one of them,
    as it always is when the run starts from a new dictionary. *)
Theorem hash_index_membership uuids hash2uuids ri use_mp level sched s d0 :
  Forall (λ u, is_Some (hash_code u)) uuids →
  starts_from hash2uuids s d0 → no_dangling s d0 →
  let r := compute_hash_codes uuids hash2uuids ri use_mp level sched s in
  let l := dict_address hash2uuids s in
  result_of r = inr l ∧
  (∀ u h, u ∈ uuids → hash_code u = Some h →
          ∃ ids, contents (state_of r) l !! h = Some ids ∧ u ∈ ids) ∧
  (∀ k, d0 !! k = None →
        ∀ u, (∃ ids, contents (state_of r) l !! k = Some ids ∧ u ∈ ids)
             ↔ u ∈ uuids ∧ hash_code u = Some k) ∧
  (∀ k a, d0 !! k = None → (dicts (state_of r) !!! l) !! k = Some a →
          sets s !! a = None) ∧
  (∀ k a, d0 !! k = Some a → (dicts (state_of r) !!! l) !! k = Some a) ∧
  (∀ u h, u ∈ uuids → hash_code u = Some h → d0 !! h = None →
          ∃ ids, contents (state_of r) l !! h = Some ids ∧ u ∈ ids ∧
                 ∀ k ids', d0 !! k = None →
                           contents (state_of r) l !! k = Some ids' →
                           u ∈ ids' → k = h).
Proof.
  intros Hfound Hstart Hwf r l.
  destruct (compute_hash_codes_found uuids hash2uuids ri use_mp level sched
              s d0 Hfound Hstart Hwf) as (Hres & rs & Hperm & Hr).
  fold r l in Hres, Hr.
  assert (no_dangling (initial_state hash2uuids s) d0) as Hwf0.
  { intros k a Hk. rewrite initial_state_sets. by eapply Hwf. }
  assert (∀ u h, (u, h) ∈ rs ↔ u ∈ uuids ∧ hash_code u = Some h) as Hrs.
  { intros u h. by rewrite Hperm elem_of_pairs_of. }
  assert (∀ u h, u ∈ uuids → hash_code u = Some h →
            ∃ ids, contents (state_of r) l !! h = Some ids ∧ u ∈ ids) as Hmem.
  { intros u h Hu Hh. apply (reached_member _ _ _ _ _ _ _ Hr Hwf0).
    by apply Hrs. }
  assert (∀ k u, d0 !! k = None →
            (∃ ids, contents (state_of r) l !! k = Some ids ∧ u ∈ ids)
            ↔ u ∈ uuids ∧ hash_code u = Some k) as Hnew.
  { intros k u Hk. by rewrite (reached_new_contents _ _ _ _ _ _ _ Hr Hk) Hrs. }
  split; [done|]. split; [done|].
  split; [by intros k Hk u; apply Hnew|]. split; [|split].
  - intros k a Hk Hka.
    destruct (reached_new_sets _ _ _ _ _ Hr _ _ Hk Hka) as [Hfresh _].
    by rewrite initial_state_sets in Hfresh.
  - apply (reached_old_keys _ _ _ _ _ Hr).
  - intros u h Hu Hh Hd0. destruct (Hmem u h Hu Hh) as (ids & Hids & Hin).
    exists ids. split; [done|]. split; [done|].
    intros k ids' Hk Hk' Hin'.
    assert (u ∈ uuids ∧ hash_code u = Some k) as [_ Hhk].
    { apply (Hnew k u Hk). by exists ids'. }
    congruence.
Qed.

(** C5: what the dictionary reads as after the loop does not depend on
    the order in which the results reach the loop, and what the dictionary
    of a completed run reads as does not depend on the scheduling of the
    workers, whether they are threads or processes. *)
Theorem index_order_independent :
  (∀ level ri l d0 (rs1 rs2 : list (U * Z)) st1 st2 s,
     dicts s !! l = Some d0 → no_dangling s d0 → rs1 ≡ₚ rs2 →
     contents (state_of (accumulate level ri l (inr <$> rs1) st1 s)) l
     = contents (state_of (accumulate level ri l (inr <$> rs2) st2 s)) l) ∧
  (∀ uuids hash2uuids d0 ri level use_mp1 use_mp2 sched1 sched2 s,
     Forall (λ u, is_Some (hash_code u)) uuids →
     starts_from hash2uuids s d0 → no_dangling s d0 →
     let r1 := compute_hash_codes uuids hash2uuids ri use_mp1 level sched1 s in
     let r2 := compute_hash_codes uuids hash2uuids ri use_mp2 level sched2 s in
     let l := dict_address hash2uuids s in
     result_of r1 = inr l ∧ result_of r2 = inr l ∧
     contents (state_of r1) l = contents (state_of r2) l).
Proof.
  split.
  - intros level ri l d0 rs1 rs2 st1 st2 s Hd Hwf Hperm.
    destruct (accumulate_run level ri l (inr <$> rs1) st1 s)
      as (t1 & c1 & res1 & -> & _).
    destruct (accumulate_run level ri l (inr <$> rs2) st2 s)
      as (t2 & c2 & res2 & -> & _).
    rewrite /state_of /= !consumed_inr.
    apply (reached_contents_perm l s d0 rs1 rs2); [| |done|done].
    + by apply reached_set_clock, reached_foldl.
    + by apply reached_set_clock, reached_foldl.
  - intros uuids hash2uuids d0 ri level use_mp1 use_mp2 sched1 sched2 s
      Hfound Hstart Hwf r1 r2 l.
    destruct (compute_hash_codes_found uuids hash2uuids ri use_mp1 level
                sched1 s d0 Hfound Hstart Hwf) as (Hres1 & rs1 & Hperm1 & Hr1).
    destruct (compute_hash_codes_found uuids hash2uuids ri use_mp2 level
                sched2 s d0 Hfound Hstart Hwf) as (Hres2 & rs2 & Hperm2 & Hr2).
    split; [done|]. split; [done|].
    apply (reached_contents_perm l (initial_state hash2uuids s) d0 rs1 rs2);
      [done|done| |by rewrite Hperm1 Hperm2].
    intros k a Hk. rewrite initial_state_sets. by eapply Hwf.
Qed.

(** C6: a run works on the caller's dictionary object when one is given
    and on a new one otherwise, and returns the address of that object.
    Whether the run completes or raises, the dictionary keeps its keys
    with the set objects they held, every set object of the store keeps
    its identifiers, and every other dictionary is left as it was.  The
    object is extended: after a completed run every identifier given is
    read in it under its hash code, and every identifier whose result the
    loop consumed is so after a run that raises. *)
Theorem hash_index_in_place uuids hash2uuids ri use_mp level sched s d0 :
  starts_from hash2uuids s d0 →
  let r := compute_hash_codes uuids hash2uuids ri use_mp level sched s in
  let l := dict_address hash2uuids s in
  match hash2uuids with
  | Some l0 => l = l0
  | None => dicts s !! l = None
  end ∧
  (∀ l', result_of r = inr l' → l' = l) ∧
  (Forall (λ u, is_Some (hash_code u)) uuids → result_of r = inr l) ∧
  (∃ d', dicts (state_of r) !! l = Some d' ∧
         ∀ k a, d0 !! k = Some a → d' !! k = Some a) ∧
  (∀ a ids, sets s !! a = Some ids →
            ∃ ids', sets (state_of r) !! a = Some ids' ∧ ids ⊆ ids') ∧
  (∀ l', l' ≠ l → dicts (state_of r) !! l' = dicts s !! l') ∧
  dict_le ((λ a, sets s !!! a) <$> d0) (contents (state_of r) l) ∧
  (no_dangling s d0 →
   (∀ u h, (u, h) ∈ consumed (parallel_map sched get_hash uuids use_mp) →
           ∃ ids, contents (state_of r) l !! h = Some ids ∧ u ∈ ids) ∧
   (Forall (λ u, is_Some (hash_code u)) uuids →
    ∀ u h, u ∈ uuids → hash_code u = Some h →
           ∃ ids, contents (state_of r) l !! h = Some ids ∧ u ∈ ids)).
Proof.
  intros Hstart r l.
  destruct (compute_hash_codes_run uuids hash2uuids ri use_mp level sched s)
    as ([c Hstate] & Hret & Hres).
  fold r l in Hstate, Hret, Hres.
  pose proof (initial_state_dict _ _ _ Hstart) as Hd0. fold l in Hd0.
  pose proof (lookup_total_correct _ _ _ Hd0) as Hd0'.
  assert (grown l (initial_state hash2uuids s) (state_of r))
    as [Hkeys Hsets Hdict Hother].
  { rewrite Hstate. apply grown_set_clock, foldl_round_grown. }
  rewrite Hd0' in Hkeys. rewrite initial_state_sets in Hsets.
  destruct Hdict as [d' Hd']; [by eexists|].
  pose proof (lookup_total_correct _ _ _ Hd') as Hd''.
  rewrite Hd'' in Hkeys.
  assert (no_dangling s d0 →
          ∀ u h, (u, h) ∈ consumed (parallel_map sched get_hash uuids use_mp) →
                 ∃ ids, contents (state_of r) l !! h = Some ids ∧ u ∈ ids)
    as Hin.
  { intros Hwf u h Huh.
    assert (no_dangling (initial_state hash2uuids s) d0) as Hwf0.
    { intros k a Hk. rewrite initial_state_sets. by eapply Hwf. }
    eapply reached_member; [|exact Hwf0|exact Huh].
    rewrite Hstate. by apply reached_set_clock, reached_foldl. }
  split; [|split; [done|split; [|split; [|split; [|split; [|split]]]]]].
  - destruct hash2uuids as [l0|]; [done|].
    apply not_elem_of_dom, is_fresh.
  - intros Hfound. apply Hres.
    destruct (parallel_map_found uuids sched use_mp Hfound) as [-> _].
    by rewrite consumed_inr.
  - by exists d'.
  - done.
  - intros l' Hne. rewrite Hother //. by apply initial_state_other.
  - intros k ids. rewrite lookup_fmap.
    destruct (d0 !! k) as [a|] eqn:Hk; [|done]. intros [= <-].
    rewrite contents_lookup Hd'' (Hkeys _ _ Hk) /=.
    eexists. split; [done|].
    destruct (sets s !! a) as [ids|] eqn:Ha.
    + destruct (Hsets _ _ Ha) as (ids' & Ha' & Hsub).
      by rewrite (lookup_total_correct _ _ _ Ha)
                 (lookup_total_correct _ _ _ Ha').
    + rewrite (lookup_total_alt (sets s)) Ha /=. set_solver.
  - intros Hwf. split; [by apply Hin|].
    intros Hfound u h Hu Hh. apply (Hin Hwf).
    destruct (parallel_map_found uuids sched use_mp Hfound) as [-> Hperm].
    rewrite consumed_inr Hperm. by apply elem_of_pairs_of.
Qed.
End indexer.

(** *** The final report *)

Section reporting.
Context {U : Type} `{Countable U}.
Context {DescriptorVector Clock Report : Type}.
Context `{!DescriptorIndex U DescriptorVector, !LshFunctor DescriptorVector,
          !ProgressReporter Clock Report, !WallClock Clock}.
Implicit Types (s : IxState U _ _ Clock) (l : positive).
Implicit Types (st : list Q) (c : Clock).

Lemma slot_insert_eq st i (q : Q) :
  (i < length st)%nat → slot (<[i := q]> st) i = q.
Proof. intros Hi. by rewrite /slot list_lookup_insert_eq. Qed.

Lemma slot_insert_ne st i j (q : Q) :
  i ≠ j → slot (<[i := q]> st) j = slot st j.
Proof. intros Hne. by rewrite /slot list_lookup_insert_ne. Qed.

Lemma slot_alter_eq st i (f : Q → Q) :
  (i < length st)%nat → slot (alter f i st) i = f (slot st i).
Proof.
  intros Hi. rewrite /slot list_lookup_alter_eq.
  destruct (lookup_lt_is_Some_2 st i Hi) as [q ->]. done.
Qed.

Lemma slot_alter_ne st i j (f : Q → Q) :
  i ≠ j → slot (alter f i st) j = slot st j.
Proof. intros Hne. by rewrite /slot list_lookup_alter_ne. Qed.

Lemma inject_succ (k : nat) :
  (inject_Z (Z.of_nat (S k)) == inject_Z (Z.of_nat k) + 1)%Q.
Proof. by rewrite Nat2Z.inj_succ -Z.add_1_r inject_Z_plus. Qed.

(** One call of the reporting function keeps the state in step with the
    clock, and at interval zero it reports. *)
Lemma periodic_in_step k st i c :
  never_backwards → in_step k st c →
  in_step (S k) (periodic_report_progress st i c).2.1
    (periodic_report_progress st i c).1.
Proof.
  intros Hmono (Hlen & Hcount & Htime). rewrite /periodic_report_progress.
  pose proof (Hmono c) as Hnext.
  destruct (time_time c) as [c' now] eqn:Hc. simpl in Hnext.
  set (last := if Qeq_bool (slot st 6) 0 then now else slot st 3).
  assert (last <= now)%Q as Hlast.
  { rewrite /last. destruct Htime as [->|Hle]; [lra|].
    destruct (Qeq_bool _ _); [lra|done]. }
  destruct (Qle_bool i (now - last)); simpl;
    (split; [by rewrite !length_insert|]); split.
  - rewrite slot_insert_ne // slot_insert_ne // slot_insert_ne //.
    rewrite slot_insert_eq; [lia|]. rewrite Hcount inject_succ. lra.
  - right. rewrite slot_insert_eq; [by rewrite !length_insert; lia|]. done.
  - rewrite slot_insert_ne // slot_insert_ne //.
    rewrite slot_insert_eq; [lia|]. rewrite Hcount inject_succ. lra.
  - right. rewrite slot_insert_ne // slot_insert_eq;
      [by rewrite !length_insert; lia|]. lra.
Qed.

Lemma periodic_forced k st c :
  in_step k st c →
  ∃ n, (periodic_report_progress (alter (λ n, n - 1)%Q 1%nat st) 0 c).2.2
       = [n]
     ∧ (processed n == inject_Z (Z.of_nat k))%Q.
Proof.
  intros (Hlen & Hcount & Htime). rewrite /periodic_report_progress.
  destruct (time_time c) as [c' now] eqn:Hc. simpl in Htime.
  rewrite !(slot_alter_ne _ 1 6) // !(slot_alter_ne _ 1 3) //.
  set (last := if Qeq_bool (slot st 6) 0 then now else slot st 3).
  assert (last <= now)%Q as Hlast.
  { rewrite /last. destruct Htime as [->|Hle]; [lra|].
    destruct (Qeq_bool _ _); [lra|done]. }
  assert (Qle_bool 0 (now - last) = true) as ->.
  { apply Qle_bool_iff. lra. }
  eexists. split; [done|]. simpl.
  rewrite slot_alter_eq; [lia|]. rewrite Hcount. lra.
Qed.

(** The loop with the reporting function of the spec keeps the state in
    step: after the loop, slot 1 holds the number of results. *)
Lemma accumulate_in_step level ri l (results : list (PyExn + U * Z))
    k st s t s' st' :
  never_backwards → reporting_disabled level ri = false →
  in_step k st (clock s) →
  accumulate (reporter := periodic_reporter) level ri l results st s
  = (t, s', inr st') →
  in_step (k + length results) st' (clock s').
Proof.
  intros Hmono Hon. revert k st s t.
  induction results as [|[e|[u h]] results IH]; intros k st s t Hstep.
  - intros [= _ <- <-]. by rewrite Nat.add_0_r.
  - done.
  - cbn [accumulate length].
    rewrite -run_bind_assoc.
    rewrite (run_bind_ok _ _ _ _ _ _ (round_eq l h u s)) /=.
    rewrite run_bind_unfold report_progress_on //.
    rewrite round_clock.
    destruct (accumulate _ _ _ results _ _) as [[t2 s2] res] eqn:Hacc.
    intros [= _ <- ->].
    replace (k + S (length results))%nat with (S k + length results)%nat
      by lia.
    eapply IH; [|exact Hacc]. simpl.
    by apply periodic_in_step.
Qed.

(** C7 (amended): the final call goes to the function that was selected
    at the start.  With reporting disabled (a level above [DEBUG] or an
    interval that is not positive) that function does nothing: the run
    logs its two opening records, if the level admits them, and no
    progress report at all.  With reporting enabled, a completed run ends
    its log with the reports that [bin_utils.report_progress] produces
    when called with interval [0.0] on the state of the loop, slot 1
    decremented.  For the reporting function of the spec, on a clock that
    does not run backwards, this is a report: the log of a completed run
    ends with a progress notification, and it counts the identifiers
    processed. *)
Theorem final_report uuids hash2uuids ri use_mp level sched s :
  let r := compute_hash_codes uuids hash2uuids ri use_mp level sched s in
  let r' := compute_hash_codes (reporter := periodic_reporter) uuids hash2uuids ri
              use_mp level sched s in
  (reporting_disabled level ri = true →
     trace_of r = start_log level ri ∧
     Forall (λ rec, is_progress rec = false) (trace_of r)) ∧
  (reporting_disabled level ri = false →
     ∀ l, result_of r = inr l →
     ∃ t s1 st,
       accumulate level ri (dict_address hash2uuids s)
         (parallel_map sched get_hash uuids use_mp) (replicate 7 0%Q)
         (initial_state hash2uuids s) = (t, s1, inr st) ∧
       trace_of r
       = [LoggingProgressAt ri; StartingComputation] ++ t
         ++ (Progress <$>
               (bin_utils_report_progress
                  (alter (λ n, n - 1)%Q 1%nat st) 0%Q (clock s1)).2.2)) ∧
  (reporting_disabled level ri = false → never_backwards →
     ∀ l, result_of r' = inr l →
     ∃ t n,
       trace_of r' = t ++ [Progress n] ∧
       (processed n == inject_Z (Z.of_nat (length uuids)))%Q).
Proof.
  intros r r'. split; [|split].
  - subst r. rewrite compute_hash_codes_unfold.
    destruct (accumulate_run level ri (dict_address hash2uuids s)
                (parallel_map sched get_hash uuids use_mp) (replicate 7 0%Q)
                (initial_state hash2uuids s))
      as (t & c & res & Hacc & _ & Hoff & _).
    rewrite Hacc. intros Hd. rewrite (Hoff Hd).
    assert (Forall (λ rec : LogRecord Report, is_progress rec = false)
              (start_log level ri)) as Hstart.
    { rewrite /start_log Hd. destruct (level <=? DEBUG); by repeat constructor. }
    destruct res as [e|st].
    + by rewrite /trace_of /= app_nil_r.
    + rewrite report_progress_off //. by rewrite /trace_of /= app_nil_r.
  - subst r. rewrite compute_hash_codes_unfold.
    destruct (accumulate_run level ri (dict_address hash2uuids s)
                (parallel_map sched get_hash uuids use_mp) (replicate 7 0%Q)
                (initial_state hash2uuids s))
      as (t & c & res & Hacc & _ & _ & _).
    rewrite Hacc. intros Hon l. destruct res as [e|st]; [done|]. intros _.
    eexists t, _, st. split; [done|].
    rewrite report_progress_on // /trace_of /= /start_log Hon.
    apply orb_false_iff in Hon as [Hlevel _].
    apply Z.ltb_ge, Z.leb_le in Hlevel. by rewrite Hlevel.
  - intros Hon Hmono l. subst r'. rewrite compute_hash_codes_unfold.
    destruct (accumulate _ _ _ _ _ _) as [[t s1] [e|st]] eqn:Hacc; [done|].
    intros _.
    assert (in_step (length uuids) st (clock s1)) as Hstep.
    { assert (length uuids
              = (0 + length (parallel_map sched get_hash uuids use_mp))%nat)
        as ->.
      { rewrite /parallel_map length_fmap.
        by rewrite (Permutation_length (completion_order_perm _ _)). }
      eapply accumulate_in_step; [done|done| |exact Hacc].
      split; [done|]. split; [done|]. by left. }
    destruct (periodic_forced _ _ _ Hstep) as (n & Hn & Hcount).
    rewrite report_progress_on // /trace_of /=.
    change (bin_utils_report_progress ?a ?b ?c)
      with (periodic_report_progress a b c).
    rewrite Hn /=. exists (start_log level ri ++ t), n.
    by rewrite -app_assoc.
Qed.
End reporting.

(** *** The claims on a small index *)

Section samples.
Local Existing Instances
  Samples.table_index Samples.bits_functor Samples.ticking_reporter
  Samples.second_clock.
Import Samples.

Lemma sample_uuids_found :
  Forall (λ u, is_Some (hash_code u)) ["u"; "v"; "w"].
Proof. repeat constructor; eexists; vm_compute; reflexivity. Qed.

Lemma two_uuids_found : Forall (λ u, is_Some (hash_code u)) ["u"; "v"].
Proof. repeat constructor; eexists; vm_compute; reflexivity. Qed.

Lemma empty_store_no_dangling : no_dangling empty_store ∅.
Proof. intros k a. by rewrite lookup_empty. Qed.

Lemma old_store_no_dangling : no_dangling old_store old_dict.
Proof.
  intros k a. rewrite /old_dict lookup_insert_Some lookup_singleton_Some.
  intros [[_ <-]|[_ [_ <-]]]; eexists; vm_compute; reflexivity.
Qed.

(** C4 as stated fails when the caller's dictionary already has the
    keys: the run over ["u"] and ["v"] (hash codes 5 and 7) introduces no
    key and makes no set, so ["u"] is in no set under a key introduced by
    the run, and it ends up in the sets under both hash codes of the
    run. *)
Lemma hash_index_exactly_one_counterexample :
  let r := run_index ["u"; "v"] (Some 1%positive) 1 false 10 in_order old_store in
  let final : gmap Z (gset string) :=
    {[ 5 := {[ "w"; "u" ]}; 7 := {[ "u"; "v" ]} ]} in
  hash_code "u" = Some 5 ∧ hash_code "v" = Some 7 ∧
  result_of r = inr 1%positive ∧
  contents (state_of r) 1%positive = final ∧
  dicts (state_of r) !! 1%positive = Some old_dict ∧
  dom (sets (state_of r)) = dom (sets old_store) ∧
  ¬ (∃ k ids, old_dict !! k = None ∧ final !! k = Some ids ∧ "u" ∈ ids) ∧
  (∃ ids5 ids7, final !! 5 = Some ids5 ∧ final !! 7 = Some ids7 ∧
                "u" ∈ ids5 ∧ "u" ∈ ids7).
Proof.
  intros r final.
  assert (dom final = dom old_dict) as Hdom by (by vm_compute).
  split; [by vm_compute|]. split; [by vm_compute|].
  split; [by vm_compute|]. split; [by vm_compute|].
  split; [by vm_compute|]. split; [by vm_compute|]. split.
  - intros (k & ids & Hold & Hfin & _).
    apply not_elem_of_dom in Hold. apply Hold. rewrite -Hdom.
    apply elem_of_dom. by exists ids.
  - exists {[ "w"; "u" ]}, {[ "u"; "v" ]}.
    split; [by vm_compute|]. split; [by vm_compute|]. set_solver.
Qed.

(** Two keys holding one set object: the identifier added under its hash
    code 5 is read under 7 as well. *)
Example shared_set_object :
  let r := run_index ["u"] (Some 1%positive) 1 false 10 in_order shared_store in
  result_of r = inr 1%positive ∧
  contents (state_of r) 1%positive
  = {[ 5 := {[ "w"; "u" ]}; 7 := {[ "w"; "u" ]} ]}.
Proof. split; by vm_compute. Qed.

Lemma hash_index_membership_witness :
  Forall (λ u, is_Some (hash_code u)) ["u"; "v"; "w"] ∧
  starts_from None empty_store ∅ ∧
  no_dangling empty_store ∅ ∧
  let r := run_index ["u"; "v"; "w"] None 1 false 10 in_order empty_store in
  result_of r = inr 1%positive ∧
  ∃ ids : gset string,
    contents (state_of r) 1%positive !! 5 = Some ids ∧ "u" ∈ ids ∧
    ∀ k (ids' : gset string),
      (∅ : gmap Z positive) !! k = None →
      contents (state_of r) 1%positive !! k = Some ids' → "u" ∈ ids' → k = 5.
Proof.
  split; [exact sample_uuids_found|]. split; [reflexivity|].
  split; [exact empty_store_no_dangling|].
  destruct (hash_index_membership ["u"; "v"; "w"] None 1 false 10 in_order
              empty_store ∅ sample_uuids_found eq_refl empty_store_no_dangling)
    as (Hres & _ & _ & _ & _ & Hone).
  split; [exact Hres|].
  apply (Hone "u" 5); [by left|by vm_compute|done].
Defined.

Lemma index_order_independent_witness :
  dicts old_store !! 1%positive = Some old_dict ∧
  no_dangling old_store old_dict ∧
  [("u", 5); ("v", 7)] ≡ₚ [("v", 7); ("u", 5)] ∧
  Forall (λ u, is_Some (hash_code u)) ["u"; "v"; "w"] ∧
  contents (state_of (accumulate 10 1 1%positive
                        (inr <$> [("u", 5); ("v", 7)]) (replicate 7 0%Q)
                        old_store)) 1%positive
  = contents (state_of (accumulate 10 1 1%positive
                          (inr <$> [("v", 7); ("u", 5)]) (replicate 7 0%Q)
                          old_store)) 1%positive ∧
  contents (state_of (run_index ["u"; "v"; "w"] None 1 false 10 in_order
                        empty_store)) 1%positive
  = contents (state_of (run_index ["u"; "v"; "w"] None 1 true 10 first_last
                          empty_store)) 1%positive.
Proof.
  split; [reflexivity|]. split; [exact old_store_no_dangling|].
  split; [apply perm_swap|]. split; [exact sample_uuids_found|].
  destruct (index_order_independent (U := string)) as [Hloop Hrun].
  split.
  - apply (Hloop 10 1%Q 1%positive old_dict);
      [reflexivity|exact old_store_no_dangling|apply perm_swap].
  - apply (Hrun ["u"; "v"; "w"] None ∅ 1%Q 10 false true in_order first_last
             empty_store sample_uuids_found eq_refl empty_store_no_dangling).
Defined.

Lemma hash_index_in_place_witness :
  starts_from (Some 1%positive) old_store old_dict ∧
  let r := run_index ["u"; "v"] (Some 1%positive) 1 false 10 in_order old_store in
  (∀ l', result_of r = inr l' → l' = 1%positive) ∧
  (∃ d', dicts (state_of r) !! 1%positive = Some d' ∧
         ∀ k a, old_dict !! k = Some a → d' !! k = Some a) ∧
  (∀ a (ids : gset string), sets old_store !! a = Some ids →
      ∃ ids', sets (state_of r) !! a = Some ids' ∧ ids ⊆ ids') ∧
  (∀ u h, u ∈ ["u"; "v"] → hash_code u = Some h →
          ∃ ids : gset string,
            contents (state_of r) 1%positive !! h = Some ids ∧ u ∈ ids).
Proof.
  split; [reflexivity|].
  destruct (hash_index_in_place ["u"; "v"] (Some 1%positive) 1 false 10
              in_order old_store old_dict eq_refl)
    as (_ & Hret & _ & Hkeys & Hsets & _ & _ & Hin).
  split; [exact Hret|]. split; [exact Hkeys|]. split; [exact Hsets|].
  exact (proj2 (Hin old_store_no_dangling) two_uuids_found).
Defined.

(** The caller's dictionary after that run: the two identifiers have
    joined the sets that were there. *)
Example old_store_extended :
  contents (state_of (run_index ["u"; "v"] (Some 1%positive) 1 false 10
                        in_order old_store)) 1%positive
  = {[ 5 := {[ "w"; "u" ]}; 7 := {[ "u"; "v" ]} ]}.
Proof. by vm_compute. Qed.

(** C7 as stated fails whenever reporting is disabled: with a zero
    interval at level [DEBUG] the completed run logs its two opening
    records and no report, and at level [INFO] it logs nothing; the same
    run with reporting enabled ends with the forced final report. *)
Lemma final_report_disabled_counterexample :
  reporting_disabled 10 0 = true ∧
  result_of (run_index ["u"; "v"; "w"] None 0 false 10 in_order empty_store)
  = inr 1%positive ∧
  trace_of (run_index ["u"; "v"; "w"] None 0 false 10 in_order empty_store)
  = [NotLoggingProgress; StartingComputation] ∧
  reporting_disabled 20 1 = true ∧
  result_of (run_index ["u"; "v"; "w"] None 1 false 20 in_order empty_store)
  = inr 1%positive ∧
  trace_of (run_index ["u"; "v"; "w"] None 1 false 20 in_order empty_store)
  = [] ∧
  reporting_disabled 10 1 = false ∧
  trace_of (run_index ["u"; "v"; "w"] None 1 false 10 in_order empty_store)
  = [LoggingProgressAt 1; StartingComputation;
     Progress 2%Q; Progress 3%Q; Progress 3%Q].
Proof. repeat split; by vm_compute. Qed.

Lemma second_clock_never_backwards :
  @never_backwards nat second_clock.
Proof.
  intros c. rewrite /= -Zle_Qle. lia.
Qed.

Lemma final_report_witness :
  reporting_disabled 10 0 = true ∧
  Forall (λ rec, is_progress rec = false)
    (trace_of (run_index ["u"; "v"; "w"] None 0 false 10 in_order empty_store)) ∧
  reporting_disabled 10 1 = false ∧
  (∃ t (s1 : IxState string _ _ nat) st,
    trace_of (run_index ["u"; "v"; "w"] None 1 false 10 in_order empty_store)
    = [LoggingProgressAt 1; StartingComputation] ++ t
      ++ (Progress <$>
            (bin_utils_report_progress
               (alter (λ n, n - 1)%Q 1%nat st) 0%Q (clock s1)).2.2)) ∧
  @never_backwards nat second_clock ∧
  ∃ t n,
    trace_of (run_index_periodic ["u"; "v"; "w"] None 1 false 10 in_order
                empty_store) = t ++ [Progress n] ∧
    (processed n == 3)%Q.
Proof.
  split; [reflexivity|]. split.
  - exact (proj2 (proj1 (final_report ["u"; "v"; "w"] None 0 false 10
                           in_order empty_store) eq_refl)).
  - split; [reflexivity|].
    assert (result_of (run_index ["u"; "v"; "w"] None 1 false 10 in_order
                         empty_store) = inr 1%positive) as Hres
      by (vm_compute; reflexivity).
    assert (result_of (run_index_periodic ["u"; "v"; "w"] None 1 false 10
                         in_order empty_store) = inr 1%positive) as Hres'
      by (vm_compute; reflexivity).
    split; [|split; [exact second_clock_never_backwards|]].
    + destruct (proj1 (proj2 (final_report ["u"; "v"; "w"] None 1 false 10
                                in_order empty_store)) eq_refl 1%positive Hres)
        as (t & s1 & st & _ & Htrace).
      exists t, s1, st. exact Htrace.
    + exact (proj2 (proj2 (final_report ["u"; "v"; "w"] None 1 false 10
                             in_order empty_store)) eq_refl
               second_clock_never_backwards 1%positive Hres').
Defined.

(** The log of that run with the reporting function of the spec: one
    periodic notification and the final one, each counting the three
    identifiers. *)
Example periodic_log :
  trace_of (run_index_periodic ["u"; "v"; "w"] None 1 false 10 in_order
              empty_store)
  = [LoggingProgressAt 1; StartingComputation;
     Progress (mkNotification 3 1); Progress (mkNotification 3 2)].
Proof. by vm_compute. Qed.
End samples.
End HashIdxProps.


(** ** The session controller: lookups, round trips and the lock *)

Module IqrCtlMore.
Import IqrCtl IqrCtlProps.

Section registry.
Context {IqrSession : Type}.
Implicit Types (c : IqrController IqrSession) (s : IqrSession).
Implicit Types (k j session_uuid : PyKey).

Lemma get_session_eq c k :
  get_session c k
  = (c, match _iqr_sessions c !! k with
        | Some s => inr s
        | None => inl KeyError
        end).
Proof.
  rewrite /get_session /with_map_rlock /=.
  destruct (_iqr_sessions c !! k); by rewrite exit_enter.
Qed.

Lemma remove_session_eq c k :
  remove_session c k
  = match _iqr_sessions c !! k with
    | Some _ => (set_sessions (delete k (_iqr_sessions c)) c, inr tt)
    | None => (c, inl KeyError)
    end.
Proof.
  rewrite /remove_session /with_map_rlock /=.
  destruct (_iqr_sessions c !! k).
  - by rewrite exit_set_sessions_enter.
  - by rewrite exit_enter.
Qed.

Lemma has_session_uuid_eq c k :
  has_session_uuid c k
  = (c, inr (bool_decide (is_Some (_iqr_sessions c !! k)))).
Proof. by rewrite /has_session_uuid /with_map_rlock /= exit_enter. Qed.

Lemma session_uuids_eq c :
  session_uuids c = (c, inr (elements (dom (_iqr_sessions c)))).
Proof. by rewrite /session_uuids /with_map_rlock /= exit_enter. Qed.

Lemma add_session_eq c s k uuid1 :
  add_session c s k uuid1
  = let id := if truthy k then k else KUuid uuid1 in
    match _iqr_sessions c !! id with
    | Some _ =>
        (c, inl (if truthy k
                 then RuntimeError
                        ("Cannot use given ID as it already exists in the controller session map: "
                         +:+ str_of_key k)
                 else AssertionError
                        "Generated a new random UUID that already exists in session map."))
    | None => (set_sessions (<[id := s]> (_iqr_sessions c)) c, inr id)
    end.
Proof.
  destruct (truthy k) eqn:Hk.
  - by rewrite add_session_truthy_eq.
  - by rewrite add_session_falsy_eq.
Qed.

(** X1 ([session_uuids], [has_session_uuid], [get_session]).  The three read
    operations agree and change nothing: [has_session_uuid] answers [True]
    exactly for the ids that [session_uuids] lists, which are exactly the
    ids for which [get_session] returns a session; the list has no
    repetition and as many entries as there are sessions. *)
Theorem lookups_agree c k :
  ∃ ks b,
    session_uuids c = (c, inr ks) ∧
    has_session_uuid c k = (c, inr b) ∧
    (b = true ↔ k ∈ ks) ∧
    (b = true ↔ ∃ s, get_session c k = (c, inr s)) ∧
    (b = false ↔ get_session c k = (c, inl KeyError)) ∧
    NoDup ks ∧ length ks = size (_iqr_sessions c).
Proof.
  eexists _, _. rewrite session_uuids_eq has_session_uuid_eq get_session_eq.
  split; [done|]. split; [done|].
  rewrite bool_decide_eq_true bool_decide_eq_false elem_of_elements elem_of_dom.
  split; [done|]. split; [|split; [|split]].
  - destruct (_iqr_sessions c !! k) as [s|]; split.
    + intros _. by exists s.
    + intros _. by eexists.
    + by intros [? ?].
    + by intros [? [= ?]].
  - destruct (_iqr_sessions c !! k) as [s|]; split; try done.
    intros Hn. destruct Hn. by eexists.
  - apply NoDup_elements.
  - by rewrite -size_dom.
Qed.

(** X2 ([add_session]).  A call of [add_session] that returns an id has
    bound that id, which was not registered before, to the given session:
    [get_session] on the id returns the session, [has_session_uuid] answers
    [True], the id is one more entry of [session_uuids], and lookups of the
    other ids give what they gave. *)
Theorem add_session_then_get c s session_uuid uuid1 c' k :
  add_session c s session_uuid uuid1 = (c', inr k) →
  _iqr_sessions c !! k = None ∧
  get_session c' k = (c', inr s) ∧
  has_session_uuid c' k = (c', inr true) ∧
  (∀ j, j ≠ k → (get_session c' j).2 = (get_session c j).2) ∧
  (∃ ks ks', session_uuids c = (c, inr ks) ∧
             session_uuids c' = (c', inr ks') ∧ ks' ≡ₚ k :: ks).
Proof.
  rewrite add_session_eq /=.
  set (id := if truthy session_uuid then session_uuid else KUuid uuid1).
  destruct (_iqr_sessions c !! id) eqn:Hid; [done|]. intros [= <- <-].
  split; [done|].
  rewrite get_session_eq has_session_uuid_eq /= lookup_insert_eq.
  split; [done|]. split.
  { by rewrite bool_decide_eq_true_2. }
  split.
  - intros j Hj. by rewrite !get_session_eq /= lookup_insert_ne.
  - eexists _, _. rewrite !session_uuids_eq /=. split; [done|]. split; [done|].
    rewrite dom_insert_L. apply elements_union_singleton.
    by apply not_elem_of_dom.
Qed.


(** X4 ([add_session], [remove_session]).  Adding and removing are inverse:
    removing the id that [add_session] returned gives back the controller as
    it was before the call. *)
Theorem add_then_remove c s session_uuid uuid1 c' k :
  add_session c s session_uuid uuid1 = (c', inr k) →
  remove_session c' k = (c, inr tt).
Proof.
  rewrite add_session_eq /=.
  set (id := if truthy session_uuid then session_uuid else KUuid uuid1).
  destruct (_iqr_sessions c !! id) eqn:Hid; [done|]. intros [= <- <-].
  rewrite remove_session_eq /= lookup_insert_eq /set_sessions /=.
  rewrite delete_insert_id //. by destruct c.
Qed.

(** X5 ([remove_session], [add_session]).  Removing a session and
    registering it again under its (truthy) id gives back the controller as
    it was. *)
Theorem remove_then_add c s k uuid1 :
  truthy k = true → _iqr_sessions c !! k = Some s →
  ∃ c1, remove_session c k = (c1, inr tt) ∧
        add_session c1 s k uuid1 = (c, inr k).
Proof.
  intros Ht Hk. eexists. rewrite remove_session_eq Hk. split; [done|].
  rewrite add_session_eq Ht /= lookup_delete_eq /set_sessions /=.
  rewrite insert_delete_id //. by destruct c.
Qed.

(** X6 ([remove_session]).  After a removal the id is gone:
    [has_session_uuid] answers [False], [get_session] and a second
    [remove_session] raise [KeyError], and there is one session less. *)
Theorem remove_session_gone c k s :
  _iqr_sessions c !! k = Some s →
  ∃ c1, remove_session c k = (c1, inr tt) ∧
        has_session_uuid c1 k = (c1, inr false) ∧
        get_session c1 k = (c1, inl KeyError) ∧
        remove_session c1 k = (c1, inl KeyError) ∧
        S (size (_iqr_sessions c1)) = size (_iqr_sessions c).
Proof.
  intros Hk. eexists. rewrite remove_session_eq Hk. split; [done|].
  rewrite has_session_uuid_eq get_session_eq remove_session_eq /=.
  rewrite lookup_delete_eq. split.
  { rewrite bool_decide_eq_false_2; [by intros [? ?]|done]. }
  split; [done|]. split; [done|].
  rewrite map_size_delete Hk.
  assert (size (_iqr_sessions c) ≠ 0%nat).
  { intros Hz%map_size_empty_inv. by rewrite Hz in Hk. }
  lia.
Qed.

(** X7 ([__enter__], [__exit__]).  The lock is reentrant and always
    released: each of the five operations, run inside a [with controller:]
    block (the lock already held by [__enter__]), returns what it returns
    outside and leaves the same map; and once [__exit__] has run the lock
    depth is what it was, whether the operation returned or raised. *)
Theorem operations_inside_with c s session_uuid uuid1 :
  let inside {A} (op : IqrController IqrSession →
                       IqrController IqrSession * (PyExn + A)) :=
    let '(c', r) := op (enter c) in (exit c', r) in
  inside session_uuids = session_uuids c ∧
  inside (λ c, has_session_uuid c session_uuid)
    = has_session_uuid c session_uuid ∧
  inside (λ c, add_session c s session_uuid uuid1)
    = add_session c s session_uuid uuid1 ∧
  inside (λ c, get_session c session_uuid) = get_session c session_uuid ∧
  inside (λ c, remove_session c session_uuid)
    = remove_session c session_uuid ∧
  _map_rlock (session_uuids c).1 = _map_rlock c ∧
  _map_rlock (has_session_uuid c session_uuid).1 = _map_rlock c ∧
  _map_rlock (add_session c s session_uuid uuid1).1 = _map_rlock c ∧
  _map_rlock (get_session c session_uuid).1 = _map_rlock c ∧
  _map_rlock (remove_session c session_uuid).1 = _map_rlock c.
Proof.
  simpl.
  rewrite !session_uuids_eq !has_session_uuid_eq !get_session_eq
    !remove_session_eq !add_session_eq /= !exit_enter.
  repeat split.
  - destruct (_iqr_sessions c !! _); [by rewrite exit_enter|].
    by rewrite exit_set_sessions_enter.
  - destruct (_iqr_sessions c !! _); [by rewrite exit_set_sessions_enter|].
    by rewrite exit_enter.
  - by destruct (_iqr_sessions c !! _).
  - by destruct (_iqr_sessions c !! _).
Qed.
End registry.

Lemma add_alice :
  add_session Samples.zero_registered "second" (KStr "alice") 42%N
  = (Samples.alice_added, inr (KStr "alice")).
Proof. by rewrite add_session_eq. Qed.

Lemma add_session_then_get_witness :
  add_session Samples.zero_registered "second" (KStr "alice") 42%N
  = (Samples.alice_added, inr (KStr "alice")) ∧
  get_session Samples.alice_added (KStr "alice") = (Samples.alice_added, inr "second") ∧
  has_session_uuid Samples.alice_added (KStr "alice") = (Samples.alice_added, inr true).
Proof.
  split; [exact add_alice|].
  destruct (add_session_then_get Samples.zero_registered "second"
              (KStr "alice") 42%N Samples.alice_added (KStr "alice") add_alice)
    as (_ & Hget & Hhas & _).
  split; [exact Hget|exact Hhas].
Defined.

Lemma add_then_remove_witness :
  add_session Samples.zero_registered "second" (KStr "alice") 42%N
  = (Samples.alice_added, inr (KStr "alice")) ∧
  remove_session Samples.alice_added (KStr "alice") = (Samples.zero_registered, inr tt).
Proof.
  split; [exact add_alice|].
  exact (add_then_remove Samples.zero_registered "second" (KStr "alice") 42%N
           Samples.alice_added (KStr "alice") add_alice).
Defined.

Lemma alice_registered :
  _iqr_sessions Samples.alice_added !! KStr "alice" = Some "second".
Proof. apply lookup_insert_eq. Qed.

Lemma remove_then_add_witness :
  truthy (KStr "alice") = true ∧
  _iqr_sessions Samples.alice_added !! KStr "alice" = Some "second" ∧
  ∃ c1, remove_session Samples.alice_added (KStr "alice") = (c1, inr tt) ∧
        add_session c1 "second" (KStr "alice") 7%N
        = (Samples.alice_added, inr (KStr "alice")).
Proof.
  split; [reflexivity|]. split; [exact alice_registered|].
  exact (remove_then_add Samples.alice_added "second" (KStr "alice") 7%N eq_refl
           alice_registered).
Defined.

Lemma remove_session_gone_witness :
  _iqr_sessions Samples.alice_added !! KStr "alice" = Some "second" ∧
  ∃ c1, remove_session Samples.alice_added (KStr "alice") = (c1, inr tt) ∧
        has_session_uuid c1 (KStr "alice") = (c1, inr false) ∧
        get_session c1 (KStr "alice") = (c1, inl KeyError) ∧
        remove_session c1 (KStr "alice") = (c1, inl KeyError) ∧
        S (size (_iqr_sessions c1)) = size (_iqr_sessions Samples.alice_added).
Proof.
  split; [exact alice_registered|].
  exact (remove_session_gone Samples.alice_added (KStr "alice") "second"
           alice_registered).
Defined.
End IqrCtlMore.


(** ** The batch orchestrator: failures, order of effects, batch sizes *)

Module DescrMore.
Import Descr DescrShape DescrProps.

Section orchestrator.
Context {World DescriptorElement : Type}.
Context `{!DescriptorGenerator World DescriptorElement,
          !DescriptorIndex World DescriptorElement}.
Implicit Types (e dfe : DataFileElement) (w : World).
Implicit Types (m : gmap string DescriptorElement).
Implicit Types (t : list (Event DescriptorElement)).
Implicit Types (xs batch deque : list DataFileElement).

(** [yield_all] either yields every element, or stops with [KeyError] at
    the first element the mapping does not have. *)
Lemma yield_all_cases batch m w :
  (∃ ys, yield_all batch m w = (ys, w, inr tt) ∧ Forall2 (pair_of m) batch ys) ∨
  (∃ ys before e after,
     yield_all batch m w = (ys, w, inl KeyError) ∧
     batch = before ++ e :: after ∧ Forall2 (pair_of m) before ys ∧
     m !! get_bytes e = None).
Proof.
  induction batch as [|e batch IH]; simpl.
  - left. exists []. by split; [|constructor].
  - destruct (m !! get_bytes e) as [d|] eqn:Hd.
    + destruct IH as [(ys & Hys & Hall)|(ys & before & e' & after & Hys & -> & Hall & He')].
      * left. exists (Yielded (_filepath e) d :: ys). split.
        -- erewrite run_bind_ok; [|reflexivity]. by rewrite Hys.
        -- constructor; [by exists d|done].
      * right. exists (Yielded (_filepath e) d :: ys), (e :: before), e', after.
        split; [|split; [done|split; [|done]]].
        -- erewrite run_bind_ok; [|reflexivity]. by rewrite Hys.
        -- constructor; [by exists d|done].
    + right. exists [], [], e, batch. by repeat split; [constructor|].
Qed.

(** One batch: offered with success, or broken. *)
Lemma compute_batch_cases overwrite procs data captured w :
  ∃ t w' r,
    compute_batch overwrite procs data captured w = (t, w', r) ∧
    match r with
    | inr _ =>
        offered data
          (if captured then taken overwrite procs w [] data else data) t
    | inl _ => broken data t
    end.
Proof.
  rewrite compute_batch_unfold.
  destruct (generate data overwrite procs w) as [w1 [e|m]].
  { eexists _, _, _. split; [done|]. constructor. }
  destruct (add_many_descriptors (itervalues m) w1) as [w2 [e|[]]].
  { eexists _, _, _. split; [done|]. constructor. }
  destruct (yield_all_cases
              (if captured then taken overwrite procs w [] data else data)
              m w2)
    as [(ys & -> & Hall)|(ys & before & e & after & -> & Hd & Hall & He)].
  - eexists _, _, _. split; [done|]. by constructor.
  - eexists _, _, _. split; [done|]. simpl.
    destruct (taken_prefix overwrite procs w data) as [unread Hdata].
    apply (broken_lookup _ m before e
             (after ++ if captured then unread else [])); [|done..].
    destruct captured.
    + by rewrite {1}Hdata Hd -app_assoc.
    + by rewrite Hd app_nil_r.
Qed.

Lemma offered_served data t : offered data data t → served data t.
Proof. destruct 1 as [m ys Hall]. by apply served_one. Qed.

(** A run serves a first part of the input in full and, when it raises,
    breaks on the batch that follows it. *)
Lemma batched_loop_cases overwrite procs b xs deque w :
  ∃ t w' r,
    batched_loop overwrite procs b xs deque w = (t, w', r) ∧
    match r with
    | inr rest => ∃ done, deque ++ xs = done ++ rest ∧ served done t
    | inl _ => ∃ done t_ok batch t_bad after,
        deque ++ xs = done ++ batch ++ after ∧
        served done t_ok ∧ broken batch t_bad ∧ t = t_ok ++ t_bad
    end.
Proof.
  revert deque w. induction xs as [|x xs IH]; intros deque w; simpl.
  - exists [], w, (inr deque). split; [done|]. exists [].
    split; [by rewrite app_nil_r|constructor].
  - destruct (Z.of_nat (length (deque ++ [x])) =? b).
    + destruct (compute_batch_cases overwrite procs (deque ++ [x]) false w)
        as (t1 & w1 & r1 & Hb & Hr1).
      rewrite run_bind_unfold Hb. destruct r1 as [e|[]].
      * eexists _, _, _. split; [done|]. simpl.
        exists [], [], (deque ++ [x]), t1, xs.
        split; [by rewrite /= -app_assoc|]. by split; [constructor|].
      * apply offered_served in Hr1.
        destruct (IH [] w1) as (t2 & w2 & r2 & Hl & Hr2). rewrite Hl.
        eexists _, _, _. split; [done|]. destruct r2 as [e|rest].
        -- destruct Hr2 as (done & t_ok & batch & t_bad & after & Heq & Hs & Hbr & ->).
           exists ((deque ++ [x]) ++ done), (t1 ++ t_ok), batch, t_bad, after.
           simpl in Heq. split; [by rewrite -!app_assoc /= Heq|].
           split; [by apply served_app|]. split; [done|].
           by rewrite app_assoc.
        -- destruct Hr2 as (done & Heq & Hs). simpl in Heq.
           exists ((deque ++ [x]) ++ done).
           split; [by rewrite -!app_assoc /= Heq|]. by apply served_app.
    + destruct (IH (deque ++ [x]) w) as (t2 & w2 & r2 & Hl & Hr2).
      rewrite Hl. eexists _, _, _. split; [done|].
      rewrite -!app_assoc /= in Hr2. done.
Qed.

Lemma compute_many_descriptors_cases xs batch_size overwrite procs w :
  let r := compute_many_descriptors xs batch_size overwrite procs w in
  match result_of r with
  | inr _ =>
      match batch_size_set batch_size with
      | Some _ => served xs (trace_of r)
      | None => offered xs (taken overwrite procs w [] xs) (trace_of r)
      end
  | inl _ => ∃ done t_ok batch t_bad after,
      xs = done ++ batch ++ after ∧
      served done t_ok ∧ broken batch t_bad ∧ trace_of r = t_ok ++ t_bad
  end.
Proof.
  rewrite /compute_many_descriptors.
  destruct (batch_size_set batch_size) as [b|].
  - destruct (batched_loop_cases overwrite procs b xs [] w)
      as (t1 & w1 & r1 & Hl & Hr1).
    rewrite /= run_bind_unfold Hl. destruct r1 as [e|rest]; [done|].
    destruct Hr1 as (done & Heq & Hs). simpl in Heq.
    destruct rest as [|x rest]; simpl.
    + rewrite app_nil_r in Heq. subst. by rewrite /result_of /trace_of /= app_nil_r.
    + destruct (compute_batch_cases overwrite procs (x :: rest) false w1)
        as (t2 & w2 & r2 & Hb & Hr2).
      rewrite Hb /result_of /trace_of /=. destruct r2 as [e|[]].
      * exists done, t1, (x :: rest), t2, []. by rewrite app_nil_r.
      * subst xs. apply served_app; [done|]. by apply offered_served.
  - destruct (compute_batch_cases overwrite procs xs true w)
      as (t2 & w2 & r2 & Hb & Hr2).
    rewrite /= Hb /result_of /trace_of /=. destruct r2 as [e|[]]; [|done].
    exists [], [], xs, t2, []. by rewrite app_nil_r; split; [|split; [constructor|]].
Qed.

Lemma served_batches xs t : served xs t → concat (batches t) = xs.
Proof.
  induction 1 as [|batch m ys rest t Hp Hs IH]; [done|].
  by rewrite (batches_of_batch _ _ _ _ Hp) /= IH.
Qed.

Lemma broken_batches batch t : broken batch t → batches t = [batch].
Proof.
  destruct 1 as [|m|m before e after ys -> Hall He]; [done..|].
  apply pairs_yielded in Hall as [Hnil _].
  change (batches (Submitted ?b :: Returned m :: AddMany ?v :: ys))
    with (b :: batches ys). by rewrite Hnil.
Qed.

Lemma broken_paths batch t :
  broken batch t → (yielded t).*1 `prefix_of` (_filepath <$> batch).
Proof.
  destruct 1 as [|m|m before e after ys -> Hall He].
  - apply prefix_nil.
  - apply prefix_nil.
  - exists (_filepath <$> e :: after). rewrite fmap_app. f_equal.
    apply pairs_yielded in Hall as [_ Hall].
    change (yielded (Submitted ?b :: Returned m :: AddMany ?v :: ys))
      with (yielded ys).
    revert Hall. generalize (yielded ys).
    induction 1 as [|x p before' ps [Hp _] _ IH]; [done|].
    by rewrite !fmap_cons Hp IH.
Qed.

Lemma offered_batches data read t : offered data read t → batches t = [data].
Proof.
  destruct 1 as [m ys Hall]. apply pairs_yielded in Hall as [Hnil _].
  change (batches (Submitted ?b :: Returned m :: AddMany ?v :: ys))
    with (b :: batches ys). by rewrite Hnil.
Qed.

Lemma offered_paths data read t :
  offered data read t → (yielded t).*1 = _filepath <$> read.
Proof.
  destruct 1 as [m ys Hall]. apply pairs_yielded in Hall as [_ Hall].
  change (yielded (Submitted ?b :: Returned m :: AddMany ?v :: ys))
    with (yielded ys).
  revert Hall. generalize (yielded ys).
  induction 1 as [|x p read' ps [Hp _] _ IH]; [done|].
  by rewrite !fmap_cons Hp IH.
Qed.

(** X8 ([compute_many_descriptors]).  Whatever the generator and the index
    do, what a run yields is a first part of the input: the yielded
    identifiers are a prefix of the identifiers of the input, and the
    submitted batches are consecutive segments that together are a prefix
    of the input.  A run that returns has submitted all of the input; with
    a batch size it has yielded a pair for every element, and without one
    it has yielded a pair for the elements the generator took from the
    input, which are all of them when the generator reads to the end. *)
Theorem yields_are_a_prefix xs batch_size overwrite procs w :
  let r := compute_many_descriptors xs batch_size overwrite procs w in
  (yielded (trace_of r)).*1 `prefix_of` (_filepath <$> xs) ∧
  concat (batches (trace_of r)) `prefix_of` xs ∧
  (∀ u, result_of r = inr u →
        concat (batches (trace_of r)) = xs ∧
        (yielded (trace_of r)).*1
        = _filepath <$> match batch_size_set batch_size with
                        | Some _ => xs
                        | None => taken overwrite procs w [] xs
                        end).
Proof.
  intros r.
  pose proof (compute_many_descriptors_cases xs batch_size overwrite procs w)
    as Hcases. fold r in Hcases. clearbody r.
  destruct r as [[t w'] [e|[]]]; rewrite /result_of /trace_of /= in Hcases |- *.
  - destruct Hcases as (done & t_ok & batch & t_bad & after & -> & Hs & Hb & ->).
    split; [|split; [|done]].
    + rewrite yielded_app fmap_app (served_paths _ _ Hs) !fmap_app.
      apply prefix_app. etrans; [by apply broken_paths|].
      by apply prefix_app_r.
    + rewrite batches_app concat_app (served_batches _ _ Hs).
      rewrite (broken_batches _ _ Hb) /= app_nil_r.
      apply prefix_app. by apply prefix_app_r.
  - destruct (batch_size_set batch_size) as [b|].
    + by rewrite (served_paths _ _ Hcases) (served_batches _ _ Hcases).
    + rewrite (offered_paths _ _ _ Hcases) (offered_batches _ _ _ Hcases).
      rewrite /= app_nil_r.
      destruct (taken_prefix overwrite procs w xs) as [unread Hxs].
      split; [|done]. rewrite {2}Hxs fmap_app. by apply prefix_app_r.
Qed.

(** X9 ([compute_many_descriptors]).  A run that raises has served a first
    part of the input in full and then broke on the batch that follows: in
    the generator, in the index, or at the lookup of the first element of
    the batch that the returned mapping does not have. Nothing is submitted
    or yielded after that. *)
Theorem run_stops_at_failure xs batch_size overwrite procs w (exn : PyExn) :
  result_of (compute_many_descriptors xs batch_size overwrite procs w)
  = inl exn →
  ∃ done t_ok batch t_bad after,
    xs = done ++ batch ++ after ∧
    served done t_ok ∧ broken batch t_bad ∧
    trace_of (compute_many_descriptors xs batch_size overwrite procs w)
    = t_ok ++ t_bad.
Proof.
  intros He.
  pose proof (compute_many_descriptors_cases xs batch_size overwrite procs w)
    as Hcases. revert He Hcases.
  destruct (compute_many_descriptors _ _ _ _ _) as [[t w'] [e'|[]]];
    rewrite /result_of /trace_of /=; [|done].
  by intros _ ?.
Qed.

(** *** The index is fed before the consumer *)









(** *** Batch sizes that never cut *)

Lemma batched_loop_no_cut overwrite procs b xs deque w :
  b < 0 ∨ Z.of_nat (length (deque ++ xs)) < b →
  batched_loop overwrite procs b xs deque w = ([], w, inr (deque ++ xs)).
Proof.
  revert deque. induction xs as [|x xs IH]; intros deque Hb; simpl.
  - by rewrite app_nil_r.
  - destruct (Z.eqb_spec (Z.of_nat (length (deque ++ [x]))) b) as [Heq|_].
    + rewrite !length_app /= in Hb Heq. lia.
    + rewrite IH; [by rewrite -app_assoc|]. by rewrite -app_assoc.
Qed.

Lemma batched_loop_exact overwrite procs b xs deque w :
  Z.of_nat (length (deque ++ xs)) = b → xs ≠ [] →
  batched_loop overwrite procs b xs deque w
  = (compute_batch overwrite procs (deque ++ xs) false ≫= λ _, mret []) w.
Proof.
  revert deque. induction xs as [|x xs IH]; intros deque Hb Hne; [done|].
  simpl. destruct (Z.eqb_spec (Z.of_nat (length (deque ++ [x]))) b) as [Heq|Hneq].
  - assert (xs = []) as ->.
    { rewrite !length_app /= in Hb Heq. destruct xs; [done|simpl in *; lia]. }
    done.
  - destruct xs as [|x' xs]; [done|].
    rewrite IH //; by rewrite -app_assoc.
Qed.

Lemma compute_batch_read_all overwrite procs xs w :
  taken overwrite procs w [] xs = xs →
  compute_batch overwrite procs xs true w
  = compute_batch overwrite procs xs false w.
Proof. intros Hall. by rewrite !compute_batch_unfold Hall. Qed.

(** X11 ([compute_many_descriptors]).  A batch size of zero is no batch
    size.  For a generator that reads the input to the end, a batch size
    that is negative or at least the length of a non-empty input never
    cuts the input: the run is the run without batch size, one call on
    the whole input.  On an empty input the two differ: with a non-zero
    batch size nothing at all is called, without one the generator is
    still called, on no element. *)
Theorem batch_sizes_that_never_cut xs (b : Z) overwrite procs w :
  compute_many_descriptors xs (Some 0) overwrite procs w
  = compute_many_descriptors xs None overwrite procs w ∧
  (xs ≠ [] → b < 0 ∨ Z.of_nat (length xs) ≤ b →
   taken overwrite procs w [] xs = xs →
   compute_many_descriptors xs (Some b) overwrite procs w
   = compute_many_descriptors xs None overwrite procs w) ∧
  (b ≠ 0 →
   compute_many_descriptors [] (Some b) overwrite procs w = ([], w, inr tt)) ∧
  batches (trace_of (compute_many_descriptors [] None overwrite procs w))
  = [[]].
Proof.
  split; [done|]. split; [|split].
  - intros Hne Hb Hall. rewrite /compute_many_descriptors /batch_size_set.
    destruct (Z.eqb_spec b 0) as [->|_].
    { destruct xs; [done|simpl in *; lia]. }
    rewrite (compute_batch_read_all _ _ _ _ Hall).
    destruct (decide (b < 0 ∨ Z.of_nat (length xs) < b)) as [Hlt|Hge].
    + rewrite run_bind_unfold batched_loop_no_cut //.
      destruct xs as [|x xs]; [done|]. simpl.
      by destruct (compute_batch overwrite procs (x :: xs) false w)
        as [[t w'] r].
    + rewrite run_bind_unfold batched_loop_exact //; [simpl; lia|].
      change ([] ++ xs) with xs. rewrite run_bind_unfold.
      destruct (compute_batch overwrite procs xs false w)
        as [[t w'] [e|[]]]; [done|].
      by rewrite /= !app_nil_r.
  - intros Hb. rewrite /compute_many_descriptors /batch_size_set.
    by destruct (Z.eqb_spec b 0).
  - rewrite /compute_many_descriptors /= compute_batch_unfold /trace_of.
    destruct (generate [] overwrite procs w) as [w1 [e|m]]; [done|].
    destruct (add_many_descriptors (itervalues m) w1) as [w2 [e|[]]]; [done|].
    assert (taken overwrite procs w [] [] = []) as ->.
    { simpl. by destruct (reads_on _ _ _ _). }
    done.
Qed.

Lemma yield_all_missing before e after m w :
  m !! get_bytes e = None →
  yield_all (before ++ e :: after) m w
  = (yield_all before m ≫= λ _, raise KeyError) w.
Proof.
  intros He. induction before as [|x xs IH]; simpl.
  - by rewrite He.
  - destruct (m !! get_bytes x); [|done].
    rewrite run_bind_assoc !run_bind_unfold /= IH.
    by destruct (yield_all xs m w) as [[? ?] [?|?]].
Qed.

(** X12 ([compute_many_descriptors]).  Without a batch size, when the
    mapping the generator returns lacks an element [e] of the input and
    has the elements before it, what happens depends on whether the
    generator took [e] from the input.  If it did, the run raises
    [KeyError] at [e]: the elements before it have been yielded and none
    after it.  If it stopped reading before [e], the run returns, having
    yielded the elements that were read.  Either way the descriptors of
    the mapping have all gone to the index. *)
Theorem missing_entry_raises before e after overwrite procs w w1 m w2 :
  generate (before ++ e :: after) overwrite procs w = (w1, inr m) →
  add_many_descriptors (itervalues m) w1 = (w2, inr tt) →
  (∀ x, x ∈ before → is_Some (m !! get_bytes x)) →
  m !! get_bytes e = None →
  let read := taken overwrite procs w [] (before ++ e :: after) in
  ∃ ys,
    compute_many_descriptors (before ++ e :: after) None overwrite procs w
    = (Submitted (before ++ e :: after) :: Returned m
         :: AddMany (itervalues m) :: ys, w2,
       if decide (length before < length read)%nat then inl KeyError
       else inr tt) ∧
    Forall2 (pair_of m) (take (length read) before) ys.
Proof.
  intros Hgen Hidx Hbefore He read.
  rewrite /compute_many_descriptors /= compute_batch_unfold Hgen Hidx.
  fold read.
  destruct (taken_prefix overwrite procs w (before ++ e :: after))
    as [unread Hxs]. fold read in Hxs.
  destruct (decide (length before < length read)%nat) as [Hlt|Hge].
  - assert (∃ rest, read = before ++ e :: rest) as [rest Hread].
    { assert (before ++ [e] `prefix_of` read) as [rest ->].
      { assert (before ++ [e] `prefix_of` read ++ unread) as Hp.
        { rewrite -Hxs. exists after. by rewrite -app_assoc. }
        destruct (prefix_weak_total _ _ _ Hp (prefix_app_r read read unread
                    (reflexivity _))) as [?|Hrp]; [done|].
        rewrite (prefix_length_eq _ _ Hrp) //. rewrite length_app /=. lia. }
      exists rest. by rewrite -app_assoc. }
    rewrite Hread yield_all_missing // run_bind_unfold.
    destruct (yield_all_ok before m w2 Hbefore) as (ys & -> & Hall).
    exists ys. rewrite /= app_nil_r. split; [done|].
    rewrite take_ge; [rewrite length_app /=; lia|done].
  - assert (read `prefix_of` before) as [rest Hrest].
    { assert (read `prefix_of` before ++ e :: after) as Hp
        by (exists unread; done).
      destruct (prefix_weak_total _ _ _ Hp (prefix_app_r before before
                  (e :: after) (reflexivity _))) as [?|Hbp]; [done|].
      apply prefix_length in Hbp as Hlen.
      assert (length before = length read) as Heq by lia.
      destruct Hbp as [k Hk]. rewrite Hk length_app in Heq.
      destruct k; [|simpl in Heq; lia]. by rewrite Hk app_nil_r. }
    destruct (yield_all_ok read m w2) as (ys & -> & Hall).
    { intros x Hx. apply Hbefore. rewrite Hrest. set_solver. }
    exists ys. split; [done|].
    by rewrite {1}Hrest take_app_length.
Qed.
End orchestrator.

Lemma run_three_raises : result_of (Samples.run_three None) = inl KeyError.
Proof. by vm_compute. Qed.

Lemma run_stops_at_failure_witness :
  result_of (Samples.run_three None) = inl KeyError ∧
  ∃ done t_ok batch t_bad after,
    Samples.three_files = done ++ batch ++ after ∧
    served done t_ok ∧ broken batch t_bad ∧
    trace_of (Samples.run_three None) = t_ok ++ t_bad.
Proof.
  split; [exact run_three_raises|].
  exact (run_stops_at_failure Samples.three_files None false None []
           KeyError run_three_raises).
Defined.



Lemma picky_returns :
  compute_descriptor_async (DescriptorGenerator := Samples.picky_generator)
    ([mkDFE "a.png" "xx"] ++ mkDFE "bad.png" "" :: [mkDFE "c.png" "z"])
    false None []
  = ([], inr Samples.picky_mapping).
Proof. by vm_compute. Qed.

Lemma missing_entry_raises_witness :
  (∀ x, x ∈ [mkDFE "a.png" "xx"] →
        is_Some (Samples.picky_mapping !! get_bytes x)) ∧
  Samples.picky_mapping !! "" = None ∧
  ∃ ys,
    Samples.run_three None
    = (Submitted Samples.three_files :: Returned Samples.picky_mapping
         :: AddMany (itervalues Samples.picky_mapping) :: ys,
       itervalues Samples.picky_mapping, inl KeyError) ∧
    Forall2 (pair_of Samples.picky_mapping) [mkDFE "a.png" "xx"] ys.
Proof.
  assert (∀ x, x ∈ [mkDFE "a.png" "xx"] →
               is_Some (Samples.picky_mapping !! get_bytes x)) as Hbefore.
  { intros x ->%list_elem_of_singleton. by eexists. }
  split; [exact Hbefore|]. split; [reflexivity|].
  exact (missing_entry_raises (DescriptorGenerator0 := Samples.picky_generator)
           (DescriptorIndex0 := Samples.list_index)
           [mkDFE "a.png" "xx"] (mkDFE "bad.png" "") [mkDFE "c.png" "z"]
           false None [] [] Samples.picky_mapping
           (itervalues Samples.picky_mapping)
           picky_returns eq_refl Hbefore eq_refl).
Defined.

(** A generator that stops after the first element of its input.  Without
    a batch size the run returns, having yielded that element only; with a
    batch size that does not cut the input the deque holds both elements,
    the second has no entry in the mapping, and the run raises. *)
Example hasty_runs :
  Samples.run_hasty None
  = ([Submitted Samples.two_files; Returned {[ "xx" := 2%nat ]};
      AddMany [2%nat]; Yielded "a.png" 2%nat], [2%nat], inr tt)
  ∧ Samples.run_hasty (Some (-1))
    = ([Submitted Samples.two_files; Returned {[ "xx" := 2%nat ]};
        AddMany [2%nat]; Yielded "a.png" 2%nat], [2%nat], inl KeyError).
Proof. by vm_compute. Qed.
End DescrMore.


(** ** The hash indexer: failures, reruns and composition *)

Module HashIdxMore.
Import HashIdx HashIdxCount HashIdxProps.

Section indexer.
Context {U : Type} `{Countable U}.
Context {DescriptorVector Clock Report : Type}.
Context `{!DescriptorIndex U DescriptorVector, !LshFunctor DescriptorVector,
          !ProgressReporter Clock Report}.
Implicit Types (s : IxState U _ _ Clock) (d : gmap Z positive) (l a : positive).
Implicit Types (u : U) (h k : Z) (r : U * Z) (rs : list (U * Z)).
Implicit Types (st : list Q) (t : list (LogRecord Report)) (c : Clock).

(** *** A failing lookup or functor *)

Lemma consumed_app_inl {A} (xs : list A) (e : PyExn) rest :
  consumed ((inr <$> xs) ++ inl e :: rest) = xs.
Proof. induction xs as [|x xs IH]; [done|]. by rewrite /= IH. Qed.

Lemma accumulate_raises level ri l rs (e : PyExn) rest st s :
  ∃ t c,
    accumulate level ri l ((inr <$> rs) ++ inl e :: rest) st s
    = (t, set_clock c (foldl (round l) s rs), inl e).
Proof.
  revert st s. induction rs as [|[u h] rs IH]; intros st s.
  - exists [], (clock s). by rewrite set_clock_id.
  - cbn [fmap list_fmap app accumulate foldl].
    destruct (report_progress_returns level ri st ri (round l s (u, h)))
      as (t1 & c1 & st1 & Hrep & _).
    destruct (IH st1 (set_clock c1 (round l s (u, h)))) as (t2 & c2 & Hacc).
    exists (t1 ++ t2), c2.
    rewrite -run_bind_assoc.
    rewrite (run_bind_ok _ _ _ _ _ _ (round_eq l h u s)) /=.
    rewrite run_bind_unfold Hrep Hacc.
    by rewrite foldl_round_set_clock set_clock_set_clock.
Qed.

(** X13 ([compute_hash_codes]).  The run stops at the first identifier, in
    completion order, for which [get_hash] raises, be it in the lookup of
    the descriptor or in the functor: it raises that exception and returns
    no mapping. The identifiers that completed before
    it are recorded under their hash codes, and a key the dictionary did not
    have holds those of them with that hash code and no other identifier. *)
Theorem first_failure_aborts
    uuids hash2uuids ri use_mp level sched s d0 done u rest (e : PyExn) :
  completion_order (sched use_mp) uuids = done ++ u :: rest →
  Forall (λ u, is_Some (hash_code u)) done →
  get_hash u = inl e →
  starts_from hash2uuids s d0 → no_dangling s d0 →
  let r := compute_hash_codes uuids hash2uuids ri use_mp level sched s in
  let l := dict_address hash2uuids s in
  result_of r = inl e ∧
  (∀ u' h, u' ∈ done → hash_code u' = Some h →
           ∃ ids, contents (state_of r) l !! h = Some ids ∧ u' ∈ ids) ∧
  (∀ k, d0 !! k = None →
        ∀ u', (∃ ids, contents (state_of r) l !! k = Some ids ∧ u' ∈ ids)
              ↔ u' ∈ done ∧ hash_code u' = Some k).
Proof.
  intros Horder Hfound He Hstart Hwf r l.
  assert (parallel_map sched get_hash uuids use_mp
          = (inr <$> pairs_of done) ++ inl e :: (get_hash <$> rest)) as Hpm.
  { rewrite /parallel_map Horder fmap_app fmap_cons He.
    by rewrite (results_found _ Hfound). }
  subst r. rewrite compute_hash_codes_unfold Hpm. fold l.
  destruct (accumulate_raises level ri l (pairs_of done) e (get_hash <$> rest)
              (replicate 7 0%Q) (initial_state hash2uuids s)) as (t & c & ->).
  rewrite /result_of /state_of /=. split; [done|].
  assert (reached l (initial_state hash2uuids s) d0 (pairs_of done)
            (set_clock c (foldl (round l) (initial_state hash2uuids s)
                            (pairs_of done)))) as Hr.
  { apply reached_set_clock, reached_foldl; [by apply initial_state_dict|].
    intros k a Hk. rewrite initial_state_sets. by eapply Hwf. }
  assert (no_dangling (initial_state hash2uuids s) d0) as Hwf0.
  { intros k a Hk. rewrite initial_state_sets. by eapply Hwf. }
  split.
  - intros u' h Hu Hh. apply (reached_member _ _ _ _ _ _ _ Hr Hwf0).
    by apply elem_of_pairs_of.
  - intros k Hk u'.
    by rewrite (reached_new_contents _ _ _ _ _ _ _ Hr Hk) elem_of_pairs_of.
Qed.

(** *** No identifier at all *)

(** X14 ([compute_hash_codes]).  With no identifier to process the run
    returns its dictionary at once: the caller's store is as it was (a run
    without a dictionary has added an empty one), and what the dictionary
    reads as is what it read as. *)
Theorem no_identifiers hash2uuids ri use_mp level sched s :
  let r := compute_hash_codes [] hash2uuids ri use_mp level sched s in
  let l := dict_address hash2uuids s in
  result_of r = inr l ∧
  dicts (state_of r) = dicts (initial_state hash2uuids s) ∧
  sets (state_of r) = sets s ∧
  contents (state_of r) l
  = match hash2uuids with Some _ => contents s l | None => ∅ end.
Proof.
  intros r l.
  destruct (compute_hash_codes_run [] hash2uuids ri use_mp level sched s)
    as ([c Hstate] & _ & Hres).
  fold r l in Hstate, Hres. simpl in Hstate.
  split; [by apply Hres|]. rewrite Hstate /=. split; [done|].
  split; [by rewrite initial_state_sets|].
  destruct hash2uuids as [l0|]; [done|].
  by rewrite /contents /= lookup_total_insert_eq fmap_empty.
Qed.

(** *** Running again, and running in two parts *)

(** A round for an identifier that is already in the set object of its
    hash code changes nothing. *)
Lemma round_present l s u h a ids :
  (dicts s !!! l) !! h = Some a → sets s !! a = Some ids → u ∈ ids →
  round l s (u, h) = s.
Proof.
  intros Hh Ha Hu. rewrite (round_old _ _ _ _ a) //.
  rewrite (lookup_total_correct _ _ _ Ha).
  replace (ids ∪ {[u]}) with ids by set_solver.
  rewrite insert_id //. by destruct s.
Qed.

Lemma foldl_round_present l s rs :
  (∀ u h, (u, h) ∈ rs →
          ∃ a ids, (dicts s !!! l) !! h = Some a ∧ sets s !! a = Some ids ∧
                   u ∈ ids) →
  foldl (round l) s rs = s.
Proof.
  induction rs as [|[u h] rs IH]; intros Hall; [done|].
  destruct (Hall u h) as (a & ids & Hh & Ha & Hu); [by left|].
  rewrite /= (round_present _ _ _ _ a ids) //. apply IH.
  intros u' h' Hin. apply Hall. by right.
Qed.

Lemma reached_present l s0 d0 rs s u h :
  reached l s0 d0 rs s → no_dangling s0 d0 → (u, h) ∈ rs →
  ∃ a ids, (dicts s !!! l) !! h = Some a ∧ sets s !! a = Some ids ∧ u ∈ ids.
Proof.
  intros Hr Hwf Hin. destruct (d0 !! h) as [a|] eqn:Hd0.
  - destruct (Hwf _ _ Hd0) as [ids0 Ha].
    destruct (reached_old_sets _ _ _ _ _ Hr _ _ Ha) as (ids & Ha' & Hids).
    exists a, ids. split; [by apply (reached_old_keys _ _ _ _ _ Hr)|].
    split; [done|]. apply Hids. right. by exists h.
  - assert (is_Some ((dicts s !!! l) !! h)) as [a Hk].
    { apply (reached_new_keys _ _ _ _ _ Hr); [done|].
      apply list_elem_of_fmap. by exists (u, h). }
    destruct (reached_new_sets _ _ _ _ _ Hr _ _ Hd0 Hk)
      as (_ & _ & ids & Ha & Hids).
    exists a, ids. split; [done|]. split; [done|]. by apply Hids.
Qed.

(** X15 ([compute_hash_codes]).  Running the indexer again over the same
    identifiers, on the dictionary a completed run returned, changes no
    dictionary and no set of the store, whatever the reporting and
    scheduling of the second run. *)
Theorem rerun_changes_nothing
    uuids hash2uuids ri use_mp level sched ri' use_mp' level' sched' s d0 :
  Forall (λ u, is_Some (hash_code u)) uuids →
  starts_from hash2uuids s d0 → no_dangling s d0 →
  let r := compute_hash_codes uuids hash2uuids ri use_mp level sched s in
  let l := dict_address hash2uuids s in
  let r' := compute_hash_codes uuids (Some l) ri' use_mp' level' sched'
              (state_of r) in
  result_of r = inr l ∧ result_of r' = inr l ∧
  dicts (state_of r') = dicts (state_of r) ∧
  sets (state_of r') = sets (state_of r) ∧
  contents (state_of r') l = contents (state_of r) l.
Proof.
  intros Hfound Hstart Hwf r l r'.
  destruct (compute_hash_codes_found uuids hash2uuids ri use_mp level sched
              s d0 Hfound Hstart Hwf) as (Hres & rs & Hperm & Hr).
  fold r l in Hres, Hr.
  destruct (compute_hash_codes_run uuids (Some l) ri' use_mp' level' sched'
              (state_of r)) as ([c' Hstate'] & _ & Hres').
  fold r' in Hstate', Hres'. simpl in Hstate', Hres'.
  destruct (parallel_map_found uuids sched' use_mp' Hfound) as [Hpm Hperm'].
  rewrite Hpm consumed_inr in Hstate', Hres'.
  assert (no_dangling (initial_state hash2uuids s) d0) as Hwf0.
  { intros k a Hk. rewrite initial_state_sets. by eapply Hwf. }
  rewrite foldl_round_present in Hstate'.
  { intros u h Hin. apply (reached_present _ _ _ _ _ _ _ Hr Hwf0).
    by rewrite Hperm -Hperm'. }
  split; [done|]. split; [by apply Hres'|]. by rewrite Hstate'.
Qed.

(** X16 ([compute_hash_codes]).  Indexing in two parts is indexing at once:
    a run over [uuids1] followed by a run over [uuids2] on the dictionary
    the first returned leaves a dictionary that reads as the one a single
    run over [uuids1 ++ uuids2] leaves. *)
Theorem two_runs_as_one
    uuids1 uuids2 hash2uuids ri use_mp level sched s d0 :
  Forall (λ u, is_Some (hash_code u)) (uuids1 ++ uuids2) →
  starts_from hash2uuids s d0 → no_dangling s d0 →
  let l := dict_address hash2uuids s in
  let r1 := compute_hash_codes uuids1 hash2uuids ri use_mp level sched s in
  let r2 := compute_hash_codes uuids2 (Some l) ri use_mp level sched
              (state_of r1) in
  let r := compute_hash_codes (uuids1 ++ uuids2) hash2uuids ri use_mp level
             sched s in
  result_of r1 = inr l ∧ result_of r2 = inr l ∧ result_of r = inr l ∧
  contents (state_of r2) l = contents (state_of r) l.
Proof.
  intros Hfound Hstart Hwf l r1 r2 r.
  apply Forall_app in Hfound as Hf12. destruct Hf12 as [Hf1 Hf2].
  destruct (compute_hash_codes_run uuids1 hash2uuids ri use_mp level sched s)
    as ([c1 Hs1] & _ & Hres1).
  destruct (compute_hash_codes_run uuids2 (Some l) ri use_mp level sched
              (state_of r1)) as ([c2 Hs2] & _ & Hres2).
  destruct (compute_hash_codes_run (uuids1 ++ uuids2) hash2uuids ri use_mp
              level sched s) as ([c Hs] & _ & Hres).
  fold l r1 in Hs1, Hres1. fold r2 in Hs2, Hres2. fold l r in Hs, Hres.
  simpl in Hs2, Hres2.
  destruct (parallel_map_found uuids1 sched use_mp Hf1) as [Hpm1 Hperm1].
  destruct (parallel_map_found uuids2 sched use_mp Hf2) as [Hpm2 Hperm2].
  destruct (parallel_map_found _ sched use_mp Hfound) as [Hpm Hperm].
  rewrite Hpm1 consumed_inr in Hs1, Hres1.
  rewrite Hpm2 consumed_inr in Hs2, Hres2.
  rewrite Hpm consumed_inr in Hs, Hres.
  split; [by apply Hres1|]. split; [by apply Hres2|]. split; [by apply Hres|].
  rewrite Hs2 Hs1 foldl_round_set_clock set_clock_set_clock -foldl_app Hs.
  assert (dicts (initial_state hash2uuids s) !! l = Some d0) as Hd0
    by (by apply initial_state_dict).
  assert (no_dangling (initial_state hash2uuids s) d0) as Hwf0.
  { intros k a Hk. rewrite initial_state_sets. by eapply Hwf. }
  eapply (reached_contents_perm l (initial_state hash2uuids s) d0);
    [by apply reached_set_clock, reached_foldl
    |by apply reached_set_clock, reached_foldl|done|].
  rewrite Hperm1 Hperm2 Hperm /pairs_of. by rewrite omap_app.
Qed.

(** *** Repeated identifiers *)

Lemma reached_contents_same l s0 d0 rs1 rs2 s1 s2 :
  reached l s0 d0 rs1 s1 → reached l s0 d0 rs2 s2 →
  no_dangling s0 d0 → (∀ x, x ∈ rs1 ↔ x ∈ rs2) →
  contents s1 l = contents s2 l.
Proof.
  intros Hr1 Hr2 Hwf Hsame.
  assert (∀ k, k ∈ rs1.*2 ↔ k ∈ rs2.*2) as Hkeys.
  { intros k. rewrite !list_elem_of_fmap. by setoid_rewrite Hsame. }
  apply map_eq. intros k. rewrite !contents_lookup.
  destruct (d0 !! k) as [a|] eqn:Hd0.
  - destruct (Hwf _ _ Hd0) as [ids0 Ha].
    destruct (reached_old_sets _ _ _ _ _ Hr1 _ _ Ha) as (ids1 & Ha1 & Hids1).
    destruct (reached_old_sets _ _ _ _ _ Hr2 _ _ Ha) as (ids2 & Ha2 & Hids2).
    rewrite (reached_old_keys _ _ _ _ _ Hr1 _ _ Hd0).
    rewrite (reached_old_keys _ _ _ _ _ Hr2 _ _ Hd0) /=.
    rewrite (lookup_total_correct _ _ _ Ha1) (lookup_total_correct _ _ _ Ha2).
    f_equal. apply set_eq. intros u. rewrite Hids1 Hids2.
    by setoid_rewrite Hsame.
  - pose proof (reached_new_keys _ _ _ _ _ Hr1 k Hd0) as Hk1.
    pose proof (reached_new_keys _ _ _ _ _ Hr2 k Hd0) as Hk2.
    destruct ((dicts s1 !!! l) !! k) as [a1|] eqn:Hd1;
      destruct ((dicts s2 !!! l) !! k) as [a2|] eqn:Hd2; simpl.
    + destruct (reached_new_sets _ _ _ _ _ Hr1 _ _ Hd0 Hd1)
        as (_ & _ & ids1 & Ha1 & Hids1).
      destruct (reached_new_sets _ _ _ _ _ Hr2 _ _ Hd0 Hd2)
        as (_ & _ & ids2 & Ha2 & Hids2).
      rewrite (lookup_total_correct _ _ _ Ha1) (lookup_total_correct _ _ _ Ha2).
      f_equal. apply set_eq. intros u. by rewrite Hids1 Hids2 Hsame.
    + exfalso. apply (is_Some_None (A := positive)).
      apply Hk2, Hkeys, Hk1. by eexists.
    + exfalso. apply (is_Some_None (A := positive)).
      apply Hk1, Hkeys, Hk2. by eexists.
    + done.
Qed.

(** X17 ([compute_hash_codes]).  The dictionary of a completed run depends
    on which identifiers were given, not on how often or in which order: two
    lists with the same elements leave dictionaries that read the same. *)
Theorem repeats_count_once
    uuids1 uuids2 hash2uuids ri use_mp level sched s d0 :
  (∀ u, u ∈ uuids1 ↔ u ∈ uuids2) →
  Forall (λ u, is_Some (hash_code u)) uuids1 →
  starts_from hash2uuids s d0 → no_dangling s d0 →
  let l := dict_address hash2uuids s in
  let r1 := compute_hash_codes uuids1 hash2uuids ri use_mp level sched s in
  let r2 := compute_hash_codes uuids2 hash2uuids ri use_mp level sched s in
  result_of r1 = inr l ∧ result_of r2 = inr l ∧
  contents (state_of r1) l = contents (state_of r2) l.
Proof.
  intros Hsame Hf1 Hstart Hwf l r1 r2.
  assert (Forall (λ u, is_Some (hash_code u)) uuids2) as Hf2.
  { rewrite Forall_forall. intros u Hu%Hsame.
    by apply (proj1 (Forall_forall _ _) Hf1). }
  destruct (compute_hash_codes_found uuids1 hash2uuids ri use_mp level sched
              s d0 Hf1 Hstart Hwf) as (Hres1 & rs1 & Hperm1 & Hr1).
  destruct (compute_hash_codes_found uuids2 hash2uuids ri use_mp level sched
              s d0 Hf2 Hstart Hwf) as (Hres2 & rs2 & Hperm2 & Hr2).
  split; [done|]. split; [done|].
  apply (reached_contents_same l (initial_state hash2uuids s) d0 rs1 rs2);
    [done|done| |].
  - intros k a Hk. rewrite initial_state_sets. by eapply Hwf.
  - intros [u h]. rewrite Hperm1 Hperm2 !elem_of_pairs_of. by rewrite Hsame.
Qed.

(** *** Reporting switched off *)

Lemma accumulate_off level ri l (results : list (PyExn + U * Z)) st s :
  reporting_disabled level ri = true →
  ∃ res, accumulate level ri l results st s
         = ([], foldl (round l) s (consumed results), res).
Proof.
  intros Hoff. revert s. induction results as [|[e|[u h]] results IH]; intros s.
  - by eexists.
  - by eexists.
  - cbn [accumulate consumed foldl].
    destruct (IH (round l s (u, h))) as [res Hacc]. exists res.
    rewrite -run_bind_assoc.
    rewrite (run_bind_ok _ _ _ _ _ _ (round_eq l h u s)) /=.
    by rewrite run_bind_unfold report_progress_off // Hacc.
Qed.

(** X18 ([compute_hash_codes]).  With reporting disabled,
    [bin_utils.report_progress] is never called (the clock it reads is left
    as it was), whether the run returns or raises; and under a logger level
    above [DEBUG] the run logs nothing. *)
Theorem disabled_reporting_is_free uuids hash2uuids ri use_mp level sched s :
  reporting_disabled level ri = true →
  let r := compute_hash_codes uuids hash2uuids ri use_mp level sched s in
  clock (state_of r) = clock s ∧
  (DEBUG < level → trace_of r = []).
Proof.
  intros Hoff r. subst r. rewrite compute_hash_codes_unfold.
  destruct (accumulate_off level ri (dict_address hash2uuids s)
              (parallel_map sched get_hash uuids use_mp) (replicate 7 0%Q)
              (initial_state hash2uuids s) Hoff) as [res ->].
  assert (clock (initial_state hash2uuids s) = clock s) as Hclock
    by (by destruct hash2uuids).
  assert (DEBUG < level → start_log (Report:=Report) level ri = []) as Hlog.
  { intros Hlevel. rewrite /start_log.
    by destruct (Z.leb_spec level DEBUG); [lia|]. }
  destruct res as [e|st].
  - rewrite /state_of /trace_of /= foldl_round_clock Hclock. split; [done|].
    intros Hlevel. by rewrite Hlog.
  - rewrite report_progress_off // /state_of /trace_of /=.
    rewrite foldl_round_clock Hclock. split; [done|].
    intros Hlevel. by rewrite Hlog.
Qed.

(** *** Counting memberships *)

Lemma identifiers_insert (m : gmap Z (gset U)) i x :
  m !! i = None → map_first_key (<[i:=x]> m) i →
  identifiers (<[i:=x]> m) = x ∪ identifiers m ∧
  memberships (<[i:=x]> m) = (size x + memberships m)%nat.
Proof.
  intros Hi Hfirst. rewrite /identifiers /memberships.
  by rewrite !map_fold_insert_first_key.
Qed.

Lemma elem_of_identifiers (m : gmap Z (gset U)) u :
  u ∈ identifiers m ↔ ∃ k ids, m !! k = Some ids ∧ u ∈ ids.
Proof.
  induction m as [|i x m Hi Hfirst IH] using map_first_key_ind.
  - rewrite /identifiers map_fold_empty. split; [set_solver|].
    intros (k & ids & Hk & _). by rewrite lookup_empty in Hk.
  - destruct (identifiers_insert m i x Hi Hfirst) as [-> _].
    rewrite elem_of_union IH. split.
    + intros [Hu|(k & ids & Hk & Hu)].
      * exists i, x. by rewrite lookup_insert_eq.
      * exists k, ids. rewrite lookup_insert_ne //. congruence.
    + intros (k & ids & Hk & Hu). destruct (decide (i = k)) as [->|Hne].
      * rewrite lookup_insert_eq in Hk. left. congruence.
      * rewrite lookup_insert_ne // in Hk. right. by exists k, ids.
Qed.

Lemma memberships_disjoint (m : gmap Z (gset U)) :
  (∀ k1 k2 ids1 ids2 u, m !! k1 = Some ids1 → m !! k2 = Some ids2 →
                        u ∈ ids1 → u ∈ ids2 → k1 = k2) →
  memberships m = size (identifiers m).
Proof.
  induction m as [|i x m Hi Hfirst IH] using map_first_key_ind; intros Hdisj.
  - by rewrite /memberships /identifiers !map_fold_empty size_empty.
  - destruct (identifiers_insert m i x Hi Hfirst) as [-> ->].
    rewrite size_union.
    { intros u Hu (k & ids & Hk & Hu')%elem_of_identifiers.
      assert (i = k) as <-; [|congruence].
      apply (Hdisj i k x ids u); [by rewrite lookup_insert_eq| |done|done].
      rewrite lookup_insert_ne //. congruence. }
    rewrite IH //. intros k1 k2 ids1 ids2 u Hk1 Hk2.
    apply Hdisj; rewrite lookup_insert_ne //; congruence.
Qed.

(** X19 ([compute_hash_codes]).  A run that starts from a new dictionary
    leaves one membership per distinct identifier: the sizes of the sets of
    the returned mapping add up to the number of different identifiers given
    (to the number of identifiers, when none is repeated). *)
Theorem one_membership_per_identifier uuids ri use_mp level sched s :
  Forall (λ u, is_Some (hash_code u)) uuids →
  let r := compute_hash_codes uuids None ri use_mp level sched s in
  let l := dict_address None s in
  result_of r = inr l ∧
  memberships (contents (state_of r) l) = size (list_to_set uuids : gset U) ∧
  (NoDup uuids → memberships (contents (state_of r) l) = length uuids).
Proof.
  intros Hfound r l.
  assert (no_dangling s ∅) as Hwf by (intros k a; by rewrite lookup_empty).
  destruct (compute_hash_codes_found uuids None ri use_mp level sched
              s ∅ Hfound eq_refl Hwf) as (Hres & rs & Hperm & Hr).
  fold r l in Hres, Hr.
  assert (∀ k u, (∃ ids, contents (state_of r) l !! k = Some ids ∧ u ∈ ids)
                 ↔ u ∈ uuids ∧ hash_code u = Some k) as Hnew.
  { intros k u.
    rewrite (reached_new_contents _ _ _ _ _ _ _ Hr (lookup_empty k)).
    by rewrite Hperm elem_of_pairs_of. }
  assert (memberships (contents (state_of r) l)
          = size (list_to_set uuids : gset U)) as Hcount.
  { rewrite memberships_disjoint.
    - intros k1 k2 ids1 ids2 u Hk1 Hk2 Hu1 Hu2.
      assert (hash_code u = Some k1) by (apply Hnew; eauto).
      assert (hash_code u = Some k2) by (apply Hnew; eauto).
      congruence.
    - f_equal. apply set_eq. intros u.
      rewrite elem_of_identifiers elem_of_list_to_set. split.
      + intros (k & ids & Hk & Hu). apply (Hnew k u). eauto.
      + intros Hu.
        destruct (proj1 (Forall_forall _ _) Hfound u Hu) as [k Hk].
        destruct (proj2 (Hnew k u) (conj Hu Hk)) as (ids & ? & ?). eauto. }
  split; [done|]. split; [done|].
  intros Hnodup. by rewrite Hcount size_list_to_set.
Qed.
End indexer.

Section samples.
Local Existing Instances
  Samples.table_index Samples.bits_functor Samples.ticking_reporter.
Import Samples.

Lemma u_found : Forall (λ u, is_Some (hash_code u)) ["u"].
Proof. repeat constructor; eexists; vm_compute; reflexivity. Qed.

Lemma u_hashed :
  Forall (λ u, is_Some (hash_code (index := gappy_index) (functor := strict_functor) u))
    ["u"].
Proof. repeat constructor; eexists; vm_compute; reflexivity. Qed.

(** The functor raises for ["e"], whose vector has no bits: the run
    raises that exception, having recorded ["u"]. *)
Lemma first_failure_aborts_witness :
  completion_order (in_order false) ["u"; "e"; "v"] = ["u"] ++ "e" :: ["v"] ∧
  Forall (λ u, is_Some (hash_code (index := gappy_index) (functor := strict_functor) u))
    ["u"] ∧
  get_hash (index := gappy_index) (functor := strict_functor) "e"
  = inl (ExternalError "ValueError") ∧
  starts_from None empty_store ∅ ∧ no_dangling empty_store ∅ ∧
  let r := run_gappy ["u"; "e"; "v"] None 1 false 10 in_order empty_store in
  result_of r = inl (ExternalError "ValueError") ∧
  ∀ k u', (∅ : gmap Z positive) !! k = None →
          (∃ ids : gset string,
             contents (state_of r) 1%positive !! k = Some ids ∧ u' ∈ ids)
          ↔ u' ∈ ["u"]
            ∧ hash_code (index := gappy_index) (functor := strict_functor) u' = Some k.
Proof.
  split; [reflexivity|]. split; [exact u_hashed|]. split; [reflexivity|].
  split; [reflexivity|]. split; [exact empty_store_no_dangling|].
  destruct (first_failure_aborts (DescriptorIndex0 := gappy_index)
              (LshFunctor0 := strict_functor)
              ["u"; "e"; "v"] None 1 false 10 in_order
              empty_store ∅ ["u"] "e" ["v"] (ExternalError "ValueError")
              eq_refl u_hashed eq_refl eq_refl empty_store_no_dangling)
    as (Hres & _ & Hnew).
  split; [exact Hres|]. intros k u' Hk. exact (Hnew k Hk u').
Defined.

(** An identifier the index does not hold stops the run in the same way,
    with the [KeyError] of the lookup. *)
Example failing_lookup :
  let r := run_index ["u"; "zz"; "v"] None 1 false 10 in_order empty_store in
  result_of r = inl KeyError ∧
  contents (state_of r) 1%positive = {[ 5 := {[ "u" ]} ]}.
Proof. by vm_compute. Qed.

Lemma rerun_changes_nothing_witness :
  Forall (λ u, is_Some (hash_code u)) ["u"; "v"] ∧
  starts_from (Some 1%positive) old_store old_dict ∧
  no_dangling old_store old_dict ∧
  let r := run_index ["u"; "v"] (Some 1%positive) 1 false 10 in_order old_store in
  let r' := run_index ["u"; "v"] (Some 1%positive) 0 true 20 first_last
              (state_of r) in
  result_of r' = inr 1%positive ∧
  dicts (state_of r') = dicts (state_of r) ∧
  sets (state_of r') = sets (state_of r).
Proof.
  split; [exact two_uuids_found|]. split; [reflexivity|].
  split; [exact old_store_no_dangling|].
  destruct (rerun_changes_nothing ["u"; "v"] (Some 1%positive) 1 false 10
              in_order 0 true 20 first_last old_store old_dict
              two_uuids_found eq_refl old_store_no_dangling)
    as (_ & Hres & Hdicts & Hsets & _).
  split; [exact Hres|]. split; [exact Hdicts|exact Hsets].
Defined.

Lemma two_runs_as_one_witness :
  Forall (λ u, is_Some (hash_code u)) (["u"; "v"] ++ ["w"]) ∧
  starts_from (Some 1%positive) old_store old_dict ∧
  no_dangling old_store old_dict ∧
  let r1 := run_index ["u"; "v"] (Some 1%positive) 1 false 10 in_order old_store in
  let r2 := run_index ["w"] (Some 1%positive) 1 false 10 in_order (state_of r1) in
  let r := run_index (["u"; "v"] ++ ["w"]) (Some 1%positive) 1 false 10
             in_order old_store in
  contents (state_of r2) 1%positive = contents (state_of r) 1%positive.
Proof.
  split; [exact sample_uuids_found|]. split; [reflexivity|].
  split; [exact old_store_no_dangling|].
  destruct (two_runs_as_one ["u"; "v"] ["w"] (Some 1%positive) 1 false 10
              in_order old_store old_dict sample_uuids_found eq_refl
              old_store_no_dangling) as (_ & _ & _ & Hsame).
  exact Hsame.
Defined.

Lemma same_elements_sample : ∀ u : string, u ∈ ["u"; "v"; "u"] ↔ u ∈ ["v"; "u"].
Proof. intros u. set_solver. Qed.

Lemma repeated_found : Forall (λ u, is_Some (hash_code u)) ["u"; "v"; "u"].
Proof. repeat constructor; eexists; vm_compute; reflexivity. Qed.

Lemma repeats_count_once_witness :
  (∀ u : string, u ∈ ["u"; "v"; "u"] ↔ u ∈ ["v"; "u"]) ∧
  Forall (λ u, is_Some (hash_code u)) ["u"; "v"; "u"] ∧
  starts_from None empty_store ∅ ∧ no_dangling empty_store ∅ ∧
  contents (state_of (run_index ["u"; "v"; "u"] None 1 false 10 in_order
                        empty_store)) 1%positive
  = contents (state_of (run_index ["v"; "u"] None 1 false 10 in_order
                          empty_store)) 1%positive.
Proof.
  split; [exact same_elements_sample|]. split; [exact repeated_found|].
  split; [reflexivity|]. split; [exact empty_store_no_dangling|].
  destruct (repeats_count_once ["u"; "v"; "u"] ["v"; "u"] None 1 false 10
              in_order empty_store ∅ same_elements_sample repeated_found
              eq_refl empty_store_no_dangling) as (_ & _ & Hsame).
  exact Hsame.
Defined.

Lemma disabled_reporting_is_free_witness :
  reporting_disabled 20 1 = true ∧
  let r := run_index ["u"; "v"; "w"] None 1 false 20 in_order empty_store in
  clock (state_of r) = 0%nat ∧ trace_of r = [].
Proof.
  split; [reflexivity|].
  destruct (disabled_reporting_is_free ["u"; "v"; "w"] None 1 false 20
              in_order empty_store eq_refl) as [Hclock Hlog].
  split; [exact Hclock|]. apply Hlog. reflexivity.
Defined.

Lemma one_membership_per_identifier_witness :
  Forall (λ u, is_Some (hash_code u)) ["u"; "v"; "w"] ∧
  NoDup ["u"; "v"; "w"] ∧
  let r := run_index ["u"; "v"; "w"] None 1 false 10 in_order empty_store in
  HashIdxCount.memberships (contents (state_of r) 1%positive) = 3%nat.
Proof.
  assert (NoDup ["u"; "v"; "w"]) as Hnodup.
  { repeat constructor; set_solver. }
  split; [exact sample_uuids_found|]. split; [exact Hnodup|].
  destruct (one_membership_per_identifier ["u"; "v"; "w"] 1 false 10 in_order
              empty_store sample_uuids_found) as (_ & _ & Hcount).
  exact (Hcount Hnodup).
Defined.
End samples.
End HashIdxMore.

(** ** The PostgreSQL-backed classification element *)

Module PgElementProps.
Import PgElement.

Section whitespace.
Implicit Types (l t tok : list ascii) (s : string).
Implicit Types (e : PostgresClassificationElement).

Lemma chars_app s1 s2 :
  String.list_ascii_of_string (s1 +:+ s2)
  = String.list_ascii_of_string s1 ++ String.list_ascii_of_string s2.
Proof. induction s1 as [|a s1 IH]; [done|]. by rewrite /= IH. Qed.

Lemma split_go_word tok t l :
  Forall (λ a, is_space a = false) t →
  split_go tok (t ++ l) = split_go (rev t ++ tok) l.
Proof.
  intros Ht. revert tok. induction Ht as [|a t Ha _ IH]; intros tok; [done|].
  by rewrite /= Ha IH -app_assoc.
Qed.

Lemma split_go_words tok l :
  Forall (λ a, is_space a = false) tok →
  Forall word (split_go tok l).
Proof.
  revert tok. induction l as [|a l IH]; intros tok Htok; simpl.
  - destruct tok as [|b tok]; [done|]. constructor; [|done]. split.
    + intros Hr. apply (f_equal length) in Hr.
      rewrite length_rev /= in Hr. done.
    + by apply Forall_rev.
  - destruct (is_space a) eqn:Ha.
    + destruct tok as [|b tok]; [by apply IH|].
      constructor; [|by apply IH]. split.
      * intros Hr. apply (f_equal length) in Hr.
        rewrite length_rev /= in Hr. done.
      * by apply Forall_rev.
    + apply IH. by constructor.
Qed.

Lemma chars_of_cons t t' toks :
  chars_of (t :: t' :: toks) = t ++ " "%char :: chars_of (t' :: toks).
Proof.
  rewrite /chars_of /= !chars_app String.list_ascii_of_string_of_list_ascii.
  done.
Qed.

Lemma chars_of_one t : chars_of [t] = t.
Proof. by rewrite /chars_of /= String.list_ascii_of_string_of_list_ascii. Qed.

Lemma single_spaced_from_word b t l :
  word t →
  single_spaced_from b (t ++ l) = single_spaced_from false l.
Proof.
  intros [Hne Ht]. revert b. induction Ht as [|a t Ha Ht IH]; intros b; [done|].
  rewrite /= Ha. destruct t as [|a' t]; [done|]. by apply IH.
Qed.

Lemma single_spaced_words toks :
  toks ≠ [] → Forall word toks →
  single_spaced_from true (chars_of toks) = true.
Proof.
  intros Hne Hw. induction Hw as [|t toks Ht Hw IH]; [done|].
  destruct toks as [|t' toks].
  - rewrite chars_of_one -(app_nil_r t). by rewrite single_spaced_from_word.
  - rewrite chars_of_cons single_spaced_from_word //=. by apply IH.
Qed.

Lemma split_go_chars_of toks :
  Forall word toks → split_go [] (chars_of toks) = toks.
Proof.
  intros Hw. induction Hw as [|t toks Ht Hw IH]; [done|].
  destruct toks as [|t' toks].
  - rewrite chars_of_one -(app_nil_r t) split_go_word; [by destruct Ht|].
    rewrite /= !app_nil_r. destruct Ht as [Hne _].
    destruct (rev t) eqn:Hr; [|by rewrite -Hr rev_involutive].
    apply (f_equal (@rev _)) in Hr. by rewrite rev_involutive in Hr.
  - rewrite chars_of_cons split_go_word; [by destruct Ht|].
    rewrite /= !app_nil_r IH. destruct Ht as [Hne _].
    destruct (rev t) eqn:Hr; [|by rewrite -Hr rev_involutive].
    apply (f_equal (@rev _)) in Hr. by rewrite rev_involutive in Hr.
Qed.

Lemma strip_chars s :
  String.list_ascii_of_string (strip_duplicate_whitespace s)
  = chars_of (split_go [] (String.list_ascii_of_string s)).
Proof. done. Qed.

Lemma chars_inj s1 s2 :
  String.list_ascii_of_string s1 = String.list_ascii_of_string s2 → s1 = s2.
Proof.
  intros Hc. rewrite -(String.string_of_list_ascii_of_string s1).
  by rewrite Hc String.string_of_list_ascii_of_string.
Qed.

Lemma strip_words s toks :
  Forall word toks → String.list_ascii_of_string s = chars_of toks →
  strip_duplicate_whitespace s = s.
Proof.
  intros Hw Hs. apply chars_inj.
  by rewrite strip_chars Hs split_go_chars_of.
Qed.

Lemma one_word_word name :
  one_word name = true → word (String.list_ascii_of_string name).
Proof.
  rewrite /one_word. intros [Hne Hall]%andb_prop. split.
  - destruct name; [done|]. done.
  - apply Forall_forall. intros a Ha.
    rewrite forallb_forall in Hall. apply negb_true_iff, Hall.
    by apply list_elem_of_In.
Qed.

Lemma word_literal t :
  t ≠ [] → forallb (λ a, negb (is_space a)) t = true → word t.
Proof.
  intros Hne Hall. split; [done|]. apply Forall_forall. intros a Ha.
  rewrite forallb_forall in Hall. apply negb_true_iff, Hall.
  by apply list_elem_of_In.
Qed.

Lemma word_app t1 t2 t3 :
  Forall (λ a, is_space a = false) t1 → word t2 →
  Forall (λ a, is_space a = false) t3 → word (t1 ++ t2 ++ t3).
Proof.
  intros H1 [Hne H2] H3. split.
  - destruct t1; [|done]. by destruct t2.
  - by rewrite !Forall_app.
Qed.

Lemma upsert_formatted_words e :
  one_word (table_name e) = true → one_word (type_col e) = true →
  one_word (uuid_col e) = true → one_word (classification_col e) = true →
  ∃ toks, Forall word toks
    ∧ String.list_ascii_of_string (upsert_formatted e) = chars_of toks.
Proof.
  intros Ht%one_word_word Hy%one_word_word Hu%one_word_word Hc%one_word_word.
  set (T := String.list_ascii_of_string (table_name e)) in *.
  set (Y := String.list_ascii_of_string (type_col e)) in *.
  set (U := String.list_ascii_of_string (uuid_col e)) in *.
  set (C := String.list_ascii_of_string (classification_col e)) in *.
  set (lit := String.list_ascii_of_string).
  exists [ lit "WITH"; lit "upsert"; lit "AS"; lit "("; lit "UPDATE"; T;
           lit "SET"; C; lit "="; lit "%(classification_val)s"; lit "WHERE";
           Y; lit "="; lit "%(type_val)s"; lit "AND"; U; lit "=";
           lit "%(uuid_val)s"; lit "RETURNING"; lit "*"; lit ")";
           lit "INSERT"; lit "INTO"; T; lit "(" ++ Y ++ lit ",";
           [] ++ U ++ lit ","; [] ++ C ++ lit ")"; lit "SELECT";
           lit "%(type_val)s,"; lit "%(uuid_val)s,";
           lit "%(classification_val)s"; lit "WHERE"; lit "NOT";
           lit "EXISTS"; lit "(SELECT"; lit "*"; lit "FROM"; lit "upsert);" ].
  split.
  - repeat (apply Forall_cons; split);
      try (apply Forall_nil_2);
      try assumption;
      try (by apply word_literal);
      apply word_app; try assumption; by repeat constructor.
  - rewrite /lit /upsert_formatted !chars_app !chars_of_cons chars_of_one.
    rewrite -/T -/Y -/U -/C /= -!app_assoc /=. reflexivity.
Qed.

(** X28 ([set_classification]).  Whatever the table and column names are,
    the upsert query handed to [execute] has whitespace only as one space
    between two words: no tab or newline, no space at either end and no
    two spaces in a row; stripping its whitespace once more would change
    nothing. *)
Theorem upsert_query_single_spaced e :
  single_spaced (upsert_query e) = true
  ∧ strip_duplicate_whitespace (upsert_query e) = upsert_query e.
Proof.
  pose proof (split_go_words []
                (String.list_ascii_of_string (upsert_formatted e))
                (Forall_nil_2 _)) as Hw.
  split.
  - rewrite /upsert_query /single_spaced strip_chars.
    destruct (split_go [] _) as [|t toks] eqn:Hs; [done|].
    destruct (chars_of (t :: toks)) as [|a l] eqn:Hc; [done|].
    rewrite -Hc. by apply single_spaced_words.
  - rewrite /upsert_query {1}/strip_duplicate_whitespace /py_split.
    by rewrite strip_chars split_go_chars_of.
Qed.

(** X29 ([set_classification]).  When the table name and the three column
    names are each one word, stripping the whitespace changes nothing: the
    query executed is the upsert template with the names filled in. *)
Theorem one_word_names_keep_template e :
  one_word (table_name e) = true → one_word (type_col e) = true →
  one_word (uuid_col e) = true → one_word (classification_col e) = true →
  upsert_query e = upsert_formatted e.
Proof.
  intros Ht Hy Hu Hc.
  destruct (upsert_formatted_words e Ht Hy Hu Hc) as (toks & Hw & Hs).
  by apply (strip_words _ toks).
Qed.
End whitespace.

Section protocol.
Context {World Connection CursorT Classification Kwds : Type}.
Context {driver : Psycopg2 World Connection CursorT}.
Context {surroundings : Surroundings Classification Kwds}.
Implicit Types (e : PostgresClassificationElement) (w : World).
Implicit Types (conn : Connection) (cur : CursorT).

Lemma emit_call {A} (ev : DbEvent) (f : World → World * (PyExn + A)) w :
  (emit ev ;; call f) w = ([ev], (f w).1, (f w).2).
Proof. rewrite /mbind /run_bind /emit /call. by destruct (f w). Qed.

Lemma close_both_cases cur conn w :
  close_both cur conn w =
    match cursor_close cur w with
    | (w1, inl exn) => ([CursorClose], w1, inl exn)
    | (w1, inr _) =>
        ([CursorClose; ConnectionClose], (connection_close conn w1).1,
         (connection_close conn w1).2)
    end.
Proof.
  rewrite /close_both /mbind /run_bind /emit /call.
  destruct (cursor_close cur w) as [w1 [exn|[]]]; [done|].
  by destruct (connection_close conn w1).
Qed.
(** The guarded region shared by the two operations. *)
Lemma guarded_unfold {A} (body : Db A) conn cur w :
  guarded body conn cur w
  = match body w with
    | (t, w1, inr a) =>
        match close_both cur conn w1 with
        | (t2, w2, inl exn) => (t ++ t2, w2, inl exn)
        | (t2, w2, inr _) => (t ++ t2, w2, inr a)
        end
    | (t, w1, inl exn) =>
        match rollback conn w1 with
        | (w2, inl exn') =>
            match close_both cur conn w2 with
            | (t2, w3, inl exn'') => ((t ++ [Rollback]) ++ t2, w3, inl exn'')
            | (t2, w3, inr _) => ((t ++ [Rollback]) ++ t2, w3, inl exn')
            end
        | (w2, inr _) =>
            match close_both cur conn w2 with
            | (t2, w3, inl exn'') => ((t ++ [Rollback]) ++ t2, w3, inl exn'')
            | (t2, w3, inr _) => ((t ++ [Rollback]) ++ t2, w3, inl exn)
            end
        end
    end.
Proof.
  rewrite /guarded /try_finally /try_except /rollback_and_raise /mbind /run_bind /emit
    /call /raise.
  destruct (body w) as [[t w1] [exn|a]]; [|done].
  destruct (rollback conn w1) as [w2 [exn'|[]]]; simpl;
    destruct (close_both cur conn w2) as [[t2 w3] [exn''|[]]]; done.
Qed.
Lemma guarded_returns {A} (body : Db A) conn cur w a :
  result_of (guarded body conn cur w) = inr a →
  ∃ t w1, body w = (t, w1, inr a)
    ∧ trace_of (guarded body conn cur w)
      = t ++ [CursorClose; ConnectionClose].
Proof.
  rewrite guarded_unfold.
  destruct (body w) as [[t w1] [exn|a']].
  - destruct (rollback conn w1) as [w2 [exn'|[]]];
      by destruct (close_both cur conn w2) as [[t2 w3] [exn''|[]]].
  - rewrite close_both_cases.
    destruct (cursor_close cur w1) as [w2 [exn|[]]]; [done|].
    destruct (connection_close conn w2) as [w3 [exn|[]]]; [done|].
    rewrite /result_of /trace_of /=. intros [= ->]. by exists t, w1.
Qed.



(** The bodies of the two [try] statements. *)
Lemma select_row_returns e conn cur w t w1 c :
  select_row e conn cur w = (t, w1, inr c) →
  t = [Execute (select_query e) (select_values e); Fetchone; Commit]
  ∧ ∃ w2 w3 b row, fetchone cur w2 = (w3, inr (Some (b :: row)))
      ∧ pickle_loads b = inr c.
Proof.
  rewrite /select_row /mbind /run_bind /emit /call /raise /mret /run_ret /=.
  destruct (execute cur _ _ w) as [w2 [exn|[]]]; [done|].
  destruct (fetchone cur w2) as [w3 [exn|r]] eqn:Hf; [done|].
  destruct (commit conn w3) as [w4 [exn|[]]]; [done|].
  destruct r as [[|b row]|]; [done| |done].
  destruct (pickle_loads b) as [exn|c'] eqn:Hl; [done|].
  intros [= <- <- <-]. split; [done|]. by exists w2, w3, b, row.
Qed.


Lemma select_row_no_row e conn cur w t w1 c :
  finds_no_row → select_row e conn cur w ≠ (t, w1, inr c).
Proof.
  intros Hn Hs. apply select_row_returns in Hs as (_ & w2 & w3 & b & row & Hf & _).
  by apply Hn in Hf.
Qed.



(** The two operations up to their guarded region. *)
Lemma get_classification_unfold e w :
  get_classification e w =
    match connect (db_name e) (db_user e) (db_pass e) (db_host e) (db_port e) w
    with
    | (w1, inl exn) => ([opening e], w1, inl exn)
    | (w1, inr conn) =>
        match cursor conn w1 with
        | (w2, inl exn) => ([opening e; Cursor], w2, inl exn)
        | (w2, inr cur) =>
            (opening e :: Cursor
               :: trace_of (guarded (select_row e conn cur) conn cur w2),
             state_of (guarded (select_row e conn cur) conn cur w2),
             result_of (guarded (select_row e conn cur) conn cur w2))
        end
    end.
Proof.
  rewrite /get_classification /get_psql_connection /mbind /run_bind /emit
    /call /=.
  destruct (connect _ _ _ _ _ w) as [w1 [exn|conn]]; [done|].
  destruct (cursor conn w1) as [w2 [exn|cur]]; [done|].
  by destruct (guarded _ conn cur w2) as [[t w3] r].
Qed.

Lemma set_classification_unfold e m kwds w :
  set_classification e m kwds w =
    match super_set_classification m kwds with
    | inl exn => ([], w, inl exn)
    | inr m' =>
        match connect (db_name e) (db_user e) (db_pass e) (db_host e)
                (db_port e) w with
        | (w1, inl exn) => ([opening e], w1, inl exn)
        | (w1, inr conn) =>
            match cursor conn w1 with
            | (w2, inl exn) => ([opening e; Cursor], w2, inl exn)
            | (w2, inr cur) =>
                (opening e :: Cursor
                   :: trace_of (guarded (upsert_row e m' conn cur) conn cur w2),
                 state_of (guarded (upsert_row e m' conn cur) conn cur w2),
                 result_of (guarded (upsert_row e m' conn cur) conn cur w2))
            end
        end
    end.
Proof.
  rewrite /set_classification /get_psql_connection /mbind /run_bind /emit
    /call /=.
  destruct (super_set_classification m kwds) as [exn|m']; [done|].
  destruct (connect _ _ _ _ _ w) as [w1 [exn|conn]]; [done|].
  destruct (cursor conn w1) as [w2 [exn|cur]]; [done|].
  by destruct (guarded _ conn cur w2) as [[t w3] r].
Qed.
Lemma has_classifications_unfold e w :
  has_classifications e w =
    match get_classification e w with
    | (t, w1, inr c) => (t, w1, inr (py_bool c))
    | (t, w1, inl exn) =>
        if decide (exn = NoClassificationError) then (t, w1, inr false)
        else (t, w1, inl exn)
    end.
Proof.
  rewrite /has_classifications /try_except /mbind /run_bind /mret /run_ret
    /raise.
  destruct (get_classification e w) as [[t w1] [exn|c]];
    [|by rewrite app_nil_r].
  destruct (decide _); by rewrite app_nil_r.
Qed.

Lemma get_classification_row e w c :
  result_of (get_classification e w) = inr c →
  ∃ cur w2 w3 b row, fetchone cur w2 = (w3, inr (Some (b :: row)))
    ∧ pickle_loads b = inr c.
Proof.
  rewrite get_classification_unfold.
  destruct (connect _ _ _ _ _ w) as [w1 [exn|conn]]; [done|].
  destruct (cursor conn w1) as [w2 [exn|cur]]; [done|].
  rewrite {1}/result_of /=. intros Hr.
  apply guarded_returns in Hr as (t & w3 & Hb & _).
  apply select_row_returns in Hb as (_ & w4 & w5 & b & row & Hf & Hl).
  by exists cur, w4, w5, b, row.
Qed.



(** X22 ([set_classification]).  [set_classification] asks nothing of
    the database exactly when the base class rejects the arguments: then
    the exception of the base class is raised, no connection is opened and
    the database is as it was; when the arguments are accepted the
    connection is asked for. *)
Theorem rejected_input_reaches_no_database e m kwds w :
  trace_of (set_classification e m kwds w) = [] ↔
  ∃ exn, super_set_classification m kwds = inl exn
    ∧ set_classification e m kwds w = ([], w, inl exn).
Proof.
  rewrite set_classification_unfold.
  destruct (super_set_classification m kwds) as [exn|m'].
  - split; [|done]. intros _. by exists exn.
  - split; [|by intros (exn & [=] & _)].
    destruct (connect _ _ _ _ _ w) as [w1 [exn|conn]]; [done|].
    by destruct (cursor conn w1) as [w2 [exn|cur]].
Qed.



(** X25 ([get_classification], [set_classification]).  When the connection
    is made but [conn.cursor()] raises, the exception leaves the operation
    at once: the two calls made are connect and cursor, and the connection
    that was opened is not closed. *)
Theorem failed_cursor_leaves_connection_open e w w1 conn w2 exn :
  connect (db_name e) (db_user e) (db_pass e) (db_host e) (db_port e) w
    = (w1, inr conn) →
  cursor conn w1 = (w2, inl exn) →
  get_classification e w = ([opening e; Cursor], w2, inl exn)
  ∧ ∀ m kwds m', super_set_classification m kwds = inr m' →
      set_classification e m kwds w = ([opening e; Cursor], w2, inl exn).
Proof.
  intros Hc Hk. split; [by rewrite get_classification_unfold Hc Hk|].
  intros m kwds m' Hs. by rewrite set_classification_unfold Hs Hc Hk.
Qed.

(** X26 ([get_classification], [has_classifications]).  On a table in which
    no query finds a row ([fetchone] gives [None] or an empty tuple),
    [get_classification] never returns a value and [has_classifications]
    never answers [True]. *)
Theorem no_row_no_classification e w :
  finds_no_row →
  (∀ c, result_of (get_classification e w) ≠ inr c)
  ∧ result_of (has_classifications e w) ≠ inr true.
Proof.
  intros Hn.
  assert (∀ c, result_of (get_classification e w) ≠ inr c) as Hg.
  { intros c Hr. apply get_classification_row in Hr
      as (cur & w2 & w3 & b & row & Hf & _).
    by apply Hn in Hf. }
  split; [done|]. rewrite has_classifications_unfold.
  destruct (get_classification e w) as [[t w1] [exn|c]].
  - by destruct (decide _).
  - by specialize (Hg c).
Qed.

(** X27 ([has_classifications]).  [has_classifications] makes the database
    calls of one [get_classification] and leaves the database as that call
    does; it answers [True] exactly when that call returns a dictionary
    that is true, and it never raises [NoClassificationError]. *)
Theorem has_classifications_answers e w :
  trace_of (has_classifications e w) = trace_of (get_classification e w)
  ∧ state_of (has_classifications e w) = state_of (get_classification e w)
  ∧ (result_of (has_classifications e w) = inr true ↔
     ∃ c, result_of (get_classification e w) = inr c ∧ py_bool c = true)
  ∧ result_of (has_classifications e w) ≠ inl NoClassificationError.
Proof.
  rewrite has_classifications_unfold.
  destruct (get_classification e w) as [[t w1] [exn|c]].
  - destruct (decide _) as [->|Hne]; rewrite /result_of /=;
      (repeat split; [by intros ?|by intros (? & ? & ?)|]); [done|].
    by intros [= ->].
  - rewrite /result_of /=. repeat split; [|by intros (? & [= ->] & ->)|done].
    intros [= Hb]. by exists c.
Qed.
End protocol.

Section samples.
Import Samples.




(** A dictionary whose confidences do not sum to one is rejected before
    the sample table is touched. *)
Example rejected_write :
  write_svm_x true (Some [("cat", 3%nat)]) cat_table
  = ([], cat_table, inl (ExternalError "ValueError")).
Proof. by vm_compute. Qed.




(** When the commit fails, the read and the write both raise its
    exception after rollback and the two closes; the write has then
    closed its cursor twice. *)
Example failed_commit :
  trace_of (get_classification (driver := table_driver_with true false)
              (surroundings := sample_surroundings) svm_x cat_table)
  = [opening svm_x; Cursor;
     Execute (select_query svm_x)
       (select_values (surroundings := sample_surroundings) svm_x);
     Fetchone; Commit; Rollback; CursorClose; ConnectionClose]
  ∧ trace_of (set_classification (driver := table_driver_with true false)
                (surroundings := sample_surroundings) svm_x
                (Some cat_or_dog) [] cat_table)
    = [opening svm_x; Cursor;
       Execute (upsert_query svm_x)
         (upsert_values (surroundings := sample_surroundings) svm_x
            (sample_dumps cat_or_dog));
       CursorClose; Commit; Rollback; CursorClose; ConnectionClose]
  ∧ result_of (set_classification (driver := table_driver_with true false)
                 (surroundings := sample_surroundings) svm_x
                 (Some cat_or_dog) [] cat_table)
    = inl (ExternalError "InternalError").
Proof. by vm_compute. Qed.

Lemma failed_cursor_leaves_connection_open_witness :
  connect (Psycopg2 := table_driver false) "postgres" None None None None
    cat_table = (cat_table, inr tt) ∧
  cursor (Psycopg2 := table_driver false) tt cat_table
    = (cat_table, inl (ExternalError "OperationalError")) ∧
  read_svm_x false cat_table
    = ([opening svm_x; Cursor], cat_table,
       inl (ExternalError "OperationalError")) ∧
  ∀ m kwds m', sample_super m kwds = inr m' →
    set_classification (driver := table_driver false)
      (surroundings := sample_surroundings) svm_x m kwds cat_table
    = ([opening svm_x; Cursor], cat_table,
       inl (ExternalError "OperationalError")).
Proof.
  split; [reflexivity|]. split; [reflexivity|].
  exact (failed_cursor_leaves_connection_open (driver := table_driver false)
           (surroundings := sample_surroundings) svm_x cat_table cat_table tt
           cat_table (ExternalError "OperationalError") eq_refl eq_refl).
Defined.

Lemma rowless_driver_finds_no_row : finds_no_row (driver := rowless_driver).
Proof. intros cur w w' r. by intros [= <- <-]. Qed.

Lemma no_row_no_classification_witness :
  finds_no_row (driver := rowless_driver) ∧
  (∀ c, result_of (get_classification (driver := rowless_driver)
                     (surroundings := sample_surroundings) svm_x 0%nat)
        ≠ inr c)
  ∧ result_of (has_classifications (driver := rowless_driver)
                 (surroundings := sample_surroundings) svm_x 0%nat)
    ≠ inr true.
Proof.
  split; [exact rowless_driver_finds_no_row|].
  exact (no_row_no_classification (driver := rowless_driver)
           (surroundings := sample_surroundings) svm_x 0%nat
           rowless_driver_finds_no_row).
Defined.

Lemma one_word_names_keep_template_witness :
  one_word (table_name svm_x) = true ∧ one_word (type_col svm_x) = true ∧
  one_word (uuid_col svm_x) = true ∧
  one_word (classification_col svm_x) = true ∧
  upsert_query svm_x = upsert_formatted svm_x.
Proof.
  repeat (split; [reflexivity|]).
  exact (one_word_names_keep_template svm_x eq_refl eq_refl eq_refl eq_refl).
Defined.

(** On the table without rows the read commits, raises
    [NoClassificationError], rolls back and closes; the question whether
    there is a classification is answered [False] by the same calls. *)
Example rowless_read :
  get_classification (driver := rowless_driver)
    (surroundings := sample_surroundings) svm_x 0%nat
  = ([opening svm_x; Cursor;
      Execute (select_query svm_x)
        (select_values (surroundings := sample_surroundings) svm_x);
      Fetchone; Commit; Rollback; CursorClose; ConnectionClose],
     8%nat, inl NoClassificationError)
  ∧ result_of (has_classifications (driver := rowless_driver)
                 (surroundings := sample_surroundings) svm_x 0%nat)
    = inr false.
Proof. by vm_compute. Qed.

(** What was written is what is read back from the sample table. *)
Example written_then_read :
  result_of (read_svm_x true
               (state_of (write_svm_x true (Some cat_or_dog) empty_table)))
  = inr cat_or_dog.
Proof. by vm_compute. Qed.
End samples.
End PgElementProps.
